(** * ZeroVault: vault cipher, background reader and vault store

    A shallow embedding of the TypeScript sources
      - [src/utils/crypto.ts]              (key derivation, vault cipher,
                                            password generator),
      - [src/extension/background/index.ts] (session key, encrypted storage,
                                            message listeners, auto-lock),
      - the zustand vault store            (credential set, sync state machine),
      - [src/pages/vault/VaultHome.tsx]    (the search of the vault page),
    together with the parts of the browser platform they call
    ([btoa]/[atob], [TextEncoder]/[TextDecoder], [crypto.subtle]).

    Part I holds the definitions, Part II the lemmas and theorems. *)

From Stdlib Require Import ZArith String Ascii List Bool Lia.
From Stdlib Require Import Strings.Byte.
Import ListNotations.
Local Open Scope Z_scope.

(* ================================================================== *)
(** * Part I: definitions                                              *)
(* ================================================================== *)

(** ** JavaScript values *)

(** A JavaScript string is a sequence of UTF-16 code units. *)
Definition JsString : Type := list Z.

Definition is_code_unit (u : Z) : bool := (0 <=? u) && (u <? 65536).

(** An ASCII literal as a JavaScript string. *)
Definition js (s : string) : JsString :=
  map (fun a => Z.of_N (N_of_ascii a)) (list_ascii_of_string s).

(** [s === t] *)
Fixpoint JsString_eqb (s t : JsString) : bool :=
  match s, t with
  | [], [] => true
  | a :: s', b :: t' => (a =? b) && JsString_eqb s' t'
  | _, _ => false
  end.

(** The contents of a [Uint8Array]. *)
Definition bytes : Type := list byte.

Definition b2z (b : byte) : Z := Z.of_N (Byte.to_N b).

(** Storing a number into a [Uint8Array] keeps it modulo 256. *)
Definition z2b (z : Z) : byte :=
  match Byte.of_N (Z.to_N (z mod 256)) with
  | Some b => b
  | None => x00
  end.

(** [String.fromCharCode(c1, ..., cn)]: one code unit per argument
    (ToUint16).  How many arguments a call can take is the matter of
    [spread] below. *)
Definition String_fromCharCode (l : list Z) : JsString :=
  map (fun n => n mod 65536) l.

(** [Uint8Array.from(s, c => c.charCodeAt(0))]. *)
Definition Uint8Array_from_charCodes (s : JsString) : bytes := map z2b s.

(** Exceptions (promise rejections) raised by the platform. *)
Inductive JsError : Type :=
| InvalidCharacterError   (* btoa / atob *)
| SyntaxError             (* JSON.parse *)
| DataError               (* crypto.subtle.importKey *)
| OperationError          (* crypto.subtle.decrypt: authentication failed *)
| TypeError               (* new URL(...) *)
| RangeError              (* a call with too many arguments; an array that
                             cannot be created *)
| QuotaExceededError.     (* crypto.getRandomValues on more than 65536 bytes *)

Inductive Result (A : Type) : Type :=
| Ok (a : A)
| Throw (e : JsError).
Arguments Ok {A} a.
Arguments Throw {A} e.

Definition bindR {A B} (r : Result A) (k : A -> Result B) : Result B :=
  match r with
  | Ok a => k a
  | Throw e => Throw e
  end.

Notation "x <-? r ;; k" :=
  (bindR r (fun x => k))
    (at level 61, r at next level, right associativity).

(** ** Base64: [btoa] and [atob] (HTML standard, forgiving-base64) *)

Module Base64.

Definition pad : Z := 61.  (* '=' *)

(** The character of a 6-bit value: A-Z, a-z, 0-9, '+', '/'. *)
Definition char_of_sextet (n : Z) : Z :=
  if n <? 26 then 65 + n
  else if n <? 52 then 97 + (n - 26)
  else if n <? 62 then 48 + (n - 52)
  else if n =? 62 then 43
  else 47.

Definition sextet_of_char (c : Z) : option Z :=
  if (65 <=? c) && (c <=? 90) then Some (c - 65)
  else if (97 <=? c) && (c <=? 122) then Some (c - 97 + 26)
  else if (48 <=? c) && (c <=? 57) then Some (c - 48 + 52)
  else if c =? 43 then Some 62
  else if c =? 47 then Some 63
  else None.

(** Three octets make four characters; a final group of one or two octets
    is padded with '='. *)
Fixpoint encode (l : list Z) : list Z :=
  match l with
  | [] => []
  | [a] =>
      let n := a * 65536 in
      [char_of_sextet (n / 262144); char_of_sextet (n / 4096 mod 64); pad; pad]
  | [a; b] =>
      let n := a * 65536 + b * 256 in
      [char_of_sextet (n / 262144); char_of_sextet (n / 4096 mod 64);
       char_of_sextet (n / 64 mod 64); pad]
  | a :: b :: c :: rest =>
      let n := a * 65536 + b * 256 + c in
      char_of_sextet (n / 262144) :: char_of_sextet (n / 4096 mod 64)
      :: char_of_sextet (n / 64 mod 64) :: char_of_sextet (n mod 64)
      :: encode rest
  end.

(** The sextets of the encoding, before they are written as characters. *)
Fixpoint groups (l : list Z) : list Z :=
  match l with
  | [] => []
  | [a] =>
      let n := a * 65536 in [n / 262144; n / 4096 mod 64]
  | [a; b] =>
      let n := a * 65536 + b * 256 in
      [n / 262144; n / 4096 mod 64; n / 64 mod 64]
  | a :: b :: c :: rest =>
      let n := a * 65536 + b * 256 + c in
      n / 262144 :: n / 4096 mod 64 :: n / 64 mod 64 :: n mod 64 :: groups rest
  end.

(** The padding of the encoding. *)
Fixpoint pads (l : list Z) : list Z :=
  match l with
  | [] => []
  | [_] => [pad; pad]
  | [_; _] => [pad]
  | _ :: _ :: _ :: rest => pads rest
  end.

Definition octets (l : list Z) : Prop := Forall (fun a => 0 <= a <= 255) l.

(** [btoa(s)]: throws when a code unit is above 0xFF. *)
Definition btoa (s : JsString) : Result JsString :=
  if forallb (fun u => (0 <=? u) && (u <=? 255)) s
  then Ok (encode s)
  else Throw InvalidCharacterError.

Definition is_ascii_whitespace (c : Z) : bool :=
  (c =? 9) || (c =? 10) || (c =? 12) || (c =? 13) || (c =? 32).

(** The input is exactly one or two '=' characters. *)
Definition is_padding (d : list Z) : bool :=
  match d with
  | [x] => x =? pad
  | [x; y] => (x =? pad) && (y =? pad)
  | _ => false
  end.

(** Removes one or two trailing '='. *)
Fixpoint strip_padding (d : list Z) : list Z :=
  match d with
  | [] => []
  | x :: r => if is_padding d then [] else x :: strip_padding r
  end.

Fixpoint sextets (d : list Z) : option (list Z) :=
  match d with
  | [] => Some []
  | c :: r =>
      match sextet_of_char c, sextets r with
      | Some n, Some ns => Some (n :: ns)
      | _, _ => None
      end
  end.

(** Four sextets make three octets; of a final group of two (three) sextets
    the last four (two) bits are discarded. *)
Fixpoint decode (l : list Z) : list Z :=
  match l with
  | a :: b :: c :: d :: rest =>
      let n := a * 262144 + b * 4096 + c * 64 + d in
      (n / 65536) :: (n / 256 mod 256) :: (n mod 256) :: decode rest
  | [a; b; c] =>
      let n := (a * 4096 + b * 64 + c) / 4 in
      [n / 256; n mod 256]
  | [a; b] =>
      let n := (a * 64 + b) / 16 in
      [n]
  | _ => []
  end.

(** [atob(s)] (forgiving-base64 decode): ASCII whitespace is dropped, the
    padding is optional, unused trailing bits are ignored; anything else
    throws. *)
Definition atob (s : JsString) : Result JsString :=
  let d := filter (fun c => negb (is_ascii_whitespace c)) s in
  let d := if (Nat.modulo (length d) 4 =? 0)%nat then strip_padding d else d in
  if (Nat.modulo (length d) 4 =? 1)%nat then Throw InvalidCharacterError
  else
    match sextets d with
    | Some ns => Ok (decode ns)
    | None => Throw InvalidCharacterError
    end.

End Base64.

(** ** UTF-8: [TextEncoder] and [TextDecoder] (Encoding standard) *)

Module Utf8.

Definition replacement : Z := 0xFFFD.
Definition is_high (u : Z) : bool := (0xD800 <=? u) && (u <=? 0xDBFF).
Definition is_low (u : Z) : bool := (0xDC00 <=? u) && (u <=? 0xDFFF).

(** Converting a JavaScript string to a sequence of scalar values: a
    surrogate pair is one scalar value, a surrogate that is not part of a
    pair becomes U+FFFD. *)
Fixpoint scalar_values (s : JsString) : list Z :=
  match s with
  | [] => []
  | u :: rest =>
      if is_high u then
        match rest with
        | v :: rest' =>
            if is_low v
            then (0x10000 + (u - 0xD800) * 0x400 + (v - 0xDC00)) :: scalar_values rest'
            else replacement :: scalar_values rest
        | [] => [replacement]
        end
      else if is_low u then replacement :: scalar_values rest
      else u :: scalar_values rest
  end.

(** The UTF-8 encoder.  The standard writes the pieces with shifts and
    masks ([cp >> 6], [cp & 0x3F], ...); on non-negative numbers these are
    the quotients and remainders below. *)
Definition encode_scalar (cp : Z) : bytes :=
  if cp <=? 0x7F then [z2b cp]
  else if cp <=? 0x7FF then
    [z2b (0xC0 + cp / 64); z2b (0x80 + cp mod 64)]
  else if cp <=? 0xFFFF then
    [z2b (0xE0 + cp / 4096); z2b (0x80 + cp / 64 mod 64); z2b (0x80 + cp mod 64)]
  else
    [z2b (0xF0 + cp / 262144); z2b (0x80 + cp / 4096 mod 64);
     z2b (0x80 + cp / 64 mod 64); z2b (0x80 + cp mod 64)].

(** [new TextEncoder().encode(s)] *)
Definition TextEncoder_encode (s : JsString) : bytes :=
  flat_map encode_scalar (scalar_values s).

(** The state of the UTF-8 decoder. *)
Record decoder : Type := {
  code_point : Z;
  bytes_seen : Z;
  bytes_needed : Z;
  lower_boundary : Z;
  upper_boundary : Z
}.

Definition initial : decoder :=
  {| code_point := 0; bytes_seen := 0; bytes_needed := 0;
     lower_boundary := 0x80; upper_boundary := 0xBF |}.

(** A byte read while no sequence is open. *)
Definition lead (b : Z) : list Z * decoder :=
  if b <=? 0x7F then ([b], initial)
  else if (0xC2 <=? b) && (b <=? 0xDF) then
    ([], {| code_point := b mod 32; bytes_seen := 0; bytes_needed := 1;
            lower_boundary := 0x80; upper_boundary := 0xBF |})
  else if (0xE0 <=? b) && (b <=? 0xEF) then
    ([], {| code_point := b mod 16; bytes_seen := 0; bytes_needed := 2;
            lower_boundary := if b =? 0xE0 then 0xA0 else 0x80;
            upper_boundary := if b =? 0xED then 0x9F else 0xBF |})
  else if (0xF0 <=? b) && (b <=? 0xF4) then
    ([], {| code_point := b mod 8; bytes_seen := 0; bytes_needed := 3;
            lower_boundary := if b =? 0xF0 then 0x90 else 0x80;
            upper_boundary := if b =? 0xF4 then 0x8F else 0xBF |})
  else ([replacement], initial).

(** One byte: the scalar values emitted and the next state.  A byte that
    cannot continue the open sequence ends it with U+FFFD and is then read
    again as a lead byte. *)
Definition step (st : decoder) (b : Z) : list Z * decoder :=
  if bytes_needed st =? 0 then lead b
  else if negb ((lower_boundary st <=? b) && (b <=? upper_boundary st)) then
    let (out, st') := lead b in (replacement :: out, st')
  else
    let cp := code_point st * 64 + b mod 64 in
    if bytes_seen st + 1 =? bytes_needed st then ([cp], initial)
    else ([], {| code_point := cp; bytes_seen := bytes_seen st + 1;
                 bytes_needed := bytes_needed st;
                 lower_boundary := 0x80; upper_boundary := 0xBF |}).

Fixpoint run (st : decoder) (l : list Z) : list Z :=
  match l with
  | [] => if bytes_needed st =? 0 then [] else [replacement]
  | b :: r => let (out, st') := step st b in out ++ run st' r
  end.

(** With [ignoreBOM] unset (the default) a leading U+FEFF is dropped. *)
Definition strip_bom (l : list Z) : list Z :=
  match l with
  | cp :: r => if cp =? 0xFEFF then r else l
  | [] => []
  end.

Definition utf16_of_scalar (cp : Z) : list Z :=
  if cp <=? 0xFFFF then [cp]
  else [0xD800 + (cp - 0x10000) / 0x400; 0xDC00 + (cp - 0x10000) mod 0x400].

(** [new TextDecoder().decode(buf)] *)
Definition TextDecoder_decode (buf : bytes) : JsString :=
  flat_map utf16_of_scalar (strip_bom (run initial (map b2z buf))).

(** A Unicode scalar value. *)
Definition is_scalar (cp : Z) : Prop :=
  0 <= cp <= 0x10FFFF /\ ~ (0xD800 <= cp <= 0xDFFF).

(** The first code unit is not the byte order mark. *)
Definition no_bom (s : JsString) : bool :=
  match s with
  | u :: _ => negb (u =? 0xFEFF)
  | [] => true
  end.

(** A string with no unpaired surrogate. *)
Fixpoint well_formed (s : JsString) : bool :=
  match s with
  | [] => true
  | u :: rest =>
      if is_high u then
        match rest with
        | v :: rest' => is_low v && well_formed rest'
        | [] => false
        end
      else is_code_unit u && negb (is_low u) && well_formed rest
  end.

End Utf8.

(** ** Effects *)

(** What a script draws from its environment: the bytes of
    [crypto.getRandomValues], the identifiers of [crypto.randomUUID] and the
    readings of the clock.  Each is a stream with a cursor; a draw returns
    the next elements and advances the cursor.  The environment also sets
    two limits of the engine: the number of arguments one call can take
    (about 65536 to 500000 in the engines in use, less on a deep stack) and
    the number of elements of the largest typed array it creates. *)
Record Ambient : Type := {
  random_bytes : nat -> byte;
  random_pos : nat;
  uuids : nat -> JsString;
  uuid_pos : nat;
  clock : nat -> Z;
  clock_pos : nat;
  max_arguments : Z;
  max_array_length : Z
}.

(** A computation over a state [S] that returns a value or throws; the state
    reached is kept in both cases. *)
Definition Js (S A : Type) : Type := S -> Result A * S.

Definition ret {S A} (a : A) : Js S A := fun s => (Ok a, s).

Definition throw {S A} (e : JsError) : Js S A := fun s => (Throw e, s).

Definition bind {S A B} (c : Js S A) (k : A -> Js S B) : Js S B :=
  fun s =>
    match c s with
    | (Ok a, s') => k a s'
    | (Throw e, s') => (Throw e, s')
    end.

Notation "x <- c ;; k" :=
  (bind c (fun x => k))
    (at level 61, c at next level, right associativity).
Notation "c ;;; k" :=
  (bind c (fun _ => k))
    (at level 61, right associativity).

(** [try { c } catch (e) { h e }] *)
Definition try_catch {S A} (c : Js S A) (h : JsError -> Js S A) : Js S A :=
  fun s =>
    match c s with
    | (Ok a, s') => (Ok a, s')
    | (Throw e, s') => h e s'
    end.

Definition liftR {S A} (r : Result A) : Js S A := fun s => (r, s).

Definition gets {S A} (f : S -> A) : Js S A := fun s => (Ok (f s), s).

Definition modify {S} (f : S -> S) : Js S unit := fun s => (Ok tt, f s).

(** Running a computation on a component [T] of the state [S]. *)
Definition zoom {S T A} (get : S -> T) (set : T -> S -> S) (c : Js T A) : Js S A :=
  fun s => let (r, t') := c (get s) in (r, set t' s).

(** [crypto.getRandomValues(new Uint8Array(n))] *)
Definition getRandomValues (n : nat) : Js Ambient bytes :=
  fun a =>
    (Ok (map (random_bytes a) (seq (random_pos a) n)),
     {| random_bytes := random_bytes a; random_pos := (random_pos a + n)%nat;
        uuids := uuids a; uuid_pos := uuid_pos a;
        clock := clock a; clock_pos := clock_pos a;
     max_arguments := max_arguments a; max_array_length := max_array_length a |}).

(** [crypto.randomUUID()] *)
Definition randomUUID : Js Ambient JsString :=
  fun a =>
    (Ok (uuids a (uuid_pos a)),
     {| random_bytes := random_bytes a; random_pos := random_pos a;
        uuids := uuids a; uuid_pos := S (uuid_pos a);
        clock := clock a; clock_pos := clock_pos a;
     max_arguments := max_arguments a; max_array_length := max_array_length a |}).

(** [Date.now()] *)
Definition Date_now : Js Ambient Z :=
  fun a =>
    (Ok (clock a (clock_pos a)),
     {| random_bytes := random_bytes a; random_pos := random_pos a;
        uuids := uuids a; uuid_pos := uuid_pos a;
        clock := clock a; clock_pos := S (clock_pos a);
     max_arguments := max_arguments a; max_array_length := max_array_length a |}).

(** [f(...arr)]: the elements of the array become the arguments of one
    call.  An engine accepts a limited number of arguments; beyond it the
    call throws a [RangeError] and [f] is not entered. *)
Definition spread {A} (f : list Z -> A) (arr : list Z) : Js Ambient A :=
  fun a =>
    if Z.of_nat (length arr) <=? max_arguments a then (Ok (f arr), a)
    else (Throw RangeError, a).


(** The contract of [crypto.randomUUID], a generator of version 4 UUIDs: no
    identifier is returned twice. *)
Definition never_repeats (a : Ambient) : Prop :=
  forall i j : nat, uuids a i = uuids a j -> i = j.

(** The identifiers [used] are results of calls of [crypto.randomUUID] made
    so far. *)
Definition drawn_before (a : Ambient) (used : list JsString) : Prop :=
  forall x, In x used -> exists i : nat, (i < uuid_pos a)%nat /\ uuids a i = x.

(** A string is truthy when it is not empty; [null] is falsy. *)
Definition truthy_string (k : option JsString) : bool :=
  match k with
  | Some (_ :: _) => true
  | _ => false
  end.

(** A number is truthy when it is not zero; [undefined] is falsy. *)
Definition truthy_number (n : option Z) : bool :=
  match n with
  | Some t => negb (t =? 0)
  | None => false
  end.

(** [n || d] on numbers. *)
Definition number_or (n : option Z) (d : Z) : Z :=
  match n with
  | Some t => if truthy_number n then t else d
  | None => d
  end.

(** ** The credential record of the background script *)

Record StoredCredential : Type := {
  sc_id : JsString;
  sc_name : JsString;
  sc_url : JsString;
  sc_username : JsString;
  sc_password : JsString;
  sc_notes : option JsString;
  sc_createdAt : JsString
}.

(** ** The browser platform

    The parts of the platform whose code is not part of the repository and
    that are not modelled above: [JSON], [crypto.subtle], [URL] and
    [Date.prototype.toISOString].  The scripts are parameterised over them. *)
Record Platform : Type := {
  Jwk : Type;
  CryptoKey : Type;
  (** [JSON.parse(keyString)] *)
  JSON_parse_jwk : JsString -> Result Jwk;
  (** [JSON.stringify(exported)] *)
  JSON_stringify_jwk : Jwk -> JsString;
  (** [importKey("jwk", jwk, {name: "AES-GCM"}, true, ["encrypt", "decrypt"])] *)
  subtle_importKey_jwk : Jwk -> Result CryptoKey;
  (** [exportKey("jwk", key)] *)
  subtle_exportKey_jwk : CryptoKey -> Jwk;
  (** [importKey("raw", password, "PBKDF2", ...)] followed by
      [deriveKey({name: "PBKDF2", salt, iterations, hash: "SHA-256"}, ...,
      {name: "AES-GCM", length: 256}, ...)]: password, salt, iterations. *)
  subtle_deriveKey_pbkdf2 : bytes -> bytes -> Z -> CryptoKey;
  (** [encrypt({name: "AES-GCM", iv}, key, data)]: ciphertext and tag. *)
  subtle_encrypt_aes_gcm : CryptoKey -> bytes -> bytes -> bytes;
  (** [decrypt({name: "AES-GCM", iv}, key, data)] *)
  subtle_decrypt_aes_gcm : CryptoKey -> bytes -> bytes -> Result bytes;
  (** [JSON.stringify(credentials)] and [JSON.parse(decrypted)], the latter
      at the type the script declares for it, [StoredCredential[]]. *)
  JSON_stringify_credentials : list StoredCredential -> JsString;
  JSON_parse_credentials : JsString -> Result (list StoredCredential);
  (** [new URL(url).hostname] *)
  URL_hostname : JsString -> Result JsString;
  (** [new Date(t).toISOString()] *)
  Date_toISOString : Z -> JsString
}.

(** AES-GCM decryption under the key and nonce of the encryption returns the
    plaintext. *)
Definition aes_gcm_correct (P : Platform) : Prop :=
  forall (key : CryptoKey P) (iv data : bytes),
    subtle_decrypt_aes_gcm P key iv (subtle_encrypt_aes_gcm P key iv data) = Ok data.

(** ** [src/utils/crypto.ts] *)

Module Crypto.
Section WithPlatform.
Variable P : Platform.

(** The spread of [generateSalt] has sixteen arguments, far below the limit
    of every engine: an ordinary call. *)
Definition generateSalt : Js Ambient JsString :=
  salt <- getRandomValues 16 ;;
  liftR (Base64.btoa (String_fromCharCode (map b2z salt))).

Definition deriveMasterKey (password salt : JsString) : Js Ambient JsString :=
  let keyMaterial := Utf8.TextEncoder_encode password in
  saltString <- liftR (Base64.atob salt) ;;
  let key :=
    subtle_deriveKey_pbkdf2 P keyMaterial (Uint8Array_from_charCodes saltString)
      100000 in
  let exported := subtle_exportKey_jwk P key in
  ret (JSON_stringify_jwk P exported).

Definition importKey (keyString : JsString) : Js Ambient (CryptoKey P) :=
  jwk <- liftR (JSON_parse_jwk P keyString) ;;
  liftR (subtle_importKey_jwk P jwk).

Definition encryptVaultData (data keyString : JsString) : Js Ambient JsString :=
  key <- importKey keyString ;;
  iv <- getRandomValues 12 ;;
  let encrypted := subtle_encrypt_aes_gcm P key iv (Utf8.TextEncoder_encode data) in
  let combined := iv ++ encrypted in
  binary <- spread String_fromCharCode (map b2z combined) ;;
  liftR (Base64.btoa binary).

Definition decryptVaultData (encryptedData keyString : JsString)
  : Js Ambient JsString :=
  key <- importKey keyString ;;
  binary <- liftR (Base64.atob encryptedData) ;;
  let combined := Uint8Array_from_charCodes binary in
  let iv := firstn 12 combined in
  let data := skipn 12 combined in
  decrypted <- liftR (subtle_decrypt_aes_gcm P key iv data) ;;
  ret (Utf8.TextDecoder_decode decrypted).

(** The nonce the next call of [encryptVaultData] draws, and the environment
    after the draw. *)
Definition next_nonce (a : Ambient) : bytes :=
  map (random_bytes a) (seq (random_pos a) 12).

Definition after_nonce (a : Ambient) : Ambient :=
  {| random_bytes := random_bytes a; random_pos := (random_pos a + 12)%nat;
     uuids := uuids a; uuid_pos := uuid_pos a;
     clock := clock a; clock_pos := clock_pos a;
     max_arguments := max_arguments a; max_array_length := max_array_length a |}.

(** The envelope of [data] under an imported key and a nonce. *)
Definition envelope (key : CryptoKey P) (iv : bytes) (data : JsString) : JsString :=
  Base64.encode
    (map b2z (iv ++ subtle_encrypt_aes_gcm P key iv (Utf8.TextEncoder_encode data))).

(** The bytes of the envelope of [data], nonce and output of the cipher,
    are no more than one call takes as arguments: [encryptVaultData] can
    spread them into [String.fromCharCode]. *)
Definition fits (key : CryptoKey P) (data : JsString) (a : Ambient) : Prop :=
  Z.of_nat (length (next_nonce a
                    ++ subtle_encrypt_aes_gcm P key (next_nonce a)
                         (Utf8.TextEncoder_encode data)))
  <= max_arguments a.

(** [decryptVaultData(await encryptVaultData(data, key), key)] *)
Definition roundtrip (data keyString : JsString) : Js Ambient JsString :=
  encrypted <- encryptVaultData data keyString ;;
  decryptVaultData encrypted keyString.


(** The key material derived from a password and the bytes of a salt. *)
Definition key_material (password : JsString) (salt : bytes) : JsString :=
  JSON_stringify_jwk P
    (subtle_exportKey_jwk P
       (subtle_deriveKey_pbkdf2 P (Utf8.TextEncoder_encode password) salt 100000)).

(** The key material is free of collisions on the salts of a set: PBKDF2
    and the export of the key give different results for two different
    salts of the set. *)
Definition collision_free (salts : bytes -> Prop) : Prop :=
  forall (password : JsString) (salt1 salt2 : bytes),
    salts salt1 -> salts salt2 ->
    key_material password salt1 = key_material password salt2 -> salt1 = salt2.

End WithPlatform.
End Crypto.

(** ** [src/extension/background/index.ts] *)

(** [s.replace(pattern, replacement)] with a string pattern: the first
    occurrence is replaced. *)
Fixpoint starts_with (pattern s : JsString) : bool :=
  match pattern, s with
  | [], _ => true
  | p :: pattern', c :: s' => (p =? c) && starts_with pattern' s'
  | _ :: _, [] => false
  end.

Fixpoint String_replace (pattern replacement s : JsString) : JsString :=
  if starts_with pattern s then replacement ++ skipn (length pattern) s
  else
    match s with
    | [] => []
    | c :: s' => c :: String_replace pattern replacement s'
    end.

Module Background.

(** What [chrome.storage.local] holds under ['vault_credentials']: nothing,
    a plain array (the layout of earlier versions) or a string. *)
Inductive StoredValue : Type :=
| NoValue
| PlainArray (l : list StoredCredential)
| Envelope (s : JsString).

Inductive LogEntry : Type :=
| LogLocked                         (* 'ZeroVault: Locked (no session key)' *)
| WarnUnencryptedArray              (* 'Found unencrypted array in storage, ...' *)
| ErrorDecryptionFailed (e : JsError)
| ErrorCannotSave                   (* 'Cannot save, no session key' *)
| ErrorEncryptionFailed (e : JsError)
| LogFound (n : nat)                (* 'Found n matching credentials' *)
| LogCredentialSaved.

(** The state of the background script: its global [sessionKey], the
    record of [chrome.storage.local], the console and the environment. *)
Record State : Type := {
  sessionKey : option JsString;
  vault_credentials : StoredValue;
  console : list LogEntry;
  ambient : Ambient
}.

Definition set_ambient (a : Ambient) (s : State) : State :=
  {| sessionKey := sessionKey s; vault_credentials := vault_credentials s;
     console := console s; ambient := a |}.

Definition set_vault_credentials (v : StoredValue) (s : State) : State :=
  {| sessionKey := sessionKey s; vault_credentials := v;
     console := console s; ambient := ambient s |}.

Definition logged (e : LogEntry) (s : State) : State :=
  {| sessionKey := sessionKey s; vault_credentials := vault_credentials s;
     console := console s ++ [e]; ambient := ambient s |}.

Definition log (e : LogEntry) : Js State unit := modify (logged e).

Definition with_ambient {A} (c : Js Ambient A) : Js State A :=
  zoom ambient set_ambient c.

(** The payload of [SAVE_CREDENTIAL] and [REQUEST_CREDENTIALS]. *)
Record SaveData : Type := {
  data_url : JsString;
  data_username : JsString;
  data_password : JsString
}.

Section WithPlatform.
Variable P : Platform.
(** [matchURL] of [utils/urlMatcher], whose file is not among the sources. *)
Variable matchURL : JsString -> JsString -> bool.

(** The handlers are modelled as running to completion: no other handler
    runs between the test of [sessionKey] and its use. *)
Definition getDecryptedCredentials : Js State (list StoredCredential) :=
  key <- gets sessionKey ;;
  match key with
  | Some ((_ :: _) as k) =>
      try_catch
        (encrypted <- gets vault_credentials ;;
         match encrypted with
         | NoValue => ret []
         | Envelope [] => ret []
         | PlainArray _ =>
             log WarnUnencryptedArray ;;;
             ret []
         | Envelope s =>
             decrypted <- with_ambient (Crypto.decryptVaultData P s k) ;;
             liftR (JSON_parse_credentials P decrypted)
         end)
        (fun e =>
           log (ErrorDecryptionFailed e) ;;;
           ret [])
  | _ =>
      log LogLocked ;;;
      ret []
  end.

Definition saveEncryptedCredentials (credentials : list StoredCredential)
  : Js State unit :=
  key <- gets sessionKey ;;
  match key with
  | Some ((_ :: _) as k) =>
      try_catch
        (let json := JSON_stringify_credentials P credentials in
         encrypted <- with_ambient (Crypto.encryptVaultData P json k) ;;
         modify (set_vault_credentials (Envelope encrypted)))
        (fun e => log (ErrorEncryptionFailed e))
  | _ => log ErrorCannotSave
  end.

Definition handleRequestCredentials (url : JsString)
  : Js State (list StoredCredential) :=
  credentials <- getDecryptedCredentials ;;
  let matching := filter (fun c => matchURL (sc_url c) url) credentials in
  log (LogFound (length matching)) ;;;
  ret matching.

Definition handleSaveCredential (data : SaveData) : Js State unit :=
  key <- gets sessionKey ;;
  if negb (truthy_string key) then ret tt
  else
    credentials <- getDecryptedCredentials ;;
    id <- with_ambient randomUUID ;;
    hostname <- liftR (URL_hostname P (data_url data)) ;;
    now <- with_ambient Date_now ;;
    let newCredential :=
      {| sc_id := id;
         sc_name := String_replace (js "www.") [] hostname;
         sc_url := data_url data;
         sc_username := data_username data;
         sc_password := data_password data;
         sc_notes := Some [];
         sc_createdAt := Date_toISOString P now |} in
    saveEncryptedCredentials (credentials ++ [newCredential]) ;;;
    log LogCredentialSaved.

(** The credential [handleSaveCredential] builds for a page whose URL has
    the given host name, in a given environment. *)
Definition saved_credential (data : SaveData) (hostname : JsString) (a : Ambient)
  : StoredCredential :=
  {| sc_id := uuids a (uuid_pos a);
     sc_name := String_replace (js "www.") [] hostname;
     sc_url := data_url data;
     sc_username := data_username data;
     sc_password := data_password data;
     sc_notes := Some [];
     sc_createdAt := Date_toISOString P (clock a (clock_pos a)) |}.

End WithPlatform.
End Background.

(** ** The vault store ([useVaultStore]) *)

Module VaultStore.

Inductive SyncStatus : Type := synced | pending | syncing | error.

Record Credential : Type := {
  id : JsString;
  name : JsString;
  url : JsString;
  username : JsString;
  password : JsString;
  notes : option JsString;
  lastUpdated : Z
}.

(** [Omit<Credential, 'id' | 'lastUpdated'>] *)
Record NewCredential : Type := {
  new_name : JsString;
  new_url : JsString;
  new_username : JsString;
  new_password : JsString;
  new_notes : option JsString
}.

(** [Partial<Credential>]: a field is present or not; [notes], when
    present, may hold [undefined]. *)
Record Updates : Type := {
  upd_id : option JsString;
  upd_name : option JsString;
  upd_url : option JsString;
  upd_username : option JsString;
  upd_password : option JsString;
  upd_notes : option (option JsString);
  upd_lastUpdated : option Z
}.

Record VaultState : Type := {
  isLocked : bool;
  credentials : list Credential;
  syncStatus : SyncStatus;
  lastSynced : option Z
}.

(** The state the store is created with; [now] is the reading of
    [Date.now()] at that time. *)
Definition initial (now : Z) : VaultState :=
  {| isLocked := true; credentials := []; syncStatus := synced;
     lastSynced := Some now |}.

(** Modelled from the spec: the reply of [syncService.syncChanges], whose
    file is not among the sources:
    [{ status: "synced" | "error", timestamp?: millis }]. *)
Inductive RemoteStatus : Type := remote_synced | remote_error.

Record SyncResult : Type := {
  status : RemoteStatus;
  timestamp : option Z
}.

(** What the store does that can be seen from outside, in order: the states
    it publishes with [set], its calls of the storage and sync services, and
    its console output. *)
Inductive Event : Type :=
| SetState (s : VaultState)
| CallSaveCredentials (cs : list Credential) (key : JsString)
| CallSyncChanges (cs : list Credential) (since : Z)
| LogPersisted                      (* 'VaultStore: Persisted to storage' *)
| WarnNoKey                         (* 'VaultStore: Cannot persist, no encryption key' *)
| ErrorSyncFailed (e : JsError).    (* 'VaultStore: Sync failed' *)

Record World : Type := {
  state : VaultState;
  (** [useAuthStore.getState().encryptionKey] *)
  encryptionKey : option JsString;
  trace : list Event;
  ambient : Ambient
}.

Definition set_ambient (a : Ambient) (w : World) : World :=
  {| state := state w; encryptionKey := encryptionKey w;
     trace := trace w; ambient := a |}.

Definition with_ambient {A} (c : Js Ambient A) : Js World A :=
  zoom ambient set_ambient c.

Definition traced (e : Event) (w : World) : World :=
  {| state := state w; encryptionKey := encryptionKey w;
     trace := trace w ++ [e]; ambient := ambient w |}.

Definition with_state (s : VaultState) (w : World) : World :=
  {| state := s; encryptionKey := encryptionKey w;
     trace := trace w; ambient := ambient w |}.

Definition emit (e : Event) : Js World unit := modify (traced e).

(** zustand's [get()] and [set(...)]; every [set] publishes the new state. *)
Definition get : Js World VaultState := gets state.

Definition set (f : VaultState -> VaultState) : Js World unit :=
  modify (fun w => traced (SetState (f (state w))) (with_state (f (state w)) w)).

Definition with_credentials (cs : list Credential) (s : VaultState) : VaultState :=
  {| isLocked := isLocked s; credentials := cs;
     syncStatus := syncStatus s; lastSynced := lastSynced s |}.

Definition with_syncStatus (st : SyncStatus) (s : VaultState) : VaultState :=
  {| isLocked := isLocked s; credentials := credentials s;
     syncStatus := st; lastSynced := lastSynced s |}.

Definition with_lastSynced (t : option Z) (s : VaultState) : VaultState :=
  {| isLocked := isLocked s; credentials := credentials s;
     syncStatus := syncStatus s; lastSynced := t |}.

Definition with_isLocked (b : bool) (s : VaultState) : VaultState :=
  {| isLocked := b; credentials := credentials s;
     syncStatus := syncStatus s; lastSynced := lastSynced s |}.

Definition or_else {A} (o : option A) (d : A) : A :=
  match o with
  | Some a => a
  | None => d
  end.

(** [{ ...c, ...updates, lastUpdated: now }] *)
Definition merge (c : Credential) (u : Updates) (now : Z) : Credential :=
  {| id := or_else (upd_id u) (id c);
     name := or_else (upd_name u) (name c);
     url := or_else (upd_url u) (url c);
     username := or_else (upd_username u) (username c);
     password := or_else (upd_password u) (password c);
     notes := or_else (upd_notes u) (notes c);
     lastUpdated := now |}.

(** [cs.map(f)] for a callback with effects. *)
Fixpoint mapM {S A B} (f : A -> Js S B) (l : list A) : Js S (list B) :=
  match l with
  | [] => ret []
  | a :: l' =>
      b <- f a ;;
      bs <- mapM f l' ;;
      ret (b :: bs)
  end.

(** No credential of the list has the given id. *)
Definition absent (target : JsString) (cs : list Credential) : Prop :=
  forall c, In c cs -> id c <> target.

(** The credential [addCredential] builds in a given environment. *)
Definition drawn_credential (credential : NewCredential) (a : Ambient) : Credential :=
  {| id := uuids a (uuid_pos a);
     name := new_name credential;
     url := new_url credential;
     username := new_username credential;
     password := new_password credential;
     notes := new_notes credential;
     lastUpdated := clock a (clock_pos a) |}.

(** The world after the start of [syncVault]. *)
Definition sync_started (w : World) : World :=
  traced (CallSyncChanges (credentials (state w)) (number_or (lastSynced (state w)) 0))
    (traced (SetState (with_syncStatus syncing (state w)))
       (with_state (with_syncStatus syncing (state w)) w)).

(** The first thing published on the way from [w] to [w'] is a state whose
    status is [pending]. *)
Definition publishes_pending_first (w w' : World) : Prop :=
  exists s rest, trace w' = trace w ++ SetState s :: rest /\ syncStatus s = pending.

Section WithServices.
(** [saveCredentials] of [services/storage] and [syncService.syncChanges]
    of [services/sync.service], whose files are not among the sources: what
    a call with the given arguments settles to. *)
Variable saveCredentials : list Credential -> JsString -> Result unit.
Variable syncChanges : list Credential -> Z -> Result SyncResult.

Definition persistToStorage (cs : list Credential) : Js World unit :=
  key <- gets encryptionKey ;;
  match key with
  | Some ((_ :: _) as k) =>
      emit (CallSaveCredentials cs k) ;;;
      liftR (saveCredentials cs k) ;;;
      emit LogPersisted
  | _ => emit WarnNoKey
  end.

Definition setSyncStatus (st : SyncStatus) : Js World unit :=
  set (with_syncStatus st).

Definition setLocked (locked : bool) : Js World unit :=
  set (with_isLocked locked).

Definition clearVault : Js World unit :=
  set (fun s => with_syncStatus synced (with_lastSynced None (with_credentials [] s))).

Definition setCredentials (cs : list Credential) : Js World unit :=
  set (with_credentials cs).

(** [syncVault] up to its [await]: the status becomes [syncing] and the
    remote is called with the credentials and [lastSynced || 0]. *)
Definition syncVault_begin : Js World (list Credential * Z) :=
  s <- get ;;
  setSyncStatus syncing ;;;
  let since := number_or (lastSynced s) 0 in
  emit (CallSyncChanges (credentials s) since) ;;;
  ret (credentials s, since).

Definition is_synced (r : RemoteStatus) : bool :=
  match r with remote_synced => true | remote_error => false end.

Definition is_error (r : RemoteStatus) : bool :=
  match r with remote_error => true | remote_synced => false end.

(** [syncVault] after its [await]: the reply of the remote, or what it threw. *)
Definition syncVault_settle (reply : Result SyncResult) : Js World unit :=
  match reply with
  | Ok result =>
      if is_synced (status result) && truthy_number (timestamp result) then
        set (fun s => with_syncStatus synced (with_lastSynced (timestamp result) s))
      else if is_error (status result) then
        setSyncStatus error
      else ret tt
  | Throw e =>
      emit (ErrorSyncFailed e) ;;;
      setSyncStatus error
  end.

Definition syncVault : Js World unit :=
  call <- syncVault_begin ;;
  syncVault_settle (syncChanges (fst call) (snd call)).

(** The mutations end with [get().syncVault()], which is not awaited: their
    promise resolves when [syncVault] has reached its [await]. *)
Definition addCredential (credential : NewCredential) : Js World unit :=
  newId <- with_ambient randomUUID ;;
  now <- with_ambient Date_now ;;
  let newCredential :=
    {| id := newId;
       name := new_name credential;
       url := new_url credential;
       username := new_username credential;
       password := new_password credential;
       notes := new_notes credential;
       lastUpdated := now |} in
  set (fun s => with_syncStatus pending
                  (with_credentials (credentials s ++ [newCredential]) s)) ;;;
  s <- get ;;
  persistToStorage (credentials s) ;;;
  syncVault_begin ;;;
  ret tt.

Definition updateCredential (target : JsString) (updates : Updates) : Js World unit :=
  s <- get ;;
  cs <- mapM (fun c =>
                if JsString_eqb (id c) target
                then now <- with_ambient Date_now ;; ret (merge c updates now)
                else ret c)
             (credentials s) ;;
  set (fun s => with_syncStatus pending (with_credentials cs s)) ;;;
  s <- get ;;
  persistToStorage (credentials s) ;;;
  syncVault_begin ;;;
  ret tt.

Definition deleteCredential (target : JsString) : Js World unit :=
  set (fun s => with_syncStatus pending
                  (with_credentials
                     (filter (fun c => negb (JsString_eqb (id c) target))
                        (credentials s)) s)) ;;;
  s <- get ;;
  persistToStorage (credentials s) ;;;
  syncVault_begin ;;;
  ret tt.

End WithServices.
End VaultStore.

(** ** The storage service ([services/storage]) *)

Module Storage.

(** The environment the service draws from, and what [chrome.storage.local]
    holds under the name of the vault. *)
Record Disk : Type := {
  disk_ambient : Ambient;
  stored : option JsString
}.

Section WithPlatform.
Variable P : Platform.
(** [JSON.stringify] on the credentials of the store. *)
Variable stringify : list VaultStore.Credential -> JsString.

(** Modelled from the spec: [saveCredentials] of [services/storage], whose
    file is not among the sources.  "Persistence-on-mutation must encrypt
    the entire current set, not a diff"; the vault envelope is "a single
    opaque token keyed by a fixed name, overwritten wholesale on every
    mutation".  The whole list is encrypted under the key with
    [encryptVaultData] and the envelope replaces the stored one. *)
Definition saveCredentials (credentials : list VaultStore.Credential) (key : JsString)
  : Js Disk unit :=
  envelope <- zoom disk_ambient
                (fun a d => {| disk_ambient := a; stored := stored d |})
                (Crypto.encryptVaultData P (stringify credentials) key) ;;
  modify (fun d => {| disk_ambient := disk_ambient d; stored := Some envelope |}).

(** What a call of [saveCredentials] settles to, as the store sees it. *)
Definition settles (d : Disk) (credentials : list VaultStore.Credential)
    (key : JsString) : Result unit :=
  fst (saveCredentials credentials key d).

End WithPlatform.
End Storage.

(** ** A small executable platform

    It stands in for the browser where a statement is evaluated on concrete
    data: a byte-wise additive cipher with a 16-byte checksum as tag, keys
    written as binary strings, and a JSON reader that knows the empty array
    only.  No theorem below depends on these choices. *)

Module Demo.

Definition checksum (l : bytes) : Z :=
  fold_right (fun b acc => (b2z b + 31 * acc) mod 256) 7 l.

Definition tag (key iv data : bytes) : bytes :=
  repeat (z2b (checksum (key ++ iv ++ data))) 16.

Definition encrypt (key iv data : bytes) : bytes :=
  map (fun b => z2b (b2z b + checksum (key ++ iv))) data ++ tag key iv data.

Fixpoint bytes_eqb (a b : bytes) : bool :=
  match a, b with
  | [], [] => true
  | x :: a', y :: b' => Byte.eqb x y && bytes_eqb a' b'
  | _, _ => false
  end.

Definition decrypt (key iv data : bytes) : Result bytes :=
  let n := (length data - 16)%nat in
  if (length data <? 16)%nat then Throw OperationError
  else
    let plain := map (fun b => z2b (b2z b - checksum (key ++ iv))) (firstn n data) in
    if bytes_eqb (skipn n data) (tag key iv plain) then Ok plain
    else Throw OperationError.

Definition parse_jwk (s : JsString) : Result JsString :=
  match s with
  | [] => Throw SyntaxError
  | _ :: _ =>
      if forallb (fun u => (0 <=? u) && (u <=? 255)) s then Ok s
      else Throw SyntaxError
  end.

Definition stringify_credentials (l : list StoredCredential) : JsString :=
  js "[" ++
  flat_map (fun c =>
              js "{" ++ sc_id c ++ js "," ++ sc_name c ++ js "," ++ sc_url c
              ++ js "," ++ sc_username c ++ js "," ++ sc_password c ++ js "}") l
  ++ js "]".

Definition parse_credentials (s : JsString) : Result (list StoredCredential) :=
  if JsString_eqb s (js "[]") then Ok [] else Throw SyntaxError.

Fixpoint until_slash (s : JsString) : JsString :=
  match s with
  | [] => []
  | c :: s' => if c =? 47 then [] else c :: until_slash s'
  end.

Definition hostname (u : JsString) : Result JsString :=
  if starts_with (js "https://") u then Ok (until_slash (skipn 8 u))
  else Throw TypeError.

Definition platform : Platform :=
  {| Jwk := JsString;
     CryptoKey := bytes;
     JSON_parse_jwk := parse_jwk;
     JSON_stringify_jwk := fun j => j;
     subtle_importKey_jwk := fun j => Ok (map z2b j);
     subtle_exportKey_jwk := fun k => map b2z k;
     subtle_deriveKey_pbkdf2 := fun password salt _ => x01 :: password ++ salt;
     subtle_encrypt_aes_gcm := encrypt;
     subtle_decrypt_aes_gcm := decrypt;
     JSON_stringify_credentials := stringify_credentials;
     JSON_parse_credentials := parse_credentials;
     URL_hostname := hostname;
     Date_toISOString := fun t => js "T" ++ [48 + t mod 10] |}.

(** An environment whose random bytes count upwards and whose identifiers
    grow by one character each. *)
Definition counting : Ambient :=
  {| random_bytes := fun n => z2b (Z.of_nat n); random_pos := 0;
     uuids := fun n => js "uuid-" ++ repeat 48 (S n); uuid_pos := 0;
     clock := fun n => 1700000000000 + Z.of_nat n; clock_pos := 0;
     max_arguments := 65536; max_array_length := 4294967295 |}.

(** The envelope of the empty list under the key ["key"]. *)
Definition sealed_empty : JsString :=
  Crypto.envelope platform (map z2b (js "key")) (Crypto.next_nonce counting)
    (js "[]").

(** An unlocked, synced store with one credential. *)
Definition github : VaultStore.Credential :=
  {| VaultStore.id := js "uuid-g";
     VaultStore.name := js "github";
     VaultStore.url := js "https://github.com";
     VaultStore.username := js "u";
     VaultStore.password := js "p";
     VaultStore.notes := None;
     VaultStore.lastUpdated := 1690000000000 |}.

Definition store (key : option JsString) (a : Ambient) : VaultStore.World :=
  {| VaultStore.state :=
       {| VaultStore.isLocked := false;
          VaultStore.credentials := [github];
          VaultStore.syncStatus := VaultStore.synced;
          VaultStore.lastSynced := Some 1690000000000 |};
     VaultStore.encryptionKey := key;
     VaultStore.trace := [];
     VaultStore.ambient := a |}.

Definition gitlab : VaultStore.NewCredential :=
  {| VaultStore.new_name := js "gitlab";
     VaultStore.new_url := js "https://gitlab.com";
     VaultStore.new_username := js "u";
     VaultStore.new_password := js "q";
     VaultStore.new_notes := None |}.

(** Storage and sync services that accept every call. *)
Definition save_ok (cs : list VaultStore.Credential) (key : JsString) : Result unit :=
  Ok tt.

Definition remote (reply : VaultStore.SyncResult) (cs : list VaultStore.Credential)
    (since : Z) : Result VaultStore.SyncResult :=
  Ok reply.

(** The payload of a [SAVE_CREDENTIAL] message. *)
Definition login : Background.SaveData :=
  {| Background.data_url := js "https://www.github.com/login";
     Background.data_username := js "u";
     Background.data_password := js "p" |}.

(** An unlocked background script whose storage holds the given value. *)
Definition background (key : option JsString) (v : Background.StoredValue)
  : Background.State :=
  {| Background.sessionKey := key;
     Background.vault_credentials := v;
     Background.console := [];
     Background.ambient := counting |}.

End Demo.

(** ** [generateRandomPassword] of [src/utils/crypto.ts] *)

Module Generator.

Record Options : Type := {
  uppercase : bool;
  lowercase : bool;
  numbers : bool;
  symbols : bool
}.

Definition charset_uppercase : JsString := js "ABCDEFGHIJKLMNOPQRSTUVWXYZ".
Definition charset_lowercase : JsString := js "abcdefghijklmnopqrstuvwxyz".
Definition charset_numbers : JsString := js "0123456789".
Definition charset_symbols : JsString := js "!@#$%^&*()_+~`|}{[]:;?><,./-=".

(** The characters to draw from, in the order the code appends them. *)
Definition characters (o : Options) : JsString :=
  (if uppercase o then charset_uppercase else [])
  ++ (if lowercase o then charset_lowercase else [])
  ++ (if numbers o then charset_numbers else [])
  ++ (if symbols o then charset_symbols else []).

Inductive Generated : Type :=
| Password (s : JsString)
| Failed (e : JsError).

(** The element [i] of a [Uint32Array] filled by [crypto.getRandomValues]:
    the next four bytes of the random source, lowest byte first. *)
Definition random_u32 (a : Ambient) (i : nat) : Z :=
  let at_ k := b2z (random_bytes a (random_pos a + 4 * i + k)%nat) in
  at_ 0%nat + 256 * at_ 1%nat + 65536 * at_ 2%nat + 16777216 * at_ 3%nat.

Definition after_u32 (n : nat) (a : Ambient) : Ambient :=
  {| random_bytes := random_bytes a; random_pos := (random_pos a + 4 * n)%nat;
     uuids := uuids a; uuid_pos := uuid_pos a;
     clock := clock a; clock_pos := clock_pos a;
     max_arguments := max_arguments a; max_array_length := max_array_length a |}.

(** [s.charAt(k)]: the empty string outside the string. *)
Definition charAt (s : JsString) (k : Z) : JsString :=
  if (0 <=? k) && (k <? Z.of_nat (length s))
  then firstn 1 (skipn (Z.to_nat k) s)
  else [].

(** [new Uint32Array(length)] for an integer [length]: it throws a
    [RangeError] when the length is negative and when the engine cannot
    create an array that long.  An array of at most 16384 elements (64 KiB)
    is taken to be created; beyond that the limit of the engine decides. *)
Definition Uint32Array_created (a : Ambient) (length : Z) : bool :=
  (0 <=? length) && ((length <=? 16384) || (length <=? max_array_length a)).

(** [length] is an integer.  [crypto.getRandomValues] throws a
    [QuotaExceededError] for an array of more than 65536 bytes, that is of
    more than 16384 elements. *)
Definition generateRandomPassword (length : Z) (o : Options)
  : Ambient -> Generated * Ambient :=
  fun a =>
    let chars := characters o in
    match chars with
    | [] => (Password [], a)
    | _ :: _ =>
        if negb (Uint32Array_created a length) then (Failed RangeError, a)
        else if 16384 <? length then (Failed QuotaExceededError, a)
        else
          let n := Z.to_nat length in
          (Password
             (flat_map
                (fun i => charAt chars (random_u32 a i mod Z.of_nat (List.length chars)))
                (seq 0 n)),
           after_u32 n a)
    end.

(** The character belongs to one of the classes the options select. *)
Definition allowed (o : Options) (c : Z) : Prop :=
  (uppercase o = true /\ In c charset_uppercase)
  \/ (lowercase o = true /\ In c charset_lowercase)
  \/ (numbers o = true /\ In c charset_numbers)
  \/ (symbols o = true /\ In c charset_symbols).

(** Some class is selected. *)
Definition some_class (o : Options) : bool :=
  uppercase o || lowercase o || numbers o || symbols o.

(** The character the loop appends for the value [v] of the random array. *)
Definition drawn_char (o : Options) (v : Z) : JsString :=
  charAt (characters o) (v mod Z.of_nat (List.length (characters o))).

(** The values of an element of a [Uint32Array]. *)
Definition is_u32 (v : Z) : Prop := 0 <= v < 4294967296.

Fixpoint distinct (s : JsString) : bool :=
  match s with
  | [] => true
  | c :: s' => negb (existsb (Z.eqb c) s') && distinct s'
  end.

End Generator.

(** ** The message listeners and the auto-lock timer of
       [src/extension/background/index.ts] *)

Module Listener.
Import Background.

(** [sender.tab]: absent, or a tab whose [id] may be absent. *)
Record Tab : Type := { tab_id : option Z }.

(** The messages, by their [type]; [Other] is any type the script has no
    case for. *)
Inductive Message : Type :=
| SET_SESSION_KEY (key : option JsString)      (* message.data?.key *)
| REQUEST_CREDENTIALS (url : JsString)
| FORM_SUBMITTED (data : SaveData)
| SAVE_CREDENTIAL (data : SaveData)
| Other.

Inductive Response : Type :=
| Success                                       (* { success: true } *)
| Credentials (l : list StoredCredential).      (* { credentials: matching } *)

(** What the listeners do besides the effects recorded in [State]: their
    console lines, the responses they send and their messages to tabs. *)
Inductive Entry : Type :=
| LogReceived                   (* 'Background received message:' *)
| LogSessionKeySet              (* 'Session key set' *)
| LogUnknownType                (* 'Unknown message type:' *)
| LogPasswordChanged            (* 'Password changed' *)
| LogAutoLocking                (* 'Auto-locking' *)
| LogRestored                   (* 'Restored session key from session storage' *)
| Responded (r : Response)
| ShowSavePrompt (tab : Z) (data : SaveData).

Record Runtime : Type := {
  script : State;
  (** [chrome.storage.session] under ['sessionKey'] *)
  stored_sessionKey : option JsString;
  (** The variable [autoLockTimer]. *)
  autoLockTimer : option nat;
  (** The timeouts that are pending: handle and time due. *)
  timers : list (nat * Z);
  (** The handle the next [setTimeout] returns. *)
  next_handle : nat;
  (** The read of ['sessionKey'] the script issues when it starts, while
      its callback has not run: what the session storage held then. *)
  restoring : option (option JsString);
  journal : list Entry
}.

Definition with_script (s : State) (r : Runtime) : Runtime :=
  {| script := s; stored_sessionKey := stored_sessionKey r;
     autoLockTimer := autoLockTimer r; timers := timers r;
     next_handle := next_handle r; restoring := restoring r;
     journal := journal r |}.

Definition in_script {A} (c : Js State A) : Js Runtime A :=
  zoom script with_script c.

Definition noted (e : Entry) (r : Runtime) : Runtime :=
  {| script := script r; stored_sessionKey := stored_sessionKey r;
     autoLockTimer := autoLockTimer r; timers := timers r;
     next_handle := next_handle r; restoring := restoring r;
     journal := journal r ++ [e] |}.

Definition note (e : Entry) : Js Runtime unit := modify (noted e).

Definition with_sessionKey (k : option JsString) (s : State) : State :=
  {| sessionKey := k; vault_credentials := vault_credentials s;
     console := console s; ambient := ambient s |}.

(** [sessionKey = k] together with the write, or the removal, of the copy
    in [chrome.storage.session]. *)
Definition set_keys (k : option JsString) (r : Runtime) : Runtime :=
  {| script := with_sessionKey k (script r); stored_sessionKey := k;
     autoLockTimer := autoLockTimer r; timers := timers r;
     next_handle := next_handle r; restoring := restoring r;
     journal := journal r |}.

(** The auto-lock delay, [15 * 60 * 1000] milliseconds. *)
Definition auto_lock_delay : Z := 15 * 60 * 1000.

(** [clearTimeout(h)] *)
Definition clearTimeout (h : nat) (r : Runtime) : Runtime :=
  {| script := script r; stored_sessionKey := stored_sessionKey r;
     autoLockTimer := autoLockTimer r;
     timers := filter (fun t => negb (Nat.eqb (fst t) h)) (timers r);
     next_handle := next_handle r; restoring := restoring r;
     journal := journal r |}.

(** [autoLockTimer = setTimeout(..., delay)] at the time [now]. *)
Definition setTimeout_autoLock (now : Z) (r : Runtime) : Runtime :=
  {| script := script r; stored_sessionKey := stored_sessionKey r;
     autoLockTimer := Some (next_handle r);
     timers := timers r ++ [(next_handle r, now + auto_lock_delay)];
     next_handle := S (next_handle r); restoring := restoring r;
     journal := journal r |}.

(** [if (autoLockTimer) clearTimeout(autoLockTimer)] followed by the new
    [setTimeout]; a handle is a number, and zero is falsy. *)
Definition resetAutoLockTimer (now : Z) : Js Runtime unit :=
  modify (fun r =>
    setTimeout_autoLock now
      match autoLockTimer r with
      | Some (S _ as h) => clearTimeout h r
      | _ => r
      end).

(** The runtime after [resetAutoLockTimer]. *)
Definition rearmed (now : Z) (r : Runtime) : Runtime :=
  setTimeout_autoLock now
    match autoLockTimer r with
    | Some (S _ as h) => clearTimeout h r
    | _ => r
    end.

(** The callback of the auto-lock timer. *)
Definition autoLock : Js Runtime unit :=
  note LogAutoLocking ;;;
  modify (set_keys None).

(** A [tab.id] that is present and not zero. *)
Definition truthy_tab (tab : option Tab) : option Z :=
  match tab with
  | Some {| tab_id := Some n |} => if n =? 0 then None else Some n
  | _ => None
  end.

Section WithPlatform.
Variable P : Platform.
Variable matchURL : JsString -> JsString -> bool.

Definition handleFormSubmitted (data : SaveData) (tab : option Tab) : Js Runtime unit :=
  match truthy_tab tab with
  | None => ret tt
  | Some tabId =>
      key <- in_script (gets sessionKey) ;;
      if negb (truthy_string key) then ret tt
      else
        credentials <- in_script (getDecryptedCredentials P) ;;
        let existing :=
          find (fun c => matchURL (sc_url c) (data_url data)
                         && JsString_eqb (sc_username c) (data_username data))
               credentials in
        match existing with
        | Some c =>
            if negb (JsString_eqb (sc_password c) (data_password data))
            then note LogPasswordChanged
            else ret tt
        | None => note (ShowSavePrompt tabId data)
        end
  end.

(** A handler that is called and not awaited: what it throws is not
    caught, and nothing waits for it. *)
Definition detached {S A} (c : Js S A) : Js S unit :=
  fun s => (Ok tt, snd (c s)).

(** The listener of [chrome.runtime.onMessage]; its value tells whether the
    response comes later. *)
Definition onMessage (message : Message) (tab : option Tab) : Js Runtime bool :=
  note LogReceived ;;;
  match message with
  | SET_SESSION_KEY key =>
      (if truthy_string key then
         modify (set_keys key) ;;;
         note LogSessionKeySet ;;;
         note (Responded Success)
       else ret tt) ;;;
      ret false
  | REQUEST_CREDENTIALS url =>
      detached
        (matching <- in_script (handleRequestCredentials P matchURL url) ;;
         note (Responded (Credentials matching))) ;;;
      ret true
  | FORM_SUBMITTED data =>
      note (Responded Success) ;;;
      detached (handleFormSubmitted data tab) ;;;
      ret false
  | SAVE_CREDENTIAL data =>
      note (Responded Success) ;;;
      detached (in_script (handleSaveCredential P data)) ;;;
      ret false
  | Other =>
      note LogUnknownType ;;;
      ret false
  end.

(** What happens to the script during one run, from its start: a message
    arrives at some time (both listeners run), a pending timeout fires, or
    the read of the session storage issued at the start completes.  The
    session storage serves that read before any write of this run, so its
    result is what the storage held at the start.  The handler a message starts is taken
    to run to its end before the next event: events that arrive while it
    awaits the storage or the cipher are not interleaved with it. *)
Inductive Event : Type :=
| Deliver (now : Z) (message : Message) (tab : option Tab)
| Fire (h : nat)
| Restore.

(** The read has completed: the callback has run, or runs now. *)
Definition read_done (r : Runtime) : Runtime :=
  {| script := script r; stored_sessionKey := stored_sessionKey r;
     autoLockTimer := autoLockTimer r; timers := timers r;
     next_handle := next_handle r; restoring := None;
     journal := journal r |}.

(** The callback of the start-up read, with the result of the read. *)
Definition restore : Js Runtime unit :=
  pending <- gets restoring ;;
  match pending with
  | None => ret tt
  | Some result =>
      modify read_done ;;;
      if truthy_string result then
        modify (fun r => with_script (with_sessionKey result (script r)) r) ;;;
        note LogRestored
      else ret tt
  end.

Definition is_pending (h : nat) (r : Runtime) : bool :=
  existsb (fun t => Nat.eqb (fst t) h) (timers r).

Definition step (e : Event) (r : Runtime) : Runtime :=
  match e with
  | Deliver now message tab =>
      snd ((onMessage message tab ;;; resetAutoLockTimer now) r)
  | Fire h =>
      if is_pending h r then snd (autoLock (clearTimeout h r)) else r
  | Restore => snd (restore r)
  end.

Definition run (events : list Event) (r : Runtime) : Runtime :=
  fold_left (fun r e => step e r) events r.

End WithPlatform.

(** At most one timeout is pending, and it is the one [autoLockTimer]
    names. *)
Definition one_timer (r : Runtime) : Prop :=
  (1 <= next_handle r)%nat
  /\ match timers r with
     | [] => True
     | [(h, _)] => autoLockTimer r = Some h /\ (1 <= h)%nat
     | _ :: _ :: _ => False
     end.

(** A live session key is the one kept in the session storage. *)
Definition key_is_mirrored (r : Runtime) : Prop :=
  sessionKey (script r) = None \/ sessionKey (script r) = stored_sessionKey r.

(** The script as it starts: no session key, no timer, the read of the
    session storage under way. *)
Definition started (vault : StoredValue) (stored : option JsString) (a : Ambient)
  : Runtime :=
  {| script := {| sessionKey := None; vault_credentials := vault;
                  console := []; ambient := a |};
     stored_sessionKey := stored;
     autoLockTimer := None;
     timers := [];
     next_handle := 1;
     restoring := Some stored;
     journal := [] |}.

(** The script holds no usable session key, in its variable or in the
    session storage, and no start-up read is about to bring one. *)
Definition locked (r : Runtime) : bool :=
  negb (truthy_string (sessionKey (script r)))
  && negb (truthy_string (stored_sessionKey r))
  && match restoring r with
     | Some result => negb (truthy_string result)
     | None => true
     end.

(** The event is a [SET_SESSION_KEY] message whose key is not empty. *)
Definition sets_key (e : Event) : bool :=
  match e with
  | Deliver _ (SET_SESSION_KEY key) _ => truthy_string key
  | _ => false
  end.

(** The entry hands no credential to a page and prompts no tab. *)
Definition discloses_nothing (e : Entry) : bool :=
  match e with
  | Responded (Credentials (_ :: _)) => false
  | ShowSavePrompt _ _ => false
  | _ => true
  end.

Definition is_prompt (e : Entry) : bool :=
  match e with
  | ShowSavePrompt _ _ => true
  | _ => false
  end.

(** The value is the envelope that [handleSaveCredential] computes for
    [data] in the state [s]: the encryption, under the session key and the
    nonce drawn next, of the JSON text of the credentials the read returns
    followed by the new credential. *)
Definition sealed_by_save (P : Platform) (data : SaveData) (s : State)
    (v : StoredValue) : Prop :=
  exists (k : JsString) (key : CryptoKey P) (existing : list StoredCredential)
         (hostname : JsString),
    sessionKey s = Some k
    /\ k <> []
    /\ fst (Crypto.importKey P k (ambient s)) = Ok key
    /\ fst (getDecryptedCredentials P s) = Ok existing
    /\ URL_hostname P (data_url data) = Ok hostname
    /\ v = Envelope
             (Crypto.envelope P key (Crypto.next_nonce (ambient s))
                (JSON_stringify_credentials P
                   (existing ++ [saved_credential P data hostname (ambient s)]))).

(** The responses and the prompts among the entries. *)
Definition is_response (e : Entry) : bool :=
  match e with
  | Responded _ => true
  | ShowSavePrompt _ _ => true
  | _ => false
  end.

(** What a locked script answers to an event. *)
Definition locked_answer (e : Event) : list Entry :=
  match e with
  | Deliver _ (REQUEST_CREDENTIALS _) _ => [Responded (Credentials [])]
  | Deliver _ (FORM_SUBMITTED _) _ => [Responded Success]
  | Deliver _ (SAVE_CREDENTIAL _) _ => [Responded Success]
  | _ => []
  end.

(** The test of [credentials.find] in [handleFormSubmitted]. *)
Definition same_login (matchURL : JsString -> JsString -> bool) (data : SaveData)
    (c : StoredCredential) : bool :=
  matchURL (sc_url c) (data_url data)
  && JsString_eqb (sc_username c) (data_username data).

End Listener.

(** ** The mutations of the vault store, in statements *)

(** What [updateCredential] makes of a credential [c]: with the id, its
    merge with the updates, stamped with a reading of the clock not before
    the call; otherwise [c] itself. *)
Definition updated (target : JsString) (updates : VaultStore.Updates) (a : Ambient)
    (c c' : VaultStore.Credential) : Prop :=
  if JsString_eqb (VaultStore.id c) target
  then exists n, (clock_pos a <= n)%nat /\ c' = VaultStore.merge c updates (clock a n)
  else c' = c.

(** ** The search of [src/pages/vault/VaultHome.tsx] *)

Module VaultHome.
Import VaultStore.

(** [s.includes(t)] *)
Fixpoint includes (s t : JsString) : bool :=
  starts_with t s
  || match s with
     | [] => false
     | _ :: s' => includes s' t
     end.

Section WithPlatform.
(** [String.prototype.toLowerCase] *)
Variable toLowerCase : JsString -> JsString.

Definition filteredCredentials (credentials : list Credential) (search : JsString)
  : list Credential :=
  filter (fun c =>
            includes (toLowerCase (name c)) (toLowerCase search)
            || includes (toLowerCase (username c)) (toLowerCase search)
            || includes (toLowerCase (url c)) (toLowerCase search))
         credentials.

End WithPlatform.

(** The string [t] occurs in [s]. *)
Definition occurs_in (t s : JsString) : Prop := exists a b, s = a ++ t ++ b.

End VaultHome.

(** ** An executable platform with a reader for what it writes

    The platform of [Demo] with a writer and a reader of credential lists
    that stand in for [JSON.stringify] and [JSON.parse]: the fields of each
    credential in order, each closed by U+0000.  It is used where a
    statement about stored credentials is evaluated on concrete data. *)

Module Sample.

Definition notes_field (n : option JsString) : JsString :=
  match n with
  | None => [1]
  | Some s => 2 :: s
  end.

Definition stringify_credentials (l : list StoredCredential) : JsString :=
  flat_map (fun c =>
              sc_id c ++ [0] ++ sc_name c ++ [0] ++ sc_url c ++ [0]
              ++ sc_username c ++ [0] ++ sc_password c ++ [0]
              ++ notes_field (sc_notes c) ++ [0] ++ sc_createdAt c ++ [0]) l.

(** The fields of a string, in order; [acc] holds the field being read,
    last unit first. *)
Fixpoint fields (s acc : JsString) : Result (list JsString) :=
  match s with
  | [] => match acc with
          | [] => Ok []
          | _ :: _ => Throw SyntaxError
          end
  | c :: s' =>
      if c =? 0 then
        match fields s' [] with
        | Ok fs => Ok (rev acc :: fs)
        | Throw e => Throw e
        end
      else fields s' (c :: acc)
  end.

Definition notes_of (f : JsString) : Result (option JsString) :=
  match f with
  | [1] => Ok None
  | 2 :: s => Ok (Some s)
  | _ => Throw SyntaxError
  end.

Fixpoint credentials_of (fs : list JsString) : Result (list StoredCredential) :=
  match fs with
  | [] => Ok []
  | i :: n :: u :: un :: p :: nt :: ca :: rest =>
      match notes_of nt, credentials_of rest with
      | Ok notes, Ok l =>
          Ok ({| sc_id := i; sc_name := n; sc_url := u; sc_username := un;
                 sc_password := p; sc_notes := notes; sc_createdAt := ca |} :: l)
      | Throw e, _ => Throw e
      | _, Throw e => Throw e
      end
  | _ => Throw SyntaxError
  end.

Definition parse_credentials (s : JsString) : Result (list StoredCredential) :=
  match fields s [] with
  | Ok fs => credentials_of fs
  | Throw e => Throw e
  end.

Definition platform : Platform :=
  {| Jwk := Jwk Demo.platform;
     CryptoKey := CryptoKey Demo.platform;
     JSON_parse_jwk := JSON_parse_jwk Demo.platform;
     JSON_stringify_jwk := JSON_stringify_jwk Demo.platform;
     subtle_importKey_jwk := subtle_importKey_jwk Demo.platform;
     subtle_exportKey_jwk := subtle_exportKey_jwk Demo.platform;
     subtle_deriveKey_pbkdf2 := subtle_deriveKey_pbkdf2 Demo.platform;
     subtle_encrypt_aes_gcm := subtle_encrypt_aes_gcm Demo.platform;
     subtle_decrypt_aes_gcm := subtle_decrypt_aes_gcm Demo.platform;
     JSON_stringify_credentials := stringify_credentials;
     JSON_parse_credentials := parse_credentials;
     URL_hostname := URL_hostname Demo.platform;
     Date_toISOString := Date_toISOString Demo.platform |}.

(** A writer for the credentials of the store, in the same layout. *)
Definition stringify_store (l : list VaultStore.Credential) : JsString :=
  flat_map (fun c =>
              VaultStore.id c ++ [0] ++ VaultStore.name c ++ [0]
              ++ VaultStore.url c ++ [0] ++ VaultStore.username c ++ [0]
              ++ VaultStore.password c ++ [0]
              ++ notes_field (VaultStore.notes c) ++ [0]) l.

(** The storage service before its first write. *)
Definition disk : Storage.Disk :=
  {| Storage.disk_ambient := Demo.counting; Storage.stored := None |}.

(** A stand-in for [matchURL] of [utils/urlMatcher]: the two URLs have the
    same host name. *)
Definition matchURL (stored page : JsString) : bool :=
  match Demo.hostname stored, Demo.hostname page with
  | Ok a, Ok b => JsString_eqb a b
  | _, _ => false
  end.

(** A credential as an earlier version stored it. *)
Definition legacy : StoredCredential :=
  {| sc_id := js "1"; sc_name := js "github.com";
     sc_url := js "https://github.com/login"; sc_username := js "u";
     sc_password := js "p"; sc_notes := None; sc_createdAt := js "2023" |}.

(** The letter a, 65536 times. *)
Definition long_text : JsString := repeat 97 (Z.to_nat 65536).

(** An unlocked background script with an empty storage, and the script
    after it has saved a first login. *)
Definition unlocked : Background.State :=
  Demo.background (Some (js "key")) Background.NoValue.

Definition after_first_save : Background.State :=
  snd (Background.handleSaveCredential platform Demo.login unlocked).

(** A store that holds one credential, added by [addCredential]. *)
Definition github : VaultStore.NewCredential :=
  {| VaultStore.new_name := js "github";
     VaultStore.new_url := js "https://github.com";
     VaultStore.new_username := js "u";
     VaultStore.new_password := js "p";
     VaultStore.new_notes := None |}.

Definition empty_store : VaultStore.World :=
  {| VaultStore.state :=
       {| VaultStore.isLocked := false;
          VaultStore.credentials := [];
          VaultStore.syncStatus := VaultStore.synced;
          VaultStore.lastSynced := None |};
     VaultStore.encryptionKey := Some (js "key");
     VaultStore.trace := [];
     VaultStore.ambient := Demo.counting |}.

Definition store : VaultStore.World :=
  snd (VaultStore.addCredential Demo.save_ok github empty_store).

Definition second_login : Background.SaveData :=
  {| Background.data_url := js "https://gitlab.com/users/sign_in";
     Background.data_username := js "v";
     Background.data_password := js "q" |}.

(** A tab with the id 7. *)
Definition tab : option Listener.Tab := Some {| Listener.tab_id := Some 7 |}.

(** The background script as it starts, with an empty storage. *)
Definition fresh : Listener.Runtime :=
  Listener.started Background.NoValue None Demo.counting.

End Sample.

(* ================================================================== *)
(** * Part II: lemmas and theorems                                     *)
(* ================================================================== *)

(** Case analysis on the integer comparisons of a goal; branches whose
    hypotheses are contradictory are closed on the way. *)
Ltac no_if t :=
  lazymatch t with
  | context [if _ then _ else _] => fail
  | _ => idtac
  end.

Ltac zcases :=
  repeat (match goal with
          | |- context [Z.leb ?a ?b] => no_if a; no_if b; destruct (Z.leb_spec a b)
          | |- context [Z.ltb ?a ?b] => no_if a; no_if b; destruct (Z.ltb_spec a b)
          | |- context [Z.eqb ?a ?b] => no_if a; no_if b; destruct (Z.eqb_spec a b)
          end; try lia; cbn [andb orb negb]).

(** ** Bytes *)

Lemma b2z_range (b : byte) : 0 <= b2z b <= 255.
Proof.
  unfold b2z. pose proof (Byte.to_N_bounded b). lia.
Qed.

Lemma z2b_b2z (b : byte) : z2b (b2z b) = b.
Proof.
  unfold z2b. pose proof (b2z_range b) as Hr.
  rewrite Z.mod_small by lia.
  unfold b2z. rewrite N2Z.id, Byte.of_to_N. reflexivity.
Qed.

Lemma b2z_z2b (z : Z) : 0 <= z <= 255 -> b2z (z2b z) = z.
Proof.
  intros Hz. unfold z2b. rewrite Z.mod_small by lia.
  destruct (Byte.of_N (Z.to_N z)) as [b|] eqn:E.
  - apply Byte.to_of_N in E. unfold b2z. rewrite E. lia.
  - apply Byte.of_N_None_iff in E. lia.
Qed.

Lemma map_z2b_b2z (bs : bytes) : map z2b (map b2z bs) = bs.
Proof.
  induction bs as [|b bs IH]; simpl; [reflexivity|].
  now rewrite z2b_b2z, IH.
Qed.

Lemma map_b2z_z2b (l : list Z) :
  Forall (fun a => 0 <= a <= 255) l -> map b2z (map z2b l) = l.
Proof.
  induction 1 as [|z l Hz _ IH]; cbn [map]; [reflexivity|].
  now rewrite b2z_z2b, IH.
Qed.

Lemma b2z_inj (a b : byte) : b2z a = b2z b -> a = b.
Proof.
  intros H. rewrite <- (z2b_b2z a), <- (z2b_b2z b). now rewrite H.
Qed.

(** ** Base64 *)

(** Linear arithmetic with division and remainder by constants. *)
Ltac Zify.zify_post_hook ::= Z.to_euclidean_division_equations.

Module Base64Facts.
Import Base64.

(** Lists taken three elements at a time. *)
Lemma list_ind3 (A : Type) (P : list A -> Prop) :
  P [] -> (forall a, P [a]) -> (forall a b, P [a; b]) ->
  (forall a b c l, P l -> P (a :: b :: c :: l)) ->
  forall l, P l.
Proof.
  intros H0 H1 H2 H3.
  fix IH 1. intros [|a [|b [|c l]]];
    [apply H0 | apply H1 | apply H2 | apply H3, IH].
Qed.

Lemma sextet_of_char_of_sextet (n : Z) :
  0 <= n < 64 -> sextet_of_char (char_of_sextet n) = Some n.
Proof.
  intros Hn. unfold char_of_sextet, sextet_of_char. zcases; f_equal; lia.
Qed.

Lemma char_of_sextet_not_ws (n : Z) :
  0 <= n < 64 -> is_ascii_whitespace (char_of_sextet n) = false.
Proof.
  intros Hn. unfold char_of_sextet, is_ascii_whitespace. zcases; reflexivity.
Qed.

Lemma char_of_sextet_not_pad (n : Z) :
  0 <= n < 64 -> (char_of_sextet n =? pad) = false.
Proof.
  intros Hn. unfold char_of_sextet, pad. zcases; reflexivity.
Qed.

Lemma groups_range l : octets l -> Forall (fun n => 0 <= n < 64) (groups l).
Proof.
  induction l as [|a|a b|a b c l IH] using list_ind3; intros Ho; cbn [groups].
  - constructor.
  - inversion_clear Ho. repeat constructor; lia.
  - inversion_clear Ho as [|? ? Ha Ho']. inversion_clear Ho'.
    repeat constructor; lia.
  - inversion_clear Ho as [|? ? Ha Ho']. inversion_clear Ho' as [|? ? Hb Ho''].
    inversion_clear Ho'' as [|? ? Hc Ho3].
    repeat (constructor; [lia|]). auto.
Qed.

Lemma decode_groups l : octets l -> decode (groups l) = l.
Proof.
  induction l as [|a|a b|a b c l IH] using list_ind3; intros Ho; cbn [groups decode].
  - reflexivity.
  - inversion_clear Ho. f_equal. lia.
  - inversion_clear Ho as [|? ? Ha Ho']. inversion_clear Ho'.
    f_equal; [lia|f_equal; lia].
  - inversion_clear Ho as [|? ? Ha Ho']. inversion_clear Ho' as [|? ? Hb Ho''].
    inversion_clear Ho'' as [|? ? Hc Ho3].
    rewrite IH by assumption.
    f_equal; [lia|f_equal; [lia|f_equal; lia]].
Qed.

Lemma encode_groups l : encode l = map char_of_sextet (groups l) ++ pads l.
Proof.
  induction l as [|a|a b|a b c l IH] using list_ind3; cbn [encode groups pads map app];
    try reflexivity.
  now rewrite IH.
Qed.

Lemma pads_cases l : pads l = [] \/ pads l = [pad] \/ pads l = [pad; pad].
Proof.
  induction l as [|a|a b|a b c l IH] using list_ind3; cbn [pads]; auto.
Qed.

Lemma mod4_step (n : nat) : Nat.modulo (S (S (S (S n)))) 4 = Nat.modulo n 4.
Proof.
  change (S (S (S (S n)))) with (4 + n)%nat.
  rewrite Nat.add_comm. apply (Nat.Div0.mod_add n 1 4).
Qed.

Lemma length_encode l : Nat.modulo (length (encode l)) 4 = 0%nat.
Proof.
  induction l as [|a|a b|a b c l IH] using list_ind3; cbn [encode length];
    try reflexivity.
  now rewrite mod4_step.
Qed.

Lemma length_groups l : Nat.modulo (length (groups l)) 4 <> 1%nat.
Proof.
  induction l as [|a|a b|a b c l IH] using list_ind3; cbn [groups length];
    try (cbn; lia).
  now rewrite mod4_step.
Qed.

Lemma sextets_chars ns :
  Forall (fun n => 0 <= n < 64) ns -> sextets (map char_of_sextet ns) = Some ns.
Proof.
  induction 1 as [|n ns Hn _ IH]; cbn [map sextets]; [reflexivity|].
  now rewrite sextet_of_char_of_sextet, IH.
Qed.

Lemma filter_chars ns p :
  Forall (fun n => 0 <= n < 64) ns -> p = [] \/ p = [pad] \/ p = [pad; pad] ->
  filter (fun c => negb (is_ascii_whitespace c)) (map char_of_sextet ns ++ p)
  = map char_of_sextet ns ++ p.
Proof.
  intros Hns Hp. induction Hns as [|n ns Hn _ IH]; cbn [map app filter].
  - destruct Hp as [->|[->| ->]]; reflexivity.
  - now rewrite char_of_sextet_not_ws, IH.
Qed.

Lemma strip_chars ns p :
  Forall (fun n => 0 <= n < 64) ns -> p = [] \/ p = [pad] \/ p = [pad; pad] ->
  strip_padding (map char_of_sextet ns ++ p) = map char_of_sextet ns.
Proof.
  intros Hns Hp. induction Hns as [|n ns Hn _ IH]; cbn [map app].
  - destruct Hp as [->|[->| ->]]; reflexivity.
  - cbn [strip_padding]. rewrite IH.
    assert (E : is_padding (char_of_sextet n :: map char_of_sextet ns ++ p) = false).
    { unfold is_padding. rewrite (char_of_sextet_not_pad n Hn).
      destruct (map char_of_sextet ns ++ p) as [|? [|? ?]]; reflexivity. }
    now rewrite E.
Qed.

Lemma forallb_octets l :
  forallb (fun u => (0 <=? u) && (u <=? 255)) l = true <-> octets l.
Proof.
  unfold octets. rewrite forallb_forall, Forall_forall.
  split; intros H x Hx; specialize (H x Hx); lia.
Qed.

(** [atob] undoes [btoa] on every binary string. *)
Lemma atob_btoa (l : list Z) :
  octets l -> bindR (btoa l) atob = Ok l.
Proof.
  intros Ho. unfold btoa.
  rewrite (proj2 (forallb_octets l) Ho). cbn [bindR].
  unfold atob. rewrite encode_groups.
  rewrite (filter_chars _ _ (groups_range l Ho) (pads_cases l)).
  rewrite <- encode_groups, length_encode. cbn [Nat.eqb].
  rewrite encode_groups, (strip_chars _ _ (groups_range l Ho) (pads_cases l)).
  rewrite length_map.
  destruct (Nat.eqb_spec (Nat.modulo (length (groups l)) 4) 1) as [E|_].
  - now apply length_groups in E.
  - rewrite (sextets_chars _ (groups_range l Ho)), decode_groups; auto.
Qed.

Lemma list_ind4 (A : Type) (P : list A -> Prop) :
  P [] -> (forall a, P [a]) -> (forall a b, P [a; b]) -> (forall a b c, P [a; b; c]) ->
  (forall a b c d l, P l -> P (a :: b :: c :: d :: l)) ->
  forall l, P l.
Proof.
  intros H0 H1 H2 H3 H4.
  fix IH 1. intros [|a [|b [|c [|d l]]]];
    [apply H0 | apply H1 | apply H2 | apply H3 | apply H4, IH].
Qed.

Lemma sextet_of_char_range (c n : Z) : sextet_of_char c = Some n -> 0 <= n < 64.
Proof.
  unfold sextet_of_char. intros H.
  repeat match type of H with
         | (if ?b then _ else _) = _ => destruct b eqn:?
         end; try discriminate; injection H as <-; lia.
Qed.

Lemma sextets_range (d ns : list Z) :
  sextets d = Some ns -> Forall (fun n => 0 <= n < 64) ns.
Proof.
  revert ns. induction d as [|c d IH]; intros ns H; cbn [sextets] in H.
  - injection H as <-. constructor.
  - destruct (sextet_of_char c) as [n|] eqn:Ec; [|discriminate].
    destruct (sextets d) as [ns'|]; [|discriminate].
    injection H as <-. constructor; [exact (sextet_of_char_range _ _ Ec)|now apply IH].
Qed.

Lemma decode_octets (l : list Z) :
  Forall (fun n => 0 <= n < 64) l -> octets (decode l).
Proof.
  unfold octets.
  induction l as [|a|a b|a b c|a b c d l IH] using list_ind4; intros H; cbn [decode].
  - constructor.
  - constructor.
  - inversion_clear H as [|? ? Ha H']. inversion_clear H' as [|? ? Hb _].
    repeat constructor; lia.
  - inversion_clear H as [|? ? Ha H']. inversion_clear H' as [|? ? Hb H''].
    inversion_clear H'' as [|? ? Hc _].
    repeat constructor; lia.
  - inversion_clear H as [|? ? Ha H']. inversion_clear H' as [|? ? Hb H''].
    inversion_clear H'' as [|? ? Hc H3]. inversion_clear H3 as [|? ? Hd H4].
    repeat (constructor; [lia|]). auto.
Qed.

Lemma atob_octets (s b : JsString) : atob s = Ok b -> octets b.
Proof.
  unfold atob. intros H.
  destruct (_ =? 1)%nat; [discriminate|].
  destruct (sextets _) as [ns|] eqn:E; [|discriminate].
  injection H as <-. apply decode_octets. exact (sextets_range _ _ E).
Qed.
End Base64Facts.

(** ** UTF-8 *)

Module Utf8Facts.
Import Utf8.

Lemma run_cons st b r :
  run st (b :: r) = fst (step st b) ++ run (snd (step st b)) r.
Proof. cbn [run]. now destruct (step st b). Qed.

Lemma step_initial b : step initial b = lead b.
Proof. reflexivity. Qed.

(** A continuation byte inside the expected range. *)
Lemma step_continue st b :
  bytes_needed st <> 0 -> lower_boundary st <= b <= upper_boundary st ->
  step st b =
    if bytes_seen st + 1 =? bytes_needed st
    then ([code_point st * 64 + b mod 64], initial)
    else ([], {| code_point := code_point st * 64 + b mod 64;
                 bytes_seen := bytes_seen st + 1;
                 bytes_needed := bytes_needed st;
                 lower_boundary := 0x80; upper_boundary := 0xBF |}).
Proof.
  intros Hn Hb. unfold step.
  destruct (Z.eqb_spec (bytes_needed st) 0); [contradiction|].
  destruct (Z.leb_spec (lower_boundary st) b); [|lia].
  destruct (Z.leb_spec b (upper_boundary st)); [|lia].
  reflexivity.
Qed.

Ltac decoder_fields :=
  cbn [code_point bytes_seen bytes_needed lower_boundary upper_boundary fst snd app].

Ltac continue_byte :=
  rewrite run_cons, step_continue;
  [ decoder_fields; zcases; decoder_fields
  | decoder_fields; lia
  | decoder_fields; zcases; lia ].

Lemma run_encode_scalar (cp : Z) (rest : list Z) :
  is_scalar cp ->
  run initial (map b2z (encode_scalar cp) ++ rest) = cp :: run initial rest.
Proof.
  intros [Hr Hs]. unfold encode_scalar. zcases; cbn [map app];
    rewrite !b2z_z2b by lia; rewrite run_cons, step_initial; unfold lead; zcases;
    cbn [fst snd app].
  all: repeat continue_byte.
  all: first [reflexivity | f_equal; lia].
Qed.

Lemma run_encode (cps : list Z) :
  Forall is_scalar cps ->
  run initial (map b2z (flat_map encode_scalar cps)) = cps.
Proof.
  induction 1 as [|cp cps Hcp _ IH]; cbn [flat_map]; [reflexivity|].
  now rewrite map_app, run_encode_scalar, IH.
Qed.

(** Induction over a list read one or two elements at a time. *)
Lemma list_ind2 (A : Type) (P : list A -> Prop) :
  P [] -> (forall a, P [a]) ->
  (forall a b l, P l -> P (b :: l) -> P (a :: b :: l)) ->
  forall l, P l.
Proof.
  intros H0 H1 H2 l.
  enough (H : P l /\ forall a, P (a :: l)) by apply H.
  induction l as [|b l [IH1 IH2]]; split; auto.
Qed.

Lemma well_formed_cons u rest :
  well_formed (u :: rest) =
    if is_high u then
      match rest with
      | v :: rest' => is_low v && well_formed rest'
      | [] => false
      end
    else is_code_unit u && negb (is_low u) && well_formed rest.
Proof. reflexivity. Qed.

Lemma scalar_values_cons u rest :
  scalar_values (u :: rest) =
    if is_high u then
      match rest with
      | v :: rest' =>
          if is_low v
          then (0x10000 + (u - 0xD800) * 0x400 + (v - 0xDC00)) :: scalar_values rest'
          else replacement :: scalar_values rest
      | [] => [replacement]
      end
    else if is_low u then replacement :: scalar_values rest
    else u :: scalar_values rest.
Proof. reflexivity. Qed.

Lemma utf16_of_bmp u :
  is_code_unit u = true -> utf16_of_scalar u = [u].
Proof. unfold is_code_unit, utf16_of_scalar. zcases. reflexivity. Qed.

Lemma utf16_of_pair u v :
  is_high u = true -> is_low v = true ->
  utf16_of_scalar (0x10000 + (u - 0xD800) * 0x400 + (v - 0xDC00)) = [u; v].
Proof.
  unfold is_high, is_low, utf16_of_scalar. zcases; try discriminate.
  intros _ _. f_equal; [lia|f_equal; lia].
Qed.

Lemma is_scalar_bmp u :
  is_code_unit u = true -> is_high u = false -> is_low u = false -> is_scalar u.
Proof.
  unfold is_code_unit, is_high, is_low, is_scalar. zcases; try discriminate; lia.
Qed.

Lemma is_scalar_pair u v :
  is_high u = true -> is_low v = true ->
  is_scalar (0x10000 + (u - 0xD800) * 0x400 + (v - 0xDC00)).
Proof.
  unfold is_high, is_low, is_scalar. zcases; try discriminate; lia.
Qed.

Lemma well_formed_scalar_values (s : JsString) :
  well_formed s = true ->
  Forall is_scalar (scalar_values s) /\
  flat_map utf16_of_scalar (scalar_values s) = s.
Proof.
  induction s as [|u|u v s IH1 IH2] using list_ind2.
  - split; [constructor|reflexivity].
  - rewrite well_formed_cons, scalar_values_cons.
    destruct (is_high u) eqn:Hu; [discriminate|].
    destruct (is_low u) eqn:Hl; rewrite ?andb_false_r; [discriminate|].
    rewrite andb_true_r. cbn [negb andb]. rewrite andb_true_r. intros Hc. split.
    + constructor; [now apply is_scalar_bmp|constructor].
    + cbn [flat_map]. now rewrite utf16_of_bmp.
  - rewrite (well_formed_cons u), (scalar_values_cons u).
    destruct (is_high u) eqn:Hu.
    + destruct (is_low v) eqn:Hv; [|discriminate]. cbn [andb]. intros Hwf.
      destruct (IH1 Hwf) as [Hs He]. split.
      * constructor; [now apply is_scalar_pair|assumption].
      * cbn [flat_map]. now rewrite utf16_of_pair, He.
    + destruct (is_low u) eqn:Hl; rewrite ?andb_false_r; [discriminate|].
      cbn [negb]. rewrite andb_true_r. intros Hwf.
      apply andb_true_iff in Hwf as [Hc Hwf].
      destruct (IH2 Hwf) as [Hs He]. split.
      * constructor; [now apply is_scalar_bmp|assumption].
      * cbn [flat_map]. now rewrite utf16_of_bmp, He.
Qed.

Lemma strip_bom_scalar_values (s : JsString) :
  no_bom s = true -> strip_bom (scalar_values s) = scalar_values s.
Proof.
  destruct s as [|u rest]; [reflexivity|].
  cbn [no_bom]. intros Hb. rewrite scalar_values_cons.
  unfold is_high, is_low.
  destruct (Z.eqb_spec u 0xFEFF); [discriminate|].
  destruct rest as [|v rest']; zcases; cbn [strip_bom]; unfold replacement;
    zcases; reflexivity.
Qed.

(** Decoding what the encoder wrote gives the string back, for every
    well-formed string that does not begin with U+FEFF. *)
Lemma TextDecoder_TextEncoder (s : JsString) :
  well_formed s = true -> no_bom s = true ->
  TextDecoder_decode (TextEncoder_encode s) = s.
Proof.
  intros Hwf Hb. unfold TextDecoder_decode, TextEncoder_encode.
  destruct (well_formed_scalar_values s Hwf) as [Hs He].
  now rewrite (run_encode _ Hs), strip_bom_scalar_values.
Qed.

End Utf8Facts.

(** ** Computations *)

Lemma bind_ok {S A B} (c : Js S A) (k : A -> Js S B) (s s' : S) (a : A) :
  c s = (Ok a, s') -> bind c k s = k a s'.
Proof. intros H. unfold bind. now rewrite H. Qed.

Lemma bind_throw {S A B} (c : Js S A) (k : A -> Js S B) (s s' : S) (e : JsError) :
  c s = (Throw e, s') -> bind c k s = (Throw e, s').
Proof. intros H. unfold bind. now rewrite H. Qed.

(** ** [crypto.ts] *)

Lemma String_fromCharCode_bytes (l : bytes) :
  String_fromCharCode (map b2z l) = map b2z l.
Proof.
  unfold String_fromCharCode. rewrite map_map. apply map_ext.
  intros b. pose proof (b2z_range b). apply Z.mod_small. lia.
Qed.

Lemma octets_bytes (l : bytes) : Base64.octets (map b2z l).
Proof.
  unfold Base64.octets. apply Forall_forall. intros z Hz.
  apply in_map_iff in Hz as [b [<- _]]. apply b2z_range.
Qed.

Lemma btoa_bytes (l : bytes) :
  Base64.btoa (String_fromCharCode (map b2z l)) = Ok (Base64.encode (map b2z l)).
Proof.
  rewrite String_fromCharCode_bytes. unfold Base64.btoa.
  now rewrite (proj2 (Base64Facts.forallb_octets _) (octets_bytes l)).
Qed.

Lemma atob_encode_bytes (l : bytes) :
  Base64.atob (Base64.encode (map b2z l)) = Ok (map b2z l).
Proof.
  pose proof (Base64Facts.atob_btoa _ (octets_bytes l)) as H.
  unfold Base64.btoa in H.
  now rewrite (proj2 (Base64Facts.forallb_octets _) (octets_bytes l)) in H.
Qed.


Section CryptoFacts.
Variable P : Platform.

(** [importKey] reads nothing from the environment. *)
Lemma importKey_run (keyString : JsString) (a : Ambient) :
  Crypto.importKey P keyString a
  = (bindR (JSON_parse_jwk P keyString) (subtle_importKey_jwk P), a).
Proof.
  unfold Crypto.importKey, bind, liftR.
  destruct (JSON_parse_jwk P keyString); reflexivity.
Qed.

(** [encryptVaultData], step by step: the key is imported first, then the
    nonce is drawn, and the spread of the bytes into [String.fromCharCode]
    throws when they are too many. *)
Lemma encryptVaultData_run (data keyString : JsString) (a : Ambient) :
  Crypto.encryptVaultData P data keyString a =
    match bindR (JSON_parse_jwk P keyString) (subtle_importKey_jwk P) with
    | Ok key =>
        if Z.of_nat (length (Crypto.next_nonce a
                             ++ subtle_encrypt_aes_gcm P key (Crypto.next_nonce a)
                                  (Utf8.TextEncoder_encode data)))
           <=? max_arguments a
        then (Ok (Crypto.envelope P key (Crypto.next_nonce a) data), Crypto.after_nonce a)
        else (Throw RangeError, Crypto.after_nonce a)
    | Throw e => (Throw e, a)
    end.
Proof.
  unfold Crypto.encryptVaultData, bind. rewrite importKey_run.
  destruct (bindR _ _) as [key|e]; [|reflexivity].
  unfold getRandomValues, spread, liftR. cbn [fst snd max_arguments].
  rewrite length_map. fold (Crypto.next_nonce a).
  destruct (_ <=? _); [|reflexivity].
  rewrite btoa_bytes. reflexivity.
Qed.

Lemma encryptVaultData_fits (data keyString : JsString) (key : CryptoKey P) (a : Ambient) :
  bindR (JSON_parse_jwk P keyString) (subtle_importKey_jwk P) = Ok key ->
  Crypto.fits P key data a ->
  Crypto.encryptVaultData P data keyString a
  = (Ok (Crypto.envelope P key (Crypto.next_nonce a) data), Crypto.after_nonce a).
Proof.
  intros Hkey Hfits. rewrite encryptVaultData_run, Hkey.
  unfold Crypto.fits in Hfits. apply Z.leb_le in Hfits. now rewrite Hfits.
Qed.

Lemma encryptVaultData_too_long (data keyString : JsString) (key : CryptoKey P)
    (a : Ambient) :
  bindR (JSON_parse_jwk P keyString) (subtle_importKey_jwk P) = Ok key ->
  ~ Crypto.fits P key data a ->
  Crypto.encryptVaultData P data keyString a = (Throw RangeError, Crypto.after_nonce a).
Proof.
  intros Hkey Hfits. rewrite encryptVaultData_run, Hkey.
  unfold Crypto.fits in Hfits.
  destruct (Z.leb_spec (Z.of_nat (length (Crypto.next_nonce a
                             ++ subtle_encrypt_aes_gcm P key (Crypto.next_nonce a)
                                  (Utf8.TextEncoder_encode data)))) (max_arguments a));
    [contradiction|reflexivity].
Qed.

Lemma next_nonce_length (a : Ambient) : length (Crypto.next_nonce a) = 12%nat.
Proof. unfold Crypto.next_nonce. now rewrite length_map, length_seq. Qed.

Lemma decryptVaultData_envelope (key : CryptoKey P) (iv : bytes) (data keyString : JsString)
    (a : Ambient) :
  aes_gcm_correct P ->
  bindR (JSON_parse_jwk P keyString) (subtle_importKey_jwk P) = Ok key ->
  length iv = 12%nat ->
  Crypto.decryptVaultData P (Crypto.envelope P key iv data) keyString a
  = (Ok (Utf8.TextDecoder_decode (Utf8.TextEncoder_encode data)), a).
Proof.
  intros Haes Hkey Hiv. unfold Crypto.decryptVaultData, bind.
  rewrite importKey_run, Hkey. unfold liftR, Crypto.envelope.
  rewrite atob_encode_bytes. unfold Uint8Array_from_charCodes.
  rewrite map_z2b_b2z.
  rewrite firstn_app, skipn_app, Hiv, Nat.sub_diag.
  rewrite (firstn_all2 iv), (skipn_all2 iv) by (rewrite Hiv; apply Nat.le_refl).
  cbn [firstn skipn app]. rewrite app_nil_r, Haes. reflexivity.
Qed.

(** What the round trip returns, for every string: the plaintext as
    [TextDecoder] reads what [TextEncoder] wrote. *)
Lemma roundtrip_run (data keyString : JsString) (key : CryptoKey P) (a : Ambient) :
  aes_gcm_correct P ->
  fst (Crypto.importKey P keyString a) = Ok key ->
  Crypto.fits P key data a ->
  Crypto.roundtrip P data keyString a
  = (Ok (Utf8.TextDecoder_decode (Utf8.TextEncoder_encode data)), Crypto.after_nonce a).
Proof.
  intros Haes Hkey Hfits. rewrite importKey_run in Hkey. cbn [fst] in Hkey.
  unfold Crypto.roundtrip, bind. rewrite (encryptVaultData_fits _ _ key _ Hkey Hfits).
  now rewrite (decryptVaultData_envelope key _ data keyString _ Haes Hkey
                 (next_nonce_length a)).
Qed.

(** C1, as amended.  For every plaintext string with no unpaired surrogate
    that does not begin with U+FEFF, and every key string that [importKey]
    accepts, decrypting what [encryptVaultData] returned under the same key
    string returns the plaintext, provided the bytes of the envelope are no
    more than the engine takes as the arguments of one call and the
    platform's AES-GCM decrypts what it encrypted. *)
Theorem decrypt_encrypt_roundtrip (data keyString : JsString) (key : CryptoKey P)
    (a : Ambient) :
  aes_gcm_correct P ->
  fst (Crypto.importKey P keyString a) = Ok key ->
  Crypto.fits P key data a ->
  Utf8.well_formed data = true ->
  Utf8.no_bom data = true ->
  Crypto.roundtrip P data keyString a = (Ok data, Crypto.after_nonce a).
Proof.
  intros Haes Hkey Hfits Hwf Hbom.
  rewrite (roundtrip_run data keyString key a Haes Hkey Hfits).
  now rewrite Utf8Facts.TextDecoder_TextEncoder.
Qed.


Lemma fits_after_nonce (key : CryptoKey P) (data : JsString) (a : Ambient) :
  max_arguments (Crypto.after_nonce a) = max_arguments a.
Proof. reflexivity. Qed.


(** [deriveMasterKey] reads nothing from the environment. *)
Lemma deriveMasterKey_run (password salt : JsString) (a : Ambient) :
  Crypto.deriveMasterKey P password salt a =
    (bindR (Base64.atob salt)
       (fun s => Ok (Crypto.key_material P password (Uint8Array_from_charCodes s))), a).
Proof.
  unfold Crypto.deriveMasterKey, bind, liftR, ret.
  destruct (Base64.atob salt); reflexivity.
Qed.

(** C7, as amended.  Key derivation is deterministic: its result depends on
    the password and the salt only and the environment is left as it was.
    The salt is used through its base64 decoding: salts with the same
    decoding give the same key material, and, PBKDF2 and the export of the
    key being free of collisions on the salts in use, two such salts with
    different decodings give different key material. *)
Theorem deriveMasterKey_deterministic (salts : bytes -> Prop)
    (password salt1 salt2 : JsString) (s1 s2 : JsString) (a1 a2 : Ambient) :
  Crypto.collision_free P salts ->
  Base64.atob salt1 = Ok s1 ->
  Base64.atob salt2 = Ok s2 ->
  salts (Uint8Array_from_charCodes s1) ->
  salts (Uint8Array_from_charCodes s2) ->
  fst (Crypto.deriveMasterKey P password salt1 a1)
    = fst (Crypto.deriveMasterKey P password salt1 a2)
  /\ snd (Crypto.deriveMasterKey P password salt1 a1) = a1
  /\ (s1 = s2 ->
      fst (Crypto.deriveMasterKey P password salt1 a1)
        = fst (Crypto.deriveMasterKey P password salt2 a2))
  /\ (s1 <> s2 ->
      fst (Crypto.deriveMasterKey P password salt1 a1)
        <> fst (Crypto.deriveMasterKey P password salt2 a2)).
Proof.
  intros Hfree H1 H2 Hin1 Hin2. rewrite !deriveMasterKey_run, H1, H2.
  cbn [fst snd bindR]. repeat split.
  - intros ->. reflexivity.
  - intros Hne Heq. apply Hne. injection Heq as Heq.
    apply (Hfree _ _ _ Hin1 Hin2) in Heq.
    unfold Uint8Array_from_charCodes in Heq.
    apply (f_equal (map b2z)) in Heq.
    rewrite (map_b2z_z2b s1 (Base64Facts.atob_octets _ _ H1)) in Heq.
    rewrite (map_b2z_z2b s2 (Base64Facts.atob_octets _ _ H2)) in Heq. exact Heq.
Qed.

End CryptoFacts.

(** ** The background script *)

Section BackgroundFacts.
Variable P : Platform.
Variable matchURL : JsString -> JsString -> bool.

Import Background.

(** [decryptVaultData] reads nothing from the environment. *)
Lemma decryptVaultData_ambient (e k : JsString) (a : Ambient) :
  snd (Crypto.decryptVaultData P e k a) = a.
Proof.
  unfold Crypto.decryptVaultData, bind. rewrite importKey_run.
  destruct (bindR _ _) as [key|err]; [|reflexivity].
  unfold liftR. destruct (Base64.atob e) as [b|err]; [|reflexivity].
  destruct (subtle_decrypt_aes_gcm P key _ _); reflexivity.
Qed.

Lemma set_ambient_same (s : State) : set_ambient (ambient s) s = s.
Proof. now destruct s. Qed.

(** C3.  With no live session key a read of the credentials returns the
    empty list and throws nothing, whatever the storage holds; so does the
    answer to a [REQUEST_CREDENTIALS] message. *)
Theorem locked_read_returns_empty (s : State) (url : JsString) :
  truthy_string (sessionKey s) = false ->
  getDecryptedCredentials P s = (Ok [], logged LogLocked s)
  /\ fst (handleRequestCredentials P matchURL url s) = Ok [].
Proof.
  intros Hkey.
  assert (H : getDecryptedCredentials P s = (Ok [], logged LogLocked s)).
  { unfold getDecryptedCredentials, bind, gets.
    destruct (sessionKey s) as [[|c k]|]; try discriminate; reflexivity. }
  split; [exact H|].
  unfold handleRequestCredentials, bind. now rewrite H.
Qed.

(** C9.  When the storage holds a plain array, a read of the credentials
    returns the empty list; the array is neither returned nor decrypted, and
    it stays in the storage as it was. *)
Theorem plain_array_is_ignored (s : State) (l : list StoredCredential) :
  vault_credentials s = PlainArray l ->
  fst (getDecryptedCredentials P s) = Ok []
  /\ vault_credentials (snd (getDecryptedCredentials P s)) = PlainArray l
  /\ ambient (snd (getDecryptedCredentials P s)) = ambient s
  /\ (truthy_string (sessionKey s) = true ->
      snd (getDecryptedCredentials P s) = logged WarnUnencryptedArray s).
Proof.
  intros Hv. unfold getDecryptedCredentials, bind, gets, try_catch.
  destruct (sessionKey s) as [[|c k]|]; rewrite ?Hv; cbn [fst snd log modify ret
    vault_credentials ambient truthy_string]; repeat split; auto; discriminate.
Qed.

(** A failure of the decryption is caught inside the read. *)
Lemma getDecryptedCredentials_catches (s : State) (c c' : Z) (k e : JsString)
    (err : JsError) :
  sessionKey s = Some (c :: k) ->
  vault_credentials s = Envelope (c' :: e) ->
  fst (Crypto.decryptVaultData P (c' :: e) (c :: k) (ambient s)) = Throw err ->
  getDecryptedCredentials P s = (Ok [], logged (ErrorDecryptionFailed err) s).
Proof.
  intros Hk Hv Hd.
  pose proof (decryptVaultData_ambient (c' :: e) (c :: k) (ambient s)) as Ha.
  unfold getDecryptedCredentials, bind, gets, try_catch. rewrite Hk, Hv.
  unfold with_ambient, zoom.
  destruct (Crypto.decryptVaultData P (c' :: e) (c :: k) (ambient s)) as [r a'].
  cbn [fst snd] in Hd, Ha. subst r a'. rewrite set_ambient_same. reflexivity.
Qed.

(** C2, as amended.  When the storage holds a non-empty envelope and
    decrypting it under the session key fails, the read catches the failure,
    writes it to the console and returns the empty list: the caller gets the
    answer it gets for an empty vault, and no failure. *)
Theorem failed_decryption_returns_empty (s : State) (k e : JsString) (err : JsError) :
  sessionKey s = Some k ->
  k <> [] ->
  vault_credentials s = Envelope e ->
  e <> [] ->
  fst (Crypto.decryptVaultData P e k (ambient s)) = Throw err ->
  getDecryptedCredentials P s = (Ok [], logged (ErrorDecryptionFailed err) s).
Proof.
  intros Hk Hk' Hv He Hd.
  destruct k as [|c k]; [contradiction|]. destruct e as [|c' e]; [contradiction|].
  now apply (getDecryptedCredentials_catches s c c' k e err).
Qed.

(** A read of the credentials always returns a list; it changes nothing but
    the console. *)
Lemma getDecryptedCredentials_returns (s : State) :
  exists l s',
    getDecryptedCredentials P s = (Ok l, s')
    /\ sessionKey s' = sessionKey s
    /\ vault_credentials s' = vault_credentials s
    /\ ambient s' = ambient s.
Proof.
  unfold getDecryptedCredentials, bind, gets, try_catch.
  destruct (sessionKey s) as [[|c k]|] eqn:Hk;
    try (eexists _, _; split; [reflexivity|cbn; auto]).
  destruct (vault_credentials s) as [|l|[|c' e]] eqn:Hv;
    try (eexists _, _; split; [reflexivity|cbn; auto]).
  unfold with_ambient, zoom.
  pose proof (decryptVaultData_ambient (c' :: e) (c :: k) (ambient s)) as Ha.
  destruct (Crypto.decryptVaultData P (c' :: e) (c :: k) (ambient s)) as [[d|err] a'];
    cbn [snd] in Ha; subst a'; rewrite set_ambient_same.
  - unfold liftR. destruct (JSON_parse_credentials P d) as [l|err];
      eexists _, _; (split; [reflexivity|cbn; auto]).
  - eexists _, _. split; [reflexivity|cbn; auto].
Qed.

(** [saveEncryptedCredentials] under a session key: the envelope is stored,
    or the failure of the encryption is written to the console. *)
Lemma saveEncryptedCredentials_run (l : list StoredCredential) (s : State) (c : Z)
    (k : JsString) :
  sessionKey s = Some (c :: k) ->
  saveEncryptedCredentials P l s
  = (Ok tt,
     match Crypto.encryptVaultData P (JSON_stringify_credentials P l) (c :: k) (ambient s) with
     | (Ok e, a') => set_vault_credentials (Envelope e) (set_ambient a' s)
     | (Throw err, a') => logged (ErrorEncryptionFailed err) (set_ambient a' s)
     end).
Proof.
  intros Hk. unfold saveEncryptedCredentials, bind, gets, try_catch. rewrite Hk.
  unfold with_ambient, zoom.
  destruct (Crypto.encryptVaultData P _ _ _) as [[e|err] a']; reflexivity.
Qed.

(** [handleSaveCredential] under a session key, up to its call of
    [saveEncryptedCredentials]. *)
Lemma handleSaveCredential_run (s s1 : State) (data : SaveData) (c : Z) (k : JsString)
    (existing : list StoredCredential) :
  sessionKey s = Some (c :: k) ->
  getDecryptedCredentials P s = (Ok existing, s1) ->
  ambient s1 = ambient s ->
  handleSaveCredential P data s
  = match URL_hostname P (data_url data) with
    | Throw e => (Throw e, set_ambient (snd (randomUUID (ambient s))) s1)
    | Ok hostname =>
        (Ok tt,
         logged LogCredentialSaved
           (snd (saveEncryptedCredentials P
                   (existing ++ [saved_credential P data hostname (ambient s)])
                   (set_ambient (snd (Date_now (snd (randomUUID (ambient s))))) s1))))
    end.
Proof.
  intros Hk Hread Ha1.
  assert (Hs1 : sessionKey s1 = Some (c :: k)).
  { destruct (getDecryptedCredentials_returns s) as (l' & s' & Hread' & Hs' & _).
    rewrite Hread in Hread'. injection Hread' as _ <-. now rewrite Hs'. }
  destruct (URL_hostname P (data_url data)) as [hostname|e] eqn:Hurl;
    match goal with |- _ = ?r => set (rhs := r) end;
    unfold handleSaveCredential; unfold bind at 1; unfold gets at 1; rewrite Hk;
    cbn [truthy_string negb];
    rewrite (bind_ok _ _ _ _ _ Hread);
    unfold bind at 1; unfold with_ambient at 1, zoom, randomUUID;
    unfold bind at 1; unfold liftR at 1; rewrite Ha1, Hurl; [|reflexivity].
  unfold bind at 1. unfold with_ambient at 1, zoom, Date_now.
  cbn [ambient set_ambient fst snd uuids uuid_pos clock clock_pos].
  unfold bind at 1.
  match goal with
  | |- context [saveEncryptedCredentials P ?l ?s2] => set (st := s2); set (full := l)
  end.
  subst rhs.
  change (set_ambient (snd (Date_now (snd (randomUUID (ambient s))))) s1) with st.
  change (existing ++ [saved_credential P data hostname (ambient s)]) with full.
  assert (Hst : sessionKey st = Some (c :: k)) by exact Hs1.
  clearbody st full.
  destruct (saveEncryptedCredentials P full st) as [[[]|e] s3] eqn:E; [reflexivity|].
  exfalso. rewrite (saveEncryptedCredentials_run _ _ c k Hst) in E. discriminate.
Qed.

(** The draws of [handleSaveCredential] before the encryption leave the
    random bytes and the limits of the engine as they were. *)
Lemma fits_after_draws (key : CryptoKey P) (json : JsString) (a : Ambient) :
  Crypto.fits P key json (snd (Date_now (snd (randomUUID a))))
  <-> Crypto.fits P key json a.
Proof. reflexivity. Qed.

(** What [handleSaveCredential] stores, given what its read returned. *)
Lemma handleSaveCredential_stores (s s1 : State) (data : SaveData)
    (k hostname : JsString) (key : CryptoKey P) (existing : list StoredCredential) :
  sessionKey s = Some k ->
  k <> [] ->
  URL_hostname P (data_url data) = Ok hostname ->
  fst (Crypto.importKey P k (ambient s)) = Ok key ->
  getDecryptedCredentials P s = (Ok existing, s1) ->
  let json :=
    JSON_stringify_credentials P
      (existing ++ [saved_credential P data hostname (ambient s)]) in
  (Crypto.fits P key json (ambient s) ->
   handleSaveCredential P data s
   = (Ok tt,
      logged LogCredentialSaved
        (set_vault_credentials
           (Envelope (Crypto.envelope P key (Crypto.next_nonce (ambient s)) json))
           (set_ambient
              (Crypto.after_nonce (snd (Date_now (snd (randomUUID (ambient s))))))
              s1))))
  /\ (~ Crypto.fits P key json (ambient s) ->
      handleSaveCredential P data s
      = (Ok tt,
         logged LogCredentialSaved
           (logged (ErrorEncryptionFailed RangeError)
              (set_ambient
                 (Crypto.after_nonce (snd (Date_now (snd (randomUUID (ambient s))))))
                 s1)))).
Proof.
  intros Hk Hk' Hurl Hkey Hread json.
  rewrite importKey_run in Hkey. cbn [fst] in Hkey.
  destruct k as [|c k]; [contradiction|].
  destruct (getDecryptedCredentials_returns s) as (l' & s' & Hread' & Hs1 & _ & Ha1).
  rewrite Hread in Hread'. injection Hread' as <- <-.
  rewrite (handleSaveCredential_run s s1 data c k existing Hk Hread Ha1), Hurl.
  subst json.
  rewrite (saveEncryptedCredentials_run _ _ c k)
    by (cbn [sessionKey set_ambient]; rewrite Hs1; exact Hk).
  cbn [snd ambient set_ambient]. split; intros Hfits.
  - apply fits_after_draws in Hfits.
    rewrite (encryptVaultData_fits P _ _ key _ Hkey Hfits). reflexivity.
  - rewrite <- fits_after_draws in Hfits.
    rewrite (encryptVaultData_too_long P _ _ key _ Hkey Hfits). reflexivity.
Qed.

(** X1.  [handleSaveCredential] stores the envelope of the whole list: what
    the read returned, followed by the new credential.  When the bytes of
    that envelope are more than the engine takes as the arguments of one
    call, the encryption throws, the failure is written to the console and
    the stored vault stays as it was. *)
Lemma handleSaveCredential_persists_full_set (s : State) (data : SaveData)
    (k hostname : JsString) (key : CryptoKey P) (existing : list StoredCredential) :
  sessionKey s = Some k ->
  k <> [] ->
  URL_hostname P (data_url data) = Ok hostname ->
  fst (Crypto.importKey P k (ambient s)) = Ok key ->
  fst (getDecryptedCredentials P s) = Ok existing ->
  let json :=
    JSON_stringify_credentials P
      (existing ++ [saved_credential P data hostname (ambient s)]) in
  (Crypto.fits P key json (ambient s) ->
   vault_credentials (snd (handleSaveCredential P data s))
   = Envelope (Crypto.envelope P key (Crypto.next_nonce (ambient s)) json))
  /\ (~ Crypto.fits P key json (ambient s) ->
      vault_credentials (snd (handleSaveCredential P data s)) = vault_credentials s
      /\ exists before,
           console (snd (handleSaveCredential P data s))
           = before ++ [ErrorEncryptionFailed RangeError; LogCredentialSaved]).
Proof.
  intros Hk Hk' Hurl Hkey Hex json.
  destruct (getDecryptedCredentials_returns s) as (l' & s1 & Hread & Hs1 & Hv1 & Ha1).
  rewrite Hread in Hex. cbn [fst] in Hex. injection Hex as ->.
  destruct (handleSaveCredential_stores s s1 data k hostname key existing
              Hk Hk' Hurl Hkey Hread) as [Hfit Hlong].
  fold json in Hfit, Hlong. split; intros Hfits.
  - rewrite (Hfit Hfits). reflexivity.
  - rewrite (Hlong Hfits). cbn [snd vault_credentials logged set_ambient console].
    split; [exact Hv1|]. exists (console s1). now rewrite <- app_assoc.
Qed.


End BackgroundFacts.

(** ** The vault store *)

Section StoreFacts.
Import VaultStore.
Variable saveCredentials : list Credential -> JsString -> Result unit.

Lemma JsString_eqb_eq (s t : JsString) : JsString_eqb s t = true <-> s = t.
Proof.
  revert t. induction s as [|a s IH]; intros [|b t]; cbn [JsString_eqb];
    try (split; [discriminate|discriminate]); [tauto|].
  rewrite andb_true_iff, Z.eqb_eq, IH. split.
  - intros [-> ->]. reflexivity.
  - intros H. injection H as -> ->. auto.
Qed.

Lemma mapM_absent (target : JsString) (updates : Updates) (cs : list Credential) (w : World) :
  absent target cs ->
  mapM (fun c =>
          if JsString_eqb (id c) target
          then now <- with_ambient Date_now ;; ret (merge c updates now)
          else ret c) cs w
  = (Ok cs, w).
Proof.
  induction cs as [|c cs IH]; intros Habs; cbn [mapM]; [reflexivity|].
  unfold bind at 1.
  destruct (JsString_eqb (id c) target) eqn:E.
  - apply JsString_eqb_eq in E. exfalso. apply (Habs c); [now left|exact E].
  - unfold ret at 1. cbn beta iota. erewrite bind_ok; [reflexivity|].
    apply IH. intros c' Hc'. apply Habs. now right.
Qed.

Lemma filter_absent (target : JsString) (cs : list Credential) :
  absent target cs ->
  filter (fun c => negb (JsString_eqb (id c) target)) cs = cs.
Proof.
  induction cs as [|c cs IH]; intros Habs; cbn [filter]; [reflexivity|].
  destruct (JsString_eqb (id c) target) eqn:E.
  - apply JsString_eqb_eq in E. exfalso. apply (Habs c); [now left|exact E].
  - cbn [negb]. rewrite IH; [reflexivity|]. intros c' Hc'. apply Habs. now right.
Qed.

Lemma persistToStorage_run (cs : list Credential) (w : World) :
  persistToStorage saveCredentials cs w =
    match encryptionKey w with
    | Some ((_ :: _) as k) =>
        match saveCredentials cs k with
        | Ok _ => (Ok tt, traced LogPersisted (traced (CallSaveCredentials cs k) w))
        | Throw e => (Throw e, traced (CallSaveCredentials cs k) w)
        end
    | _ => (Ok tt, traced WarnNoKey w)
    end.
Proof.
  unfold persistToStorage, bind, gets.
  destruct (encryptionKey w) as [[|c k]|]; reflexivity.
Qed.

Lemma syncVault_begin_run (w : World) :
  syncVault_begin w
  = (Ok (credentials (state w), number_or (lastSynced (state w)) 0), sync_started w).
Proof. reflexivity. Qed.

(** What [persistToStorage] followed by the start of [syncVault] leaves of
    the credentials: they do not touch them. *)
Lemma persist_and_sync_keep_credentials (w : World) :
  credentials (state (snd
    ((s <- get ;;
      persistToStorage saveCredentials (credentials s) ;;;
      syncVault_begin ;;;
      ret tt) w)))
  = credentials (state w).
Proof.
  unfold bind at 1. unfold get, gets. unfold bind at 1.
  rewrite persistToStorage_run.
  destruct (encryptionKey w) as [[|c k]|]; try reflexivity.
  destruct (saveCredentials _ _); reflexivity.
Qed.

(** [addCredential], step by step. *)
Lemma addCredential_run (credential : NewCredential) (w : World) :
  let new := drawn_credential credential (ambient w) in
  let full := credentials (state w) ++ [new] in
  let a' := snd (Date_now (snd (randomUUID (ambient w)))) in
  let w1 :=
    traced (SetState (with_syncStatus pending (with_credentials full (state w))))
      (with_state (with_syncStatus pending (with_credentials full (state w)))
         (set_ambient a' w)) in
  addCredential saveCredentials credential w =
    match encryptionKey w with
    | Some ((_ :: _) as k) =>
        match saveCredentials full k with
        | Ok _ =>
            (Ok tt, sync_started (traced LogPersisted (traced (CallSaveCredentials full k) w1)))
        | Throw e => (Throw e, traced (CallSaveCredentials full k) w1)
        end
    | _ => (Ok tt, sync_started (traced WarnNoKey w1))
    end.
Proof.
  unfold addCredential, bind, with_ambient, zoom, randomUUID, Date_now, set, modify, get, gets.
  cbn [fst snd state ambient set_ambient traced with_state uuids uuid_pos clock clock_pos
       credentials with_credentials with_syncStatus].
  rewrite persistToStorage_run.
  cbn [encryptionKey traced with_state set_ambient].
  destruct (encryptionKey w) as [[|c k]|]; try reflexivity.
  destruct (saveCredentials _ _); reflexivity.
Qed.

(** [addCredential] when a key is present and the storage service accepts
    the call. *)
Lemma addCredential_persists_and_syncs (credential : NewCredential) (w : World)
    (k : JsString) :
  let new := drawn_credential credential (ambient w) in
  let full := credentials (state w) ++ [new] in
  encryptionKey w = Some k ->
  k <> [] ->
  saveCredentials full k = Ok tt ->
  exists w',
    addCredential saveCredentials credential w = (Ok tt, w')
    /\ credentials (state w') = full
    /\ trace w' =
         trace w ++
         [SetState (with_syncStatus pending (with_credentials full (state w)));
          CallSaveCredentials full k;
          LogPersisted;
          SetState (with_syncStatus syncing (with_credentials full (state w)));
          CallSyncChanges full (number_or (lastSynced (state w)) 0)].
Proof.
  intros new full Hk Hk' Hsave. rewrite addCredential_run, Hk.
  destruct k as [|c k]; [contradiction|].
  fold new. fold full. rewrite Hsave. eexists. split; [reflexivity|].
  split; [reflexivity|].
  cbn [trace sync_started traced with_state set_ambient state credentials lastSynced
       with_syncStatus with_credentials].
  rewrite <- !app_assoc. reflexivity.
Qed.

(** What [addCredential] leaves of the environment: one identifier and one
    reading of the clock are consumed. *)
Lemma addCredential_ambient (credential : NewCredential) (w : World) :
  ambient (snd (addCredential saveCredentials credential w))
  = snd (Date_now (snd (randomUUID (ambient w)))).
Proof.
  rewrite addCredential_run.
  destruct (encryptionKey w) as [[|c k]|]; try reflexivity.
  destruct (saveCredentials _ _); reflexivity.
Qed.

(** X3.  Without a key [addCredential] persists nothing, and still starts a
    sync. *)
Lemma addCredential_without_key (credential : NewCredential) (w : World) :
  let new := drawn_credential credential (ambient w) in
  let full := credentials (state w) ++ [new] in
  truthy_string (encryptionKey w) = false ->
  exists w',
    addCredential saveCredentials credential w = (Ok tt, w')
    /\ credentials (state w') = full
    /\ trace w' =
         trace w ++
         [SetState (with_syncStatus pending (with_credentials full (state w)));
          WarnNoKey;
          SetState (with_syncStatus syncing (with_credentials full (state w)));
          CallSyncChanges full (number_or (lastSynced (state w)) 0)].
Proof.
  intros new full Hk. rewrite addCredential_run. fold new. fold full.
  destruct (encryptionKey w) as [[|c k]|]; try discriminate;
    (eexists; split; [reflexivity|]; split; [reflexivity|];
     cbn [trace sync_started traced with_state set_ambient state credentials lastSynced
          with_syncStatus with_credentials];
     rewrite <- !app_assoc; reflexivity).
Qed.

(** The effectful map over the credentials touches the environment only. *)
Lemma mapM_update_run (target : JsString) (updates : Updates) (cs : list Credential)
    (w : World) :
  exists cs' a',
    mapM (fun c =>
            if JsString_eqb (id c) target
            then now <- with_ambient Date_now ;; ret (merge c updates now)
            else ret c) cs w
    = (Ok cs', set_ambient a' w).
Proof.
  revert w. induction cs as [|c cs IH]; intros w; cbn [mapM].
  - exists [], (ambient w). now destruct w.
  - destruct (JsString_eqb (id c) target).
    + assert (E1 : (now <- with_ambient Date_now ;; ret (merge c updates now)) w
                   = (Ok (merge c updates (clock (ambient w) (clock_pos (ambient w)))),
                      set_ambient (snd (Date_now (ambient w))) w)) by reflexivity.
      rewrite (bind_ok _ _ _ _ _ E1).
      destruct (IH (set_ambient (snd (Date_now (ambient w))) w)) as (cs' & a' & E).
      rewrite (bind_ok _ _ _ _ _ E). eexists _, a'. reflexivity.
    + unfold bind at 1. unfold ret at 1. cbn beta iota.
      destruct (IH w) as (cs' & a' & E).
      rewrite (bind_ok _ _ _ _ _ E). eexists _, a'. reflexivity.
Qed.

Lemma after_set_pending (f : VaultState -> VaultState) (w0 w : World) :
  trace w = trace w0 ->
  (forall s, syncStatus (f s) = pending) ->
  publishes_pending_first w0
    (snd ((set f ;;;
           s <- get ;;
           persistToStorage saveCredentials (credentials s) ;;;
           syncVault_begin ;;;
           ret tt) w)).
Proof.
  intros Ht Hf. unfold bind at 1. unfold set at 1, modify at 1.
  unfold bind at 1. unfold get, gets. unfold bind at 1.
  rewrite persistToStorage_run.
  cbn [encryptionKey traced with_state state].
  exists (f (state w)). rewrite <- Ht.
  destruct (encryptionKey w) as [[|c k]|];
    try (eexists; split; [|apply Hf]; cbn; rewrite <- !app_assoc; reflexivity).
  destruct (saveCredentials _ _);
    (eexists; split; [|apply Hf]; cbn; rewrite <- !app_assoc; reflexivity).
Qed.

Lemma mutations_publish_pending (w : World) (credential : NewCredential)
    (target : JsString) (updates : Updates) :
  publishes_pending_first w (snd (addCredential saveCredentials credential w))
  /\ publishes_pending_first w (snd (updateCredential saveCredentials target updates w))
  /\ publishes_pending_first w (snd (deleteCredential saveCredentials target w)).
Proof.
  repeat split.
  - unfold addCredential. unfold bind at 1. unfold bind at 1.
    unfold with_ambient, zoom, randomUUID, Date_now. cbn [fst snd ambient set_ambient].
    apply after_set_pending; [reflexivity|intros s; reflexivity].
  - unfold updateCredential. unfold bind at 1. unfold get at 1, gets at 1.
    destruct (mapM_update_run target updates (credentials (state w)) w) as (cs' & a' & E).
    rewrite (bind_ok _ _ _ _ _ E).
    apply after_set_pending; [reflexivity|intros s; reflexivity].
  - unfold deleteCredential.
    apply after_set_pending; [reflexivity|intros s; reflexivity].
Qed.

(** C8.  When no credential has the given id, [updateCredential] and
    [deleteCredential] leave the list of credentials as it was: the same
    elements with the same fields, [lastUpdated] included. *)
Theorem absent_id_keeps_credentials (target : JsString) (updates : Updates) (w : World) :
  absent target (credentials (state w)) ->
  credentials (state (snd (updateCredential saveCredentials target updates w)))
    = credentials (state w)
  /\ credentials (state (snd (deleteCredential saveCredentials target w)))
    = credentials (state w).
Proof.
  intros Habs. split.
  - unfold updateCredential. unfold bind at 1. unfold get at 1, gets at 1.
    rewrite (bind_ok _ _ _ _ _ (mapM_absent _ _ _ _ Habs)).
    unfold bind at 1. unfold set at 1, modify at 1.
    rewrite persist_and_sync_keep_credentials. reflexivity.
  - unfold deleteCredential. unfold bind at 1. unfold set at 1, modify at 1.
    rewrite persist_and_sync_keep_credentials. cbn.
    now rewrite (filter_absent _ _ Habs).
Qed.

Section Remote.
Variable syncChanges : list Credential -> Z -> Result SyncResult.

(** C5, as amended.  [addCredential], [updateCredential] and
    [deleteCredential] publish the status [pending] first ([clearVault]
    resets it to [synced], [setCredentials] leaves it as it is); the start of
    [syncVault] sets it to [syncing]; a reply that reports success with a
    timestamp other than zero sets it to [synced] and [lastSynced] to that
    timestamp; a reply that reports an error, or a call that throws, sets it
    to [error]. *)
Theorem sync_state_machine (w : World) (credential : NewCredential) (target : JsString)
    (updates : Updates) (cs : list Credential) (t : Z) (ts : option Z) (e : JsError) :
  t <> 0 ->
  publishes_pending_first w (snd (addCredential saveCredentials credential w))
  /\ publishes_pending_first w (snd (updateCredential saveCredentials target updates w))
  /\ publishes_pending_first w (snd (deleteCredential saveCredentials target w))
  /\ state (snd (clearVault w))
     = {| isLocked := isLocked (state w); credentials := [];
          syncStatus := synced; lastSynced := None |}
  /\ syncStatus (state (snd (setCredentials cs w))) = syncStatus (state w)
  /\ syncStatus (state (snd (syncVault_begin w))) = syncing
  /\ syncVault syncChanges w
     = syncVault_settle
         (syncChanges (credentials (state w)) (number_or (lastSynced (state w)) 0))
         (sync_started w)
  /\ state (snd (syncVault_settle (Ok {| status := remote_synced; timestamp := Some t |}) w))
     = with_syncStatus synced (with_lastSynced (Some t) (state w))
  /\ state (snd (syncVault_settle (Ok {| status := remote_error; timestamp := ts |}) w))
     = with_syncStatus error (state w)
  /\ state (snd (syncVault_settle (Throw e) w)) = with_syncStatus error (state w).
Proof.
  intros Ht.
  destruct (mutations_publish_pending w credential target updates) as (Ha & Hu & Hd).
  repeat split; try assumption; try reflexivity.
  unfold syncVault_settle. cbn [status timestamp is_synced truthy_number andb].
  destruct (Z.eqb_spec t 0); [contradiction|reflexivity].
Qed.

(** [syncVault] ends in [synced] or [error] for every reply but one: a
    reply that reports success with no timestamp, or with the timestamp 0,
    leaves the status at [syncing]. *)
Lemma syncVault_settles_or_not (w : World) :
  let reply :=
    syncChanges (credentials (state w)) (number_or (lastSynced (state w)) 0) in
  let final := syncStatus (state (snd (syncVault syncChanges w))) in
  match reply with
  | Ok result =>
      match status result with
      | remote_synced => if truthy_number (timestamp result) then final = synced
                         else final = syncing
      | remote_error => final = error
      end
  | Throw _ => final = error
  end.
Proof.
  cbv zeta. unfold syncVault. rewrite (bind_ok _ _ _ _ _ (syncVault_begin_run w)).
  cbn [fst snd]. unfold syncVault_settle.
  destruct (syncChanges _ _) as [[[|] ts]|e]; cbn [status timestamp is_synced is_error andb];
    try reflexivity.
  destruct (truthy_number ts); reflexivity.
Qed.

End Remote.

End StoreFacts.

(** ** The two ways of adding a credential *)

(** An identifier generator that never repeats returns, after the
    identifiers [used], one that is none of them. *)
Lemma next_uuid_is_fresh (a : Ambient) (used : list JsString) :
  never_repeats a -> drawn_before a used -> ~ In (uuids a (uuid_pos a)) used.
Proof.
  intros Hinj Hused Hin. destruct (Hused _ Hin) as (i & Hlt & Hi).
  apply Hinj in Hi. lia.
Qed.

(** After one more call the identifiers in use are still results of calls
    made so far. *)
Lemma drawn_before_next (a a' : Ambient) (used : list JsString) :
  uuids a' = uuids a ->
  uuid_pos a' = S (uuid_pos a) ->
  drawn_before a used ->
  drawn_before a' (used ++ [uuids a (uuid_pos a)]).
Proof.
  intros Hu Hp Hused x Hin. rewrite Hu, Hp. apply in_app_iff in Hin.
  destruct Hin as [Hin|[<-|[]]].
  - destruct (Hused x Hin) as (i & Hlt & Hi). exists i. split; [lia|exact Hi].
  - exists (uuid_pos a). split; [lia|reflexivity].
Qed.

Section AddPaths.
Import VaultStore.
Variable P : Platform.
Variable stringify : list Credential -> JsString.

(** A call of the storage service that settles has stored the envelope of
    the list it was given. *)
Lemma settles_stores (d : Storage.Disk) (cs : list Credential) (k : JsString) :
  Storage.settles P stringify d cs k = Ok tt ->
  exists key,
    fst (Crypto.importKey P k (Storage.disk_ambient d)) = Ok key
    /\ Crypto.fits P key (stringify cs) (Storage.disk_ambient d)
    /\ Storage.stored (snd (Storage.saveCredentials P stringify cs k d))
       = Some (Crypto.envelope P key (Crypto.next_nonce (Storage.disk_ambient d))
                 (stringify cs)).
Proof.
  unfold Storage.settles, Storage.saveCredentials, bind, zoom, modify.
  rewrite importKey_run, encryptVaultData_run. cbn [fst].
  destruct (bindR _ _) as [key|e]; [|discriminate].
  unfold Crypto.fits.
  match goal with |- context [Z.leb ?x ?y] => destruct (Z.leb_spec x y) end;
    [|discriminate].
  intros _. exists key. repeat split. assumption.
Qed.

(** C4, as amended.  [crypto.randomUUID] never returning an identifier
    twice and the identifiers of the credentials at hand being earlier
    results of it: [addCredential] of the store gives the new credential an
    id that no existing credential has and the time read from [Date.now] as
    [lastUpdated]; it appends the credential and leaves the others as they
    were, publishes the status [pending], and, an encryption key being
    present and the call of the storage service settling, has the whole new
    list encrypted and stored and then starts a sync with that list.
    [handleSaveCredential] of the background script gives its new credential
    a fresh id too, appends it to the credentials it read and stores the
    envelope of the whole list; its whole effect is that write, its draws
    from the environment and one line on the console: it keeps no
    [lastUpdated] and no sync status, and starts no sync. *)
Theorem addCredential_appends_persists_syncs (credential : NewCredential) (w : World)
    (k : JsString) (d : Storage.Disk)
    (s : Background.State) (data : Background.SaveData) (bk hostname : JsString)
    (bkey : CryptoKey P) (existing : list StoredCredential) :
  let new := drawn_credential credential (ambient w) in
  let full := credentials (state w) ++ [new] in
  let saved := Background.saved_credential P data hostname (Background.ambient s) in
  let json := JSON_stringify_credentials P (existing ++ [saved]) in
  let after :=
    Crypto.after_nonce (snd (Date_now (snd (randomUUID (Background.ambient s))))) in
  encryptionKey w = Some k ->
  k <> [] ->
  Storage.settles P stringify d full k = Ok tt ->
  never_repeats (ambient w) ->
  drawn_before (ambient w) (map id (credentials (state w))) ->
  Background.sessionKey s = Some bk ->
  bk <> [] ->
  fst (Crypto.importKey P bk (Background.ambient s)) = Ok bkey ->
  URL_hostname P (Background.data_url data) = Ok hostname ->
  fst (Background.getDecryptedCredentials P s) = Ok existing ->
  Crypto.fits P bkey json (Background.ambient s) ->
  never_repeats (Background.ambient s) ->
  drawn_before (Background.ambient s) (map sc_id existing) ->
  (exists w' key,
     addCredential (Storage.settles P stringify d) credential w = (Ok tt, w')
     /\ credentials (state w') = credentials (state w) ++ [new]
     /\ id new = uuids (ambient w) (uuid_pos (ambient w))
     /\ lastUpdated new = clock (ambient w) (clock_pos (ambient w))
     /\ absent (id new) (credentials (state w))
     /\ (NoDup (map id (credentials (state w))) ->
         NoDup (map id (credentials (state w'))))
     /\ drawn_before (ambient w') (map id (credentials (state w')))
     /\ trace w' =
          trace w ++
          [SetState (with_syncStatus pending (with_credentials full (state w)));
           CallSaveCredentials full k;
           LogPersisted;
           SetState (with_syncStatus syncing (with_credentials full (state w)));
           CallSyncChanges full (number_or (lastSynced (state w)) 0)]
     /\ fst (Crypto.importKey P k (Storage.disk_ambient d)) = Ok key
     /\ Storage.stored (snd (Storage.saveCredentials P stringify full k d))
        = Some (Crypto.envelope P key (Crypto.next_nonce (Storage.disk_ambient d))
                  (stringify full)))
  /\ (exists s1,
        Background.getDecryptedCredentials P s = (Ok existing, s1)
        /\ Background.handleSaveCredential P data s
           = (Ok tt,
              Background.logged Background.LogCredentialSaved
                (Background.set_vault_credentials
                   (Background.Envelope
                      (Crypto.envelope P bkey (Crypto.next_nonce (Background.ambient s))
                         json))
                   (Background.set_ambient after s1)))
        /\ sc_id saved = uuids (Background.ambient s) (uuid_pos (Background.ambient s))
        /\ Forall (fun c => sc_id c <> sc_id saved) existing
        /\ drawn_before after (map sc_id (existing ++ [saved]))).
Proof.
  intros new full saved json after Hk Hk' Hsave Hinj Hused Hbk Hbk' Hbkey Hurl Hex Hfits
    Hbinj Hbused.
  split.
  - destruct (addCredential_persists_and_syncs (Storage.settles P stringify d)
                credential w k Hk Hk' Hsave) as (w' & Hrun & Hcs & Htr).
    destruct (settles_stores d full k Hsave) as (key & Hkey & _ & Hstored).
    pose proof (next_uuid_is_fresh _ _ Hinj Hused) as Hfresh.
    assert (Habs : absent (id new) (credentials (state w))).
    { intros c Hin Hc. apply Hfresh. apply in_map_iff. exists c. split; [|exact Hin].
      exact Hc. }
    exists w', key. repeat split; try assumption.
    + intros Hnd. rewrite Hcs. unfold full. rewrite map_app. cbn [map].
      apply NoDup_app; [exact Hnd|repeat constructor; intros []|].
      intros x Hin [<-|[]]. apply in_map_iff in Hin as (c & Hc & Hin).
      exact (Habs c Hin Hc).
    + pose proof (addCredential_ambient (Storage.settles P stringify d) credential w)
        as Ha.
      rewrite Hrun in Ha. cbn [snd] in Ha. rewrite Hcs, Ha. unfold full.
      rewrite map_app. cbn [map].
      apply (drawn_before_next (ambient w)); [reflexivity|reflexivity|exact Hused].
  - destruct (getDecryptedCredentials_returns P s) as (l0 & s1 & Hread & _).
    rewrite Hread in Hex. cbn [fst] in Hex. injection Hex as ->.
    destruct (handleSaveCredential_stores P s s1 data bk hostname bkey existing
                Hbk Hbk' Hurl Hbkey Hread) as [Hstored _].
    exists s1. split; [exact Hread|]. split; [exact (Hstored Hfits)|].
    split; [reflexivity|]. split.
    + pose proof (next_uuid_is_fresh _ _ Hbinj Hbused) as Hfresh.
      apply Forall_forall. intros c Hin Hc. apply Hfresh.
      apply in_map_iff. exists c. split; [exact Hc|exact Hin].
    + rewrite map_app. cbn [map].
      apply (drawn_before_next (Background.ambient s));
        [reflexivity|reflexivity|exact Hbused].
Qed.

End AddPaths.

(** ** The password generator *)

Section GeneratorFacts.
Import Generator.

Lemma characters_allowed (o : Options) (c : Z) :
  In c (characters o) <-> allowed o c.
Proof.
  unfold characters, allowed. rewrite !in_app_iff.
  destruct (uppercase o), (lowercase o), (numbers o), (symbols o); cbn [In];
    intuition discriminate.
Qed.

Lemma characters_some_class (o : Options) :
  some_class o = true <-> characters o <> [].
Proof.
  unfold some_class, characters.
  destruct (uppercase o), (lowercase o), (numbers o), (symbols o);
    cbn; split; intros H; try discriminate; try reflexivity; try congruence.
Qed.

Lemma charAt_inside (s : JsString) (k : Z) :
  0 <= k < Z.of_nat (length s) ->
  exists c, charAt s k = [c] /\ In c s.
Proof.
  intros Hk. unfold charAt.
  destruct (Z.leb_spec 0 k); [|lia]. destruct (Z.ltb_spec k (Z.of_nat (length s))); [|lia].
  cbn [andb].
  assert (Hn : (Z.to_nat k < length s)%nat) by lia.
  revert Hn. generalize (Z.to_nat k). clear. intros n. revert s.
  induction n as [|n IH]; intros [|c s] Hn; cbn [length] in Hn; try lia.
  - exists c. split; [reflexivity|now left].
  - destruct (IH s) as (c' & E & Hin); [lia|]. exists c'. split; [exact E|now right].
Qed.

Lemma flat_map_singletons {A} (f : A -> JsString) (P : Z -> Prop) (l : list A) :
  (forall x, In x l -> exists c, f x = [c] /\ P c) ->
  length (flat_map f l) = length l /\ Forall P (flat_map f l).
Proof.
  induction l as [|x l IH]; intros H; cbn [flat_map length]; [split; constructor|].
  destruct (H x (or_introl eq_refl)) as (c & -> & Hc).
  destruct IH as [Hlen Hall]; [intros y Hy; apply H; now right|].
  cbn [app length]. split; [now rewrite Hlen|now constructor].
Qed.

Lemma Uint32Array_created_small (a : Ambient) (len : Z) :
  0 <= len <= 16384 -> Uint32Array_created a len = true.
Proof.
  intros H. unfold Uint32Array_created.
  destruct (Z.leb_spec 0 len); [|lia]. destruct (Z.leb_spec len 16384); [|lia].
  reflexivity.
Qed.

(** X4.  With at least one class selected and a length from 0 to 16384,
    [generateRandomPassword] returns a password of exactly that length whose
    characters all belong to the selected classes, and it takes four random
    bytes per character. *)
Theorem generated_password_shape (len : Z) (o : Options) (a : Ambient) :
  some_class o = true ->
  0 <= len <= 16384 ->
  exists p,
    generateRandomPassword len o a = (Password p, after_u32 (Z.to_nat len) a)
    /\ Z.of_nat (length p) = len
    /\ Forall (allowed o) p.
Proof.
  intros Hsome Hlen. apply characters_some_class in Hsome.
  unfold generateRandomPassword.
  destruct (characters o) as [|c0 cs] eqn:E; [contradiction|].
  rewrite (Uint32Array_created_small a len Hlen). cbn [negb].
  destruct (Z.ltb_spec 16384 len); [lia|].
  eexists. split; [reflexivity|].
  destruct (flat_map_singletons
              (fun i => charAt (c0 :: cs)
                          (random_u32 a i mod Z.of_nat (length (c0 :: cs))))
              (allowed o) (seq 0 (Z.to_nat len))) as [Hl Hall].
  - intros i _.
    destruct (charAt_inside (c0 :: cs)
                (random_u32 a i mod Z.of_nat (length (c0 :: cs)))) as (c & Ec & Hin).
    + apply Z.mod_pos_bound. cbn [length]. lia.
    + exists c. split; [exact Ec|]. apply characters_allowed. now rewrite E.
  - split; [|exact Hall]. rewrite Hl, length_seq. lia.
Qed.

(** X5.  [generateRandomPassword] gives no password for a negative length
    or a length above 16384, and draws nothing then: [new Uint32Array]
    throws a [RangeError] for a negative length and for a length beyond the
    arrays the engine creates, and for a length above 16384 that the engine
    does create, [crypto.getRandomValues] refuses the more than 65536 bytes
    with a [QuotaExceededError].  With no class selected the function
    returns the empty string for every length, these included. *)
Theorem generated_password_limits (len : Z) (o : Options) (a : Ambient) :
  (some_class o = false -> generateRandomPassword len o a = (Password [], a))
  /\ (some_class o = true -> len < 0 ->
      generateRandomPassword len o a = (Failed RangeError, a))
  /\ (some_class o = true -> 16384 < len ->
      generateRandomPassword len o a
      = (Failed (if len <=? max_array_length a then QuotaExceededError else RangeError),
         a)).
Proof.
  unfold generateRandomPassword, Uint32Array_created. repeat split.
  - intros H. destruct (characters o) as [|c0 cs] eqn:E; [reflexivity|].
    assert (Hs : some_class o = true) by (apply characters_some_class; congruence).
    congruence.
  - intros Hsome Hneg. apply characters_some_class in Hsome.
    destruct (characters o) as [|c0 cs]; [contradiction|].
    destruct (Z.leb_spec 0 len); [lia|reflexivity].
  - intros Hsome Hbig. apply characters_some_class in Hsome.
    destruct (characters o) as [|c0 cs]; [contradiction|].
    destruct (Z.leb_spec 0 len); [|lia].
    destruct (Z.leb_spec len 16384); [lia|].
    destruct (Z.leb_spec len (max_array_length a)); cbn [andb orb negb]; [|reflexivity].
    destruct (Z.ltb_spec 16384 len); [reflexivity|lia].
Qed.

Lemma distinct_NoDup (s : JsString) : distinct s = true -> NoDup s.
Proof.
  induction s as [|c s IH]; cbn [distinct]; intros H; [constructor|].
  apply andb_true_iff in H as [Hc Hs]. constructor; [|auto].
  intros Hin. apply negb_true_iff in Hc.
  assert (E : existsb (Z.eqb c) s = true)
    by (apply existsb_exists; exists c; split; [exact Hin|apply Z.eqb_refl]).
  congruence.
Qed.

Lemma charAt_nth (s : JsString) (k : Z) :
  0 <= k < Z.of_nat (length s) -> charAt s k = [nth (Z.to_nat k) s 0].
Proof.
  intros Hk. unfold charAt.
  destruct (Z.leb_spec 0 k); [|lia]. destruct (Z.ltb_spec k (Z.of_nat (length s))); [|lia].
  cbn [andb].
  assert (Hn : (Z.to_nat k < length s)%nat) by lia.
  revert Hn. generalize (Z.to_nat k). clear. intros n. revert s.
  induction n as [|n IH]; intros [|c s] Hn; cbn [length] in Hn; try lia.
  - reflexivity.
  - cbn [skipn nth]. now apply IH; lia.
Qed.

Lemma characters_distinct (o : Options) : NoDup (characters o).
Proof.
  apply distinct_NoDup. unfold characters.
  destruct (uppercase o), (lowercase o), (numbers o), (symbols o); vm_compute; reflexivity.
Qed.

Lemma every_draw_unfolds (o : Options) (a : Ambient) :
  some_class o = true ->
  generateRandomPassword 1 o a = (Password (drawn_char o (random_u32 a 0)), after_u32 1 a).
Proof.
  intros Hsome. apply characters_some_class in Hsome.
  unfold generateRandomPassword, drawn_char.
  destruct (characters o) as [|c0 cs]; [contradiction|].
  rewrite (Uint32Array_created_small a 1) by lia. cbn [negb].
  change (16384 <? 1) with false.
  change (Z.to_nat 1) with 1%nat. cbn [seq flat_map].
  now rewrite app_nil_r.
Qed.

(** X6.  The characters are not drawn uniformly: taking the remainder of
    a 32-bit value by the number of characters favours the first character
    over the last.  Every 32-bit value that gives the last character has a
    partner, smaller by the number of characters less one, that gives the
    first character; and one 32-bit value gives the first character and is
    the partner of none. *)
Theorem first_character_is_favoured (o : Options) :
  some_class o = true ->
  let n := Z.of_nat (length (characters o)) in
  let first := charAt (characters o) 0 in
  let last := charAt (characters o) (n - 1) in
  (forall a, generateRandomPassword 1 o a
             = (Password (drawn_char o (random_u32 a 0)), after_u32 1 a))
  /\ first <> last
  /\ (forall v, is_u32 v -> drawn_char o v = last ->
      is_u32 (v - (n - 1)) /\ drawn_char o (v - (n - 1)) = first)
  /\ (exists v0, is_u32 v0 /\ drawn_char o v0 = first
      /\ forall v, is_u32 v -> drawn_char o v = last -> v - (n - 1) <> v0).
Proof.
  intros Hsome n first last.
  pose proof (characters_distinct o) as Hnd.
  assert (Hn : 10 <= n <= 91 /\ 4294967296 mod n <> 0).
  { unfold n, characters. unfold some_class in Hsome.
    destruct (uppercase o), (lowercase o), (numbers o), (symbols o);
      try discriminate; vm_compute; repeat split; discriminate. }
  destruct Hn as [Hn Hr].
  assert (Hidx : forall v k, 0 <= k < n ->
            (drawn_char o v = charAt (characters o) k <-> v mod n = k)).
  { intros v k Hk. unfold drawn_char. fold n.
    assert (Hv : 0 <= v mod n < n) by (apply Z.mod_pos_bound; lia).
    rewrite !charAt_nth by (fold n; lia). split.
    - intros E. injection E as E. apply NoDup_nth in E; [lia|exact Hnd| |]; unfold n in *; lia.
    - intros ->. reflexivity. }
  assert (H0 : 0 <= 0 < n) by lia. assert (Hl : 0 <= n - 1 < n) by lia.
  assert (Hpartner : forall v, is_u32 v -> drawn_char o v = charAt (characters o) (n - 1) ->
            v mod n = n - 1 /\ n - 1 <= v).
  { intros v Hv E. apply Hidx in E; [|lia]. split; [exact E|].
    unfold is_u32 in Hv. rewrite <- E. apply Z.mod_le; lia. }
  unfold first, last.
  split; [intros a; now apply every_draw_unfolds|].
  split; [|split].
  - intros E. assert (E' : drawn_char o 0 = charAt (characters o) (n - 1)).
    { rewrite <- E. apply Hidx; [lia|]. apply Z.mod_0_l. lia. }
    apply Hidx in E'; [|lia]. rewrite Z.mod_0_l in E' by lia. lia.
  - intros v Hv E. destruct (Hpartner v Hv E) as [Em Hge]. split.
    + unfold is_u32 in *. lia.
    + apply Hidx; [lia|]. rewrite <- Em.
      rewrite Zminus_mod, Z.mod_mod, Z.sub_diag by lia. apply Z.mod_0_l. lia.
  - exists (4294967296 - 4294967296 mod n).
    assert (Hm : 0 <= 4294967296 mod n < n) by (apply Z.mod_pos_bound; lia).
    split; [|split].
    + unfold is_u32. lia.
    + apply Hidx; [lia|].
      rewrite Zminus_mod, Z.mod_mod, Z.sub_diag by lia. apply Z.mod_0_l. lia.
    + intros v Hv E. destruct (Hpartner v Hv E) as [Em Hge].
      unfold is_u32 in Hv. lia.
Qed.
End GeneratorFacts.


(** ** More of [crypto.ts] *)

Section CryptoMore.
Variable P : Platform.

Lemma length_encode_16 (l : list Z) :
  length l = 16%nat -> length (Base64.encode l) = 24%nat.
Proof.
  intros H.
  do 16 (destruct l as [|? l]; [discriminate|]).
  destruct l; [reflexivity|discriminate].
Qed.

(** X7.  [generateSalt] draws sixteen random bytes and returns them as a
    24-character base64 string; [deriveMasterKey] accepts every such salt and
    gives PBKDF2 exactly the sixteen bytes drawn. *)
Theorem generated_salt_is_accepted (password : JsString) (a : Ambient) :
  let drawn := map (random_bytes a) (seq (random_pos a) 16) in
  exists salt a',
    Crypto.generateSalt a = (Ok salt, a')
    /\ length salt = 24%nat
    /\ Base64.atob salt = Ok (map b2z drawn)
    /\ Crypto.deriveMasterKey P password salt a'
       = (Ok (Crypto.key_material P password drawn), a').
Proof.
  intros drawn. unfold Crypto.generateSalt, bind, getRandomValues, liftR.
  fold drawn. rewrite btoa_bytes. eexists _, _. split; [reflexivity|].
  split; [|split].
  - apply length_encode_16. unfold drawn. now rewrite !length_map, length_seq.
  - apply atob_encode_bytes.
  - rewrite deriveMasterKey_run, atob_encode_bytes. cbn [bindR].
    unfold Uint8Array_from_charCodes. now rewrite map_z2b_b2z.
Qed.

(** X8.  When [importKey] rejects the key string, [encryptVaultData] and
    [decryptVaultData] reject with the same error, before anything else is
    done: no nonce is drawn and the envelope is not looked at. *)
Theorem rejected_key_rejects_first (data envelope keyString : JsString) (e : JsError)
    (a : Ambient) :
  fst (Crypto.importKey P keyString a) = Throw e ->
  Crypto.encryptVaultData P data keyString a = (Throw e, a)
  /\ Crypto.decryptVaultData P envelope keyString a = (Throw e, a).
Proof.
  intros H. rewrite importKey_run in H. cbn [fst] in H. split.
  - now rewrite encryptVaultData_run, H.
  - unfold Crypto.decryptVaultData, bind. now rewrite importKey_run, H.
Qed.

(** X9.  [decryptVaultData] does not check the envelope itself.  An envelope
    that is not base64 text makes it reject with [InvalidCharacterError],
    without a call of the cipher; an envelope of at most twelve bytes is
    handed to the cipher as a nonce of those bytes and an empty ciphertext,
    and the outcome is the cipher's. *)
Theorem decryptVaultData_malformed_or_short (envelope keyString : JsString)
    (key : CryptoKey P) (a : Ambient) :
  fst (Crypto.importKey P keyString a) = Ok key ->
  match Base64.atob envelope with
  | Throw _ => Crypto.decryptVaultData P envelope keyString a = (Throw InvalidCharacterError, a)
  | Ok binary =>
      (length binary <= 12)%nat ->
      Crypto.decryptVaultData P envelope keyString a
      = (match subtle_decrypt_aes_gcm P key (Uint8Array_from_charCodes binary) [] with
         | Ok plain => Ok (Utf8.TextDecoder_decode plain)
         | Throw e => Throw e
         end, a)
  end.
Proof.
  intros H. rewrite importKey_run in H. cbn [fst] in H.
  unfold Crypto.decryptVaultData, bind. rewrite importKey_run, H. unfold liftR.
  destruct (Base64.atob envelope) as [binary|e] eqn:E.
  - intros Hlen. unfold Uint8Array_from_charCodes.
    rewrite firstn_all2, skipn_all2 by (now rewrite length_map).
    destruct (subtle_decrypt_aes_gcm P key _ _); reflexivity.
  - f_equal. unfold Base64.atob in E.
    repeat match type of E with
           | (if ?c then _ else _) = _ => destruct c
           | match ?c with _ => _ end = _ => destruct c
           end; try discriminate; now injection E as <-.
Qed.

(** X10.  What [encryptVaultData] returns, for a key that [importKey]
    accepts and data whose envelope the engine can spread into one call, is
    base64 text whose bytes are the nonce, in clear, followed by the output
    of AES-GCM.  For data whose envelope has more bytes than that, it throws
    a [RangeError] after the nonce has been drawn. *)
Theorem envelope_layout (data keyString : JsString) (key : CryptoKey P) (a : Ambient) :
  fst (Crypto.importKey P keyString a) = Ok key ->
  (~ Crypto.fits P key data a ->
   Crypto.encryptVaultData P data keyString a = (Throw RangeError, Crypto.after_nonce a))
  /\
  (Crypto.fits P key data a ->
  exists envelope,
    Crypto.encryptVaultData P data keyString a = (Ok envelope, Crypto.after_nonce a)
    /\ Nat.modulo (length envelope) 4 = 0%nat
    /\ option_map Uint8Array_from_charCodes
         (match Base64.atob envelope with Ok b => Some b | Throw _ => None end)
       = Some (Crypto.next_nonce a
               ++ subtle_encrypt_aes_gcm P key (Crypto.next_nonce a)
                    (Utf8.TextEncoder_encode data))).
Proof.
  intros H. rewrite importKey_run in H. cbn [fst] in H.
  split; intros Hfits; [exact (encryptVaultData_too_long P _ _ key _ H Hfits)|].
  rewrite (encryptVaultData_fits P _ _ key _ H Hfits). eexists. split; [reflexivity|].
  unfold Crypto.envelope. split.
  - apply Base64Facts.length_encode.
  - rewrite atob_encode_bytes. cbn [option_map].
    unfold Uint8Array_from_charCodes. now rewrite map_z2b_b2z.
Qed.

End CryptoMore.


(** ** More of the background script *)

Section BackgroundMore.
Variable P : Platform.
Import Background.

Lemma encode_nonempty (l : list Z) : l <> [] -> Base64.encode l <> [].
Proof. destruct l as [|a [|b [|c l]]]; intros H; [contradiction|discriminate..]. Qed.

Lemma envelope_nonempty (key : CryptoKey P) (iv : bytes) (data : JsString) :
  iv <> [] -> Crypto.envelope P key iv data <> [].
Proof.
  intros H. unfold Crypto.envelope. apply encode_nonempty.
  destruct iv; [contradiction|discriminate].
Qed.

(** The read of an envelope the script wrote under the session key. *)
Lemma getDecryptedCredentials_of_envelope (s : State) (k data : JsString)
    (key : CryptoKey P) (iv : bytes) :
  aes_gcm_correct P ->
  sessionKey s = Some k ->
  k <> [] ->
  fst (Crypto.importKey P k (ambient s)) = Ok key ->
  length iv = 12%nat ->
  vault_credentials s = Envelope (Crypto.envelope P key iv data) ->
  Utf8.well_formed data = true ->
  Utf8.no_bom data = true ->
  getDecryptedCredentials P s
  = match JSON_parse_credentials P data with
    | Ok l => (Ok l, s)
    | Throw e => (Ok [], logged (ErrorDecryptionFailed e) s)
    end.
Proof.
  intros Haes Hk Hk' Hkey Hiv Hv Hwf Hbom.
  rewrite importKey_run in Hkey. cbn [fst] in Hkey.
  unfold getDecryptedCredentials, bind, gets, try_catch. rewrite Hk.
  destruct k as [|c k]; [contradiction|]. rewrite Hv.
  destruct (Crypto.envelope P key iv data) as [|c' e] eqn:E.
  - exfalso. apply (envelope_nonempty key iv data); [|exact E].
    destruct iv; [discriminate|discriminate].
  - rewrite <- E. unfold with_ambient, zoom.
    rewrite (decryptVaultData_envelope P key iv data (c :: k) (ambient s) Haes Hkey Hiv).
    rewrite Utf8Facts.TextDecoder_TextEncoder by assumption.
    rewrite set_ambient_same. unfold liftR.
    destruct (JSON_parse_credentials P data); reflexivity.
Qed.

(** X11.  What [saveEncryptedCredentials] stored is what
    [getDecryptedCredentials] returns next, when the key is one [importKey]
    accepts, the engine can spread the bytes of the envelope into one call,
    AES-GCM decrypts what it encrypted and [JSON.parse] reads back what
    [JSON.stringify] wrote (a string with no unpaired surrogate and no
    leading U+FEFF).  Nothing is written to the console on the way. *)
Theorem saved_credentials_are_read_back (s : State) (k : JsString) (key : CryptoKey P)
    (credentials : list StoredCredential) :
  aes_gcm_correct P ->
  sessionKey s = Some k ->
  k <> [] ->
  fst (Crypto.importKey P k (ambient s)) = Ok key ->
  Crypto.fits P key (JSON_stringify_credentials P credentials) (ambient s) ->
  Utf8.well_formed (JSON_stringify_credentials P credentials) = true ->
  Utf8.no_bom (JSON_stringify_credentials P credentials) = true ->
  JSON_parse_credentials P (JSON_stringify_credentials P credentials) = Ok credentials ->
  exists s',
    (saveEncryptedCredentials P credentials ;;; getDecryptedCredentials P) s
      = (Ok credentials, s')
    /\ console s' = console s
    /\ vault_credentials s'
       = Envelope (Crypto.envelope P key (Crypto.next_nonce (ambient s))
                     (JSON_stringify_credentials P credentials)).
Proof.
  intros Haes Hk Hk' Hkey Hfits Hwf Hbom Hjson.
  pose proof Hkey as Hkey'. rewrite importKey_run in Hkey'. cbn [fst] in Hkey'.
  set (s1 := set_vault_credentials
               (Envelope (Crypto.envelope P key (Crypto.next_nonce (ambient s))
                            (JSON_stringify_credentials P credentials)))
               (set_ambient (Crypto.after_nonce (ambient s)) s)).
  assert (Hsave : saveEncryptedCredentials P credentials s = (Ok tt, s1)).
  { destruct k as [|c k]; [contradiction|].
    rewrite (saveEncryptedCredentials_run P _ _ c k Hk).
    now rewrite (encryptVaultData_fits P _ _ key _ Hkey' Hfits). }
  rewrite (bind_ok _ _ _ _ _ Hsave).
  rewrite (getDecryptedCredentials_of_envelope s1 k
             (JSON_stringify_credentials P credentials) key
             (Crypto.next_nonce (ambient s))); try assumption; try reflexivity.
  - rewrite Hjson. exists s1. repeat split.
  - rewrite importKey_run. cbn [fst]. exact Hkey'.
Qed.

End BackgroundMore.

(** ** The listeners and the auto-lock timer *)

Section ListenerFacts.
Variable P : Platform.
Variable matchURL : JsString -> JsString -> bool.
Import Background Listener.

Lemma handleSaveCredential_locked (data : SaveData) (s : State) :
  truthy_string (sessionKey s) = false ->
  handleSaveCredential P data s = (Ok tt, s).
Proof.
  intros H. unfold handleSaveCredential. unfold bind at 1. unfold gets at 1.
  now rewrite H.
Qed.

(** [handleSaveCredential] leaves the session key as it is, and the stored
    vault too unless it stores the envelope it has computed. *)
Lemma handleSaveCredential_keeps_key (data : SaveData) (s : State) :
  exists res s',
    handleSaveCredential P data s = (res, s')
    /\ sessionKey s' = sessionKey s
    /\ (vault_credentials s' = vault_credentials s
        \/ sealed_by_save P data s (vault_credentials s')).
Proof.
  destruct (truthy_string (sessionKey s)) eqn:Ht;
    [|rewrite (handleSaveCredential_locked data s Ht); eexists _, _; eauto].
  destruct (sessionKey s) as [[|c k]|] eqn:Hk; try discriminate.
  destruct (getDecryptedCredentials_returns P s) as (existing & s1 & Hread & Hs1 & Hv1 & Ha1).
  rewrite Hk in Hs1.
  rewrite (handleSaveCredential_run P s s1 data c k existing Hk Hread Ha1).
  destruct (URL_hostname P (data_url data)) as [hostname|e] eqn:Hurl;
    [|eexists _, _; split; [reflexivity|split; [exact Hs1|left; exact Hv1]]].
  rewrite (saveEncryptedCredentials_run P _ _ c k) by exact Hs1.
  rewrite encryptVaultData_run.
  destruct (bindR (JSON_parse_jwk P (c :: k)) (subtle_importKey_jwk P)) as [key|e] eqn:Hkey;
    [|eexists _, _; split; [reflexivity|split; [exact Hs1|left; exact Hv1]]].
  match goal with |- context [Z.leb ?x ?y] => destruct (Z.leb x y) end;
    [|eexists _, _; split; [reflexivity|split; [exact Hs1|left; exact Hv1]]].
  eexists _, _. split; [reflexivity|].
  cbn [snd sessionKey vault_credentials logged set_vault_credentials set_ambient].
  split; [exact Hs1|]. right.
  exists (c :: k), key, existing, hostname.
  split; [exact Hk|]. split; [discriminate|].
  split; [now rewrite importKey_run|]. split; [now rewrite Hread|].
  split; [exact Hurl|].
  unfold Crypto.next_nonce.
  cbn [ambient set_ambient Date_now randomUUID snd random_bytes random_pos].
  reflexivity.
Qed.

(** ** The first listener *)

Lemma in_script_run {A} (c : Js State A) (r : Runtime) :
  in_script c r = (fst (c (script r)), with_script (snd (c (script r))) r).
Proof. unfold in_script, zoom. destruct (c (script r)); reflexivity. Qed.

Lemma with_script_same (r : Runtime) : with_script (script r) r = r.
Proof. now destruct r. Qed.

Lemma handleRequestCredentials_run (url : JsString) (s s1 : State)
    (l : list StoredCredential) :
  getDecryptedCredentials P s = (Ok l, s1) ->
  handleRequestCredentials P matchURL url s
  = (Ok (filter (fun c => matchURL (sc_url c) url) l),
     logged (LogFound (length (filter (fun c => matchURL (sc_url c) url) l))) s1).
Proof.
  intros H. unfold handleRequestCredentials. now rewrite (bind_ok _ _ _ _ _ H).
Qed.

Ltac run_listener :=
  cbv beta iota delta [onMessage handleFormSubmitted bind note modify detached ret gets];
  rewrite ?in_script_run; cbv beta iota;
  cbn [fst snd script noted with_script set_keys stored_sessionKey autoLockTimer
       timers next_handle restoring journal].

(** What [handleFormSubmitted] does with the credentials its read returns. *)
Lemma handleFormSubmitted_run (data : SaveData) (tab : option Tab) (r : Runtime)
    (l : list StoredCredential) (s1 : State) :
  getDecryptedCredentials P (script r) = (Ok l, s1) ->
  handleFormSubmitted P matchURL data tab r
  = (Ok tt,
     match truthy_tab tab with
     | None => r
     | Some t =>
         if truthy_string (sessionKey (script r)) then
           match find (same_login matchURL data) l with
           | Some c =>
               if JsString_eqb (sc_password c) (data_password data)
               then with_script s1 r
               else noted LogPasswordChanged (with_script s1 r)
           | None => noted (ShowSavePrompt t data) (with_script s1 r)
           end
         else r
     end).
Proof.
  intros H. unfold handleFormSubmitted.
  destruct (truthy_tab tab) as [t|]; [|reflexivity].
  run_listener. rewrite with_script_same.
  destruct (truthy_string (sessionKey (script r))); [|reflexivity].
  cbn [negb]. rewrite in_script_run, H. cbn [fst snd].
  change (fun c : StoredCredential =>
            matchURL (sc_url c) (data_url data)
            && JsString_eqb (sc_username c) (data_username data))
    with (same_login matchURL data).
  destruct (find (same_login matchURL data) l) as [c|]; [|reflexivity].
  destruct (JsString_eqb (sc_password c) (data_password data)); reflexivity.
Qed.

Ltac run_onMessage :=
  cbv beta iota delta [onMessage bind note modify detached ret gets];
  rewrite ?in_script_run; cbv beta iota;
  cbn [fst snd script noted with_script set_keys stored_sessionKey autoLockTimer
       timers next_handle restoring journal].

Ltac finish_effect :=
  eexists _, _, _; split; [reflexivity|];
  cbn [script noted with_script set_keys stored_sessionKey autoLockTimer timers
       next_handle restoring journal sessionKey vault_credentials with_sessionKey
       logged snd];
  rewrite <- ?app_assoc; cbn [app];
  repeat match goal with |- _ /\ _ => split end;
  try reflexivity; try assumption.

(** The first listener: it returns, leaves the timer to the second
    listener, and touches the keys, the vault and the journal as follows. *)
Lemma onMessage_effect (m : Message) (tab : option Tab) (r : Runtime) :
  exists b r' added,
    onMessage P matchURL m tab r = (Ok b, r')
    /\ autoLockTimer r' = autoLockTimer r
    /\ timers r' = timers r
    /\ next_handle r' = next_handle r
    /\ restoring r' = restoring r
    /\ journal r' = journal r ++ LogReceived :: added
    /\ match m with
       | SET_SESSION_KEY key =>
           vault_credentials (script r') = vault_credentials (script r)
           /\ if truthy_string key
              then sessionKey (script r') = key /\ stored_sessionKey r' = key
                   /\ added = [LogSessionKeySet; Responded Success]
              else r' = noted LogReceived r /\ added = []
       | REQUEST_CREDENTIALS url =>
           sessionKey (script r') = sessionKey (script r)
           /\ stored_sessionKey r' = stored_sessionKey r
           /\ vault_credentials (script r') = vault_credentials (script r)
           /\ exists l s1,
                getDecryptedCredentials P (script r) = (Ok l, s1)
                /\ added = [Responded (Credentials
                                         (filter (fun c => matchURL (sc_url c) url) l))]
       | FORM_SUBMITTED data =>
           sessionKey (script r') = sessionKey (script r)
           /\ stored_sessionKey r' = stored_sessionKey r
           /\ vault_credentials (script r') = vault_credentials (script r)
           /\ exists l s1,
                getDecryptedCredentials P (script r) = (Ok l, s1)
                /\ added
                   = Responded Success ::
                     match truthy_tab tab with
                     | None => []
                     | Some t =>
                         if truthy_string (sessionKey (script r)) then
                           match find (same_login matchURL data) l with
                           | Some c =>
                               if JsString_eqb (sc_password c) (data_password data)
                               then []
                               else [LogPasswordChanged]
                           | None => [ShowSavePrompt t data]
                           end
                         else []
                     end
       | SAVE_CREDENTIAL data =>
           sessionKey (script r') = sessionKey (script r)
           /\ stored_sessionKey r' = stored_sessionKey r
           /\ script r' = snd (handleSaveCredential P data (script r))
           /\ added = [Responded Success]
       | Other =>
           script r' = script r
           /\ stored_sessionKey r' = stored_sessionKey r
           /\ added = [LogUnknownType]
       end.
Proof.
  destruct (getDecryptedCredentials_returns P (script r)) as (l & s1 & Hread & Hk & Hv & _).
  destruct m as [key|url|data|data|].
  - run_onMessage. destruct (truthy_string key) eqn:E; run_onMessage; finish_effect.
  - run_onMessage. rewrite (handleRequestCredentials_run url _ _ _ Hread).
    run_onMessage. finish_effect. exists l, s1. now split.
  - run_onMessage.
    rewrite (handleFormSubmitted_run data tab
               (noted (Responded Success) (noted LogReceived r)) l s1 Hread).
    cbn [snd script noted].
    destruct (truthy_tab tab) as [t|];
      [|finish_effect; exists l, s1; now split].
    destruct (truthy_string (sessionKey (script r)));
      [|finish_effect; exists l, s1; now split].
    destruct (find (same_login matchURL data) l) as [c|] eqn:Ef;
      [destruct (JsString_eqb (sc_password c) (data_password data)) eqn:Ep|];
      finish_effect; exists l, s1; (split; [exact Hread|]);
      rewrite Ef, ?Ep; reflexivity.
  - destruct (handleSaveCredential_keeps_key data (script r)) as (res & s' & Hs & Hk' & _).
    run_onMessage. rewrite Hs. finish_effect.
  - run_onMessage. finish_effect.
Qed.

(** ** The two listeners together, the timer and the start-up read *)

Lemma getDecryptedCredentials_locked (s : State) :
  truthy_string (sessionKey s) = false ->
  getDecryptedCredentials P s = (Ok [], logged LogLocked s).
Proof.
  intros H. unfold getDecryptedCredentials. unfold bind at 1. unfold gets at 1.
  destruct (sessionKey s) as [[|c k]|]; try discriminate; reflexivity.
Qed.

Lemma rearmed_fields (now : Z) (r : Runtime) :
  script (rearmed now r) = script r
  /\ stored_sessionKey (rearmed now r) = stored_sessionKey r
  /\ journal (rearmed now r) = journal r
  /\ restoring (rearmed now r) = restoring r.
Proof. unfold rearmed. destruct (autoLockTimer r) as [[|h]|]; cbn; auto. Qed.

Lemma step_Deliver (now : Z) (m : Message) (tab : option Tab) (r r1 : Runtime) (b : bool) :
  onMessage P matchURL m tab r = (Ok b, r1) ->
  step P matchURL (Deliver now m tab) r = rearmed now r1.
Proof.
  intros H. unfold step. rewrite (bind_ok _ _ _ _ _ H). reflexivity.
Qed.

Lemma rearmed_one_timer (now : Z) (r : Runtime) :
  one_timer r ->
  one_timer (rearmed now r)
  /\ timers (rearmed now r) = [(next_handle r, now + auto_lock_delay)]
  /\ autoLockTimer (rearmed now r) = Some (next_handle r).
Proof.
  unfold one_timer, rearmed. intros [Hn Ht].
  destruct (timers r) as [|[h t] [|? ?]] eqn:E; [| |contradiction].
  - destruct (autoLockTimer r) as [[|h]|];
      cbn [setTimeout_autoLock clearTimeout timers autoLockTimer next_handle filter];
      rewrite ?E; cbn [filter app]; repeat split; auto.
  - destruct Ht as [-> Hh]. destruct h as [|h]; [inversion Hh|].
    cbn [setTimeout_autoLock clearTimeout timers autoLockTimer next_handle].
    rewrite E. cbn [filter fst negb]. rewrite Nat.eqb_refl. cbn [negb app].
    repeat split; auto.
Qed.

Lemma step_Restore (r : Runtime) :
  step P matchURL Restore r
  = match restoring r with
    | None => r
    | Some result =>
        if truthy_string result
        then noted LogRestored (with_script (with_sessionKey result (script r)) (read_done r))
        else read_done r
    end.
Proof.
  unfold step, restore, bind, gets. destruct (restoring r) as [result|]; [|reflexivity].
  cbn. destruct (truthy_string result); reflexivity.
Qed.

Lemma step_one_timer (e : Event) (r : Runtime) :
  one_timer r -> one_timer (step P matchURL e r).
Proof.
  intros H. destruct e as [now m tab|h|].
  - destruct (onMessage_effect m tab r) as (b & r1 & added & Hrun & Ha & Ht & Hn & _).
    rewrite (step_Deliver now m tab r r1 b Hrun).
    apply rearmed_one_timer. unfold one_timer. now rewrite Ha, Ht, Hn.
  - unfold step. destruct (is_pending h r) eqn:E; [|exact H].
    unfold is_pending in E. destruct H as [Hn Ht]. split; [exact Hn|].
    cbn. destruct (timers r) as [|[h' t] [|? ?]]; [discriminate| |contradiction].
    cbn in E |- *. rewrite orb_false_r in E. now rewrite E.
  - rewrite step_Restore. destruct (restoring r) as [result|]; [|exact H].
    destruct (truthy_string result); exact H.
Qed.

Lemma run_one_timer (events : list Event) (r : Runtime) :
  one_timer r -> one_timer (run P matchURL events r).
Proof.
  revert r. induction events as [|e events IH]; intros r H; [exact H|].
  apply IH, step_one_timer, H.
Qed.

(** X12.  However the messages, the timeouts and the start-up read follow
    each other, at most one auto-lock timeout is pending, and it is the one
    [autoLockTimer] names; after a message it is the timeout set at that
    message, due 15 minutes later. *)
Theorem auto_lock_timer_is_single (vault : StoredValue) (stored : option JsString)
    (a : Ambient) (events : list Event) (now : Z) (m : Message) (tab : option Tab) :
  let r := run P matchURL events (started vault stored a) in
  one_timer r
  /\ exists h,
       timers (step P matchURL (Deliver now m tab) r) = [(h, now + 900000)]
       /\ autoLockTimer (step P matchURL (Deliver now m tab) r) = Some h.
Proof.
  intros r.
  assert (H : one_timer r).
  { apply run_one_timer. split; cbn; auto. }
  split; [exact H|].
  destruct (onMessage_effect m tab r) as (b & r1 & added & Hrun & Ha & Ht & Hn & _).
  rewrite (step_Deliver now m tab r r1 b Hrun).
  destruct (rearmed_one_timer now r1) as (_ & Ht' & Ha').
  { unfold one_timer. now rewrite Ha, Ht, Hn. }
  exists (next_handle r1). split; assumption.
Qed.

Lemma step_keeps_locked (e : Event) (r : Runtime) :
  locked r = true ->
  sets_key e = false ->
  locked (step P matchURL e r) = true
  /\ vault_credentials (script (step P matchURL e r)) = vault_credentials (script r)
  /\ exists added,
       journal (step P matchURL e r) = journal r ++ added
       /\ forallb discloses_nothing added = true
       /\ filter is_response added = locked_answer e.
Proof.
  unfold locked. intros Hl He. apply andb_true_iff in Hl. destruct Hl as [Hl Hr].
  apply andb_true_iff in Hl. destruct Hl as [Hk Hs].
  apply negb_true_iff in Hk, Hs.
  destruct e as [now m tab|h|].
  - destruct (onMessage_effect m tab r)
      as (b & r1 & added & Hrun & _ & _ & _ & Hr1 & Hj & Hm).
    rewrite (step_Deliver now m tab r r1 b Hrun).
    destruct (rearmed_fields now r1) as (-> & -> & -> & ->). rewrite Hj, Hr1, Hr.
    pose proof (getDecryptedCredentials_locked (script r) Hk) as Hread.
    destruct m as [key|url|data|data|].
    + cbn in He. rewrite He in Hm. destruct Hm as (Hv & -> & ->).
      cbn. rewrite Hk, Hs. repeat split. eexists. repeat split.
    + destruct Hm as (-> & -> & -> & l & s1 & Hread' & ->).
      rewrite Hread in Hread'. injection Hread' as <- <-.
      rewrite Hk, Hs. repeat split. eexists. repeat split.
    + destruct Hm as (-> & -> & -> & l & s1 & _ & ->).
      rewrite Hk, Hs. repeat split. eexists. split; [reflexivity|].
      destruct (truthy_tab tab); split; reflexivity.
    + destruct Hm as (-> & -> & -> & ->).
      rewrite (handleSaveCredential_locked data (script r) Hk).
      rewrite Hk, Hs. repeat split. eexists. repeat split.
    + destruct Hm as (-> & -> & ->).
      rewrite Hk, Hs. repeat split. eexists. repeat split.
  - unfold step. destruct (is_pending h r).
    + cbn. rewrite Hr. repeat split. eexists. repeat split.
    + rewrite Hk, Hs, Hr. repeat split. exists []. now rewrite app_nil_r.
  - rewrite step_Restore. destruct (restoring r) as [result|] eqn:E.
    + apply negb_true_iff in Hr. rewrite Hr. cbn. rewrite Hk, Hs.
      repeat split. exists []. now rewrite app_nil_r.
    + rewrite Hk, Hs, E. repeat split. exists []. now rewrite app_nil_r.
Qed.

(** X13.  A locked script stays locked until a [SET_SESSION_KEY] message
    brings a key.  Whatever else arrives, each message being handled to its
    end before the next event: the answers it sends are, in the order of the
    messages, the empty list for every request for credentials and success
    for every [FORM_SUBMITTED] and [SAVE_CREDENTIAL] message, and no other;
    nothing it sends or logs carries a credential, no prompt goes to a tab,
    and the stored vault is left as it is. *)
Theorem locked_script_discloses_nothing (r : Runtime) (events : list Event) :
  locked r = true ->
  forallb (fun e => negb (sets_key e)) events = true ->
  locked (run P matchURL events r) = true
  /\ vault_credentials (script (run P matchURL events r)) = vault_credentials (script r)
  /\ exists added,
       journal (run P matchURL events r) = journal r ++ added
       /\ forallb discloses_nothing added = true
       /\ filter is_response added = flat_map locked_answer events.
Proof.
  revert r. induction events as [|e events IH]; intros r Hl He.
  - cbn. repeat split; auto. exists []. now rewrite app_nil_r.
  - cbn [forallb] in He. apply andb_true_iff in He. destruct He as [He Hes].
    apply negb_true_iff in He.
    destruct (step_keeps_locked e r Hl He) as (Hl1 & Hv1 & added1 & Hj1 & Hd1 & Ha1).
    destruct (IH (step P matchURL e r) Hl1 Hes)
      as (Hl2 & Hv2 & added2 & Hj2 & Hd2 & Ha2).
    cbn [run fold_left]. fold (run P matchURL events (step P matchURL e r)).
    split; [exact Hl2|]. split; [now rewrite Hv2|].
    exists (added1 ++ added2). split; [|split].
    + rewrite Hj2, Hj1. now rewrite app_assoc.
    + rewrite forallb_app, Hd1, Hd2. reflexivity.
    + rewrite filter_app, Ha1, Ha2. reflexivity.
Qed.

Lemma is_pending_clearTimeout (h : nat) (r : Runtime) :
  is_pending h (clearTimeout h r) = false.
Proof.
  unfold is_pending, clearTimeout. cbn [timers].
  induction (timers r) as [|[h' t] l IH]; [reflexivity|].
  cbn [filter fst]. destruct (Nat.eqb h' h) eqn:E; cbn [negb]; [exact IH|].
  cbn [existsb fst]. now rewrite E, IH.
Qed.

(** X14.  When the pending timeout fires, the session key is removed from
    the script and from the session storage and the timeout is gone; a
    request that follows is answered with the empty list, whatever the
    vault holds, and the vault is left as it is. *)
Theorem fired_timer_locks (r : Runtime) (h : nat) (now : Z) (url : JsString)
    (tab : option Tab) :
  is_pending h r = true ->
  let r1 := step P matchURL (Fire h) r in
  let r2 := step P matchURL (Deliver now (REQUEST_CREDENTIALS url) tab) r1 in
  sessionKey (script r1) = None
  /\ stored_sessionKey r1 = None
  /\ is_pending h r1 = false
  /\ journal r2 = journal r ++ [LogAutoLocking; LogReceived; Responded (Credentials [])]
  /\ vault_credentials (script r2) = vault_credentials (script r).
Proof.
  intros Hp r1 r2.
  assert (E1 : r1 = set_keys None (noted LogAutoLocking (clearTimeout h r))).
  { unfold r1, step. now rewrite Hp. }
  assert (Hk : sessionKey (script r1) = None) by now rewrite E1.
  repeat split; try (rewrite E1; reflexivity).
  - rewrite E1. exact (is_pending_clearTimeout h r).
  - unfold r2.
    destruct (onMessage_effect (REQUEST_CREDENTIALS url) tab r1)
      as (b & r' & added & Hrun & _ & _ & _ & _ & Hj & _ & _ & _ & l & s1 & Hread & ->).
    rewrite (step_Deliver _ _ _ _ _ _ Hrun).
    destruct (rearmed_fields now r') as (_ & _ & -> & _). rewrite Hj.
    rewrite getDecryptedCredentials_locked in Hread by now rewrite Hk.
    injection Hread as <- _. rewrite E1. cbn. now rewrite <- app_assoc.
  - unfold r2.
    destruct (onMessage_effect (REQUEST_CREDENTIALS url) tab r1)
      as (b & r' & added & Hrun & _ & _ & _ & _ & _ & _ & _ & Hv & _).
    rewrite (step_Deliver _ _ _ _ _ _ Hrun).
    destruct (rearmed_fields now r') as (-> & _ & _ & _). rewrite Hv, E1. reflexivity.
Qed.

(** X15.  Each message being handled to its end before the next event, the
    stored vault is written by [SAVE_CREDENTIAL] alone, only while a session
    key is set, and what is written is the envelope that [encryptVaultData]
    makes under that key of the JSON text of the whole list (the credentials
    read, followed by the new one): no other message, no timeout and no
    restart changes the stored vault, and nothing but such an envelope is
    ever stored. *)
Theorem vault_is_written_by_save_only (e : Event) (r : Runtime) :
  vault_credentials (script (step P matchURL e r)) = vault_credentials (script r)
  \/ exists now data tab,
       e = Deliver now (SAVE_CREDENTIAL data) tab
       /\ truthy_string (sessionKey (script r)) = true
       /\ sealed_by_save P data (script r)
            (vault_credentials (script (step P matchURL e r))).
Proof.
  destruct e as [now m tab|h|].
  - destruct (onMessage_effect m tab r) as (b & r1 & added & Hrun & _ & _ & _ & _ & _ & Hm).
    rewrite (step_Deliver now m tab r r1 b Hrun).
    destruct (rearmed_fields now r1) as (-> & _ & _ & _).
    destruct m as [key|url|data|data|].
    + left. tauto.
    + left. tauto.
    + left. tauto.
    + destruct Hm as (_ & _ & -> & _).
      destruct (handleSaveCredential_keeps_key data (script r))
        as (res & s' & -> & _ & [Hv|Hv]); cbn [snd]; [now left|right].
      exists now, data, tab. split; [reflexivity|]. split; [|exact Hv].
      destruct Hv as (k & _ & _ & _ & Hk & Hk' & _). rewrite Hk.
      destruct k; [contradiction|reflexivity].
    + left. destruct Hm as (-> & _). reflexivity.
  - left. unfold step. destruct (is_pending h r); reflexivity.
  - left. rewrite step_Restore. destruct (restoring r) as [result|]; [|reflexivity].
    destruct (truthy_string result); reflexivity.
Qed.

(** Once the start-up read has completed, every event keeps the key of
    the script equal to the stored one. *)
Lemma step_key_is_mirrored (e : Event) (r : Runtime) :
  restoring r = None ->
  key_is_mirrored r ->
  restoring (step P matchURL e r) = None /\ key_is_mirrored (step P matchURL e r).
Proof.
  unfold key_is_mirrored. intros Hr H. destruct e as [now m tab|h|].
  - destruct (onMessage_effect m tab r)
      as (b & r1 & added & Hrun & _ & _ & _ & Hr1 & _ & Hm).
    rewrite (step_Deliver now m tab r r1 b Hrun).
    destruct (rearmed_fields now r1) as (-> & -> & _ & ->).
    split; [congruence|].
    destruct m as [key|url|data|data|].
    + destruct Hm as (_ & Hm). destruct (truthy_string key).
      * destruct Hm as (-> & -> & _). now right.
      * destruct Hm as (-> & _). exact H.
    + destruct Hm as (-> & -> & _). exact H.
    + destruct Hm as (-> & -> & _). exact H.
    + destruct Hm as (-> & -> & _). exact H.
    + destruct Hm as (-> & -> & _). exact H.
  - unfold step. destruct (is_pending h r); [split; [exact Hr|now left]|auto].
  - rewrite step_Restore, Hr. auto.
Qed.

Lemma run_key_is_mirrored (events : list Event) (r : Runtime) :
  restoring r = None ->
  key_is_mirrored r ->
  key_is_mirrored (run P matchURL events r).
Proof.
  revert r. induction events as [|e events IH]; intros r Hr H; [exact H|].
  destruct (step_key_is_mirrored e r Hr H) as [Hr' H'].
  exact (IH _ Hr' H').
Qed.

(** X16.  When the read of the session storage completes before anything
    else happens, the script takes over the stored key, and from then on a
    session key the script holds is the key kept in the session storage,
    whatever follows. *)
Theorem session_key_is_mirrored (vault : StoredValue) (stored : option JsString)
    (a : Ambient) (events : list Event) :
  let r0 := step P matchURL Restore (started vault stored a) in
  sessionKey (script r0) = (if truthy_string stored then stored else None)
  /\ key_is_mirrored (run P matchURL (Restore :: events) (started vault stored a)).
Proof.
  cbv zeta. rewrite step_Restore. cbn [restoring started]. split.
  - destruct (truthy_string stored); reflexivity.
  - cbn [run fold_left]. fold (run P matchURL events).
    rewrite step_Restore. cbn [restoring started].
    apply run_key_is_mirrored.
    + destruct (truthy_string stored); reflexivity.
    + unfold key_is_mirrored. destruct (truthy_string stored); cbn; auto.
Qed.

(** X24.  When a [SET_SESSION_KEY] message arrives before the read of the
    session storage has completed, the callback of the read puts the key
    that was stored at the start back into the script: the script then
    works with the old key, while the session storage holds the new one. *)
Theorem late_restore_overrides_key (vault : StoredValue) (old new : option JsString)
    (a : Ambient) (now : Z) (tab : option Tab) :
  truthy_string old = true ->
  truthy_string new = true ->
  let r := run P matchURL [Deliver now (SET_SESSION_KEY new) tab; Restore]
             (started vault old a) in
  sessionKey (script r) = old /\ stored_sessionKey r = new.
Proof.
  intros Ho Hn. cbv zeta. cbn [run fold_left].
  destruct (onMessage_effect (SET_SESSION_KEY new) tab (started vault old a))
    as (b & r1 & added & Hrun & _ & _ & _ & Hr1 & _ & _ & Hm).
  rewrite Hn in Hm. destruct Hm as (_ & Hs & _).
  rewrite (step_Deliver _ _ _ _ _ _ Hrun), step_Restore.
  destruct (rearmed_fields now r1) as (_ & Hs' & _ & Hr').
  rewrite Hr', Hr1. cbn [restoring started]. rewrite Ho.
  cbn [script stored_sessionKey noted with_script read_done sessionKey with_sessionKey].
  split; [reflexivity|]. rewrite Hs'. exact Hs.
Qed.

(** X17.  A [FORM_SUBMITTED] message is answered with success at once; the
    tab is asked to show the save prompt exactly when the sender is a tab
    with an id, a session key is set and none of the credentials the read
    returns matches the page and the user name.  The stored vault is not
    changed. *)
Theorem save_prompt_iff (data : SaveData) (tab : option Tab) (now : Z) (r : Runtime) :
  exists l s1 tail,
    getDecryptedCredentials P (script r) = (Ok l, s1)
    /\ journal (step P matchURL (Deliver now (FORM_SUBMITTED data) tab) r)
       = journal r ++ [LogReceived; Responded Success] ++ tail
    /\ filter is_prompt tail
       = match truthy_tab tab with
         | Some t =>
             if truthy_string (sessionKey (script r))
                && negb (existsb (same_login matchURL data) l)
             then [ShowSavePrompt t data]
             else []
         | None => []
         end
    /\ vault_credentials (script (step P matchURL (Deliver now (FORM_SUBMITTED data) tab) r))
       = vault_credentials (script r).
Proof.
  destruct (onMessage_effect (FORM_SUBMITTED data) tab r)
    as (b & r1 & added & Hrun & _ & _ & _ & _ & Hj & _ & _ & Hv & l & s1 & Hread & ->).
  rewrite (step_Deliver _ _ _ _ _ _ Hrun).
  destruct (rearmed_fields now r1) as (-> & _ & -> & _).
  exists l, s1. eexists. split; [exact Hread|]. split; [exact Hj|]. split; [|exact Hv].
  destruct (truthy_tab tab) as [t|]; [|reflexivity].
  destruct (truthy_string (sessionKey (script r))); [|reflexivity]. cbn [andb].
  destruct (find (same_login matchURL data) l) as [c|] eqn:Ef.
  - apply find_some in Ef. destruct Ef as [Hin Hc].
    assert (Hex : existsb (same_login matchURL data) l = true)
      by (apply existsb_exists; eauto).
    rewrite Hex. cbn [negb].
    destruct (JsString_eqb (sc_password c) (data_password data)); reflexivity.
  - assert (Hex : existsb (same_login matchURL data) l = false).
    { destruct (existsb (same_login matchURL data) l) eqn:Hex; [|reflexivity].
      apply existsb_exists in Hex. destruct Hex as (c & Hin & Hc).
      now rewrite (find_none _ _ Ef c Hin) in Hc. }
    rewrite Hex. reflexivity.
Qed.

(** X18.  A login that was saved is not offered again: once
    [handleSaveCredential] has run to its end and has stored its envelope
    (the key is one [importKey] accepts, the URL parses, the engine can
    spread the bytes of the envelope, and [JSON.parse] reads back what
    [JSON.stringify] wrote), a [handleFormSubmitted] that starts afterwards
    with the same data, nothing having written the vault in between, sends
    no save prompt, provided [matchURL] matches the URL with itself.  (A
    [handleFormSubmitted] that starts before the save has stored its
    envelope reads the vault of before; this statement is not about it.) *)
Theorem saved_login_is_not_prompted (r : Runtime) (data : SaveData)
    (k hostname : JsString) (key : CryptoKey P) (existing : list StoredCredential)
    (tab : option Tab) :
  aes_gcm_correct P ->
  sessionKey (script r) = Some k ->
  k <> [] ->
  fst (Crypto.importKey P k (ambient (script r))) = Ok key ->
  URL_hostname P (data_url data) = Ok hostname ->
  fst (getDecryptedCredentials P (script r)) = Ok existing ->
  let saved := existing ++ [saved_credential P data hostname (ambient (script r))] in
  Crypto.fits P key (JSON_stringify_credentials P saved) (ambient (script r)) ->
  Utf8.well_formed (JSON_stringify_credentials P saved) = true ->
  Utf8.no_bom (JSON_stringify_credentials P saved) = true ->
  JSON_parse_credentials P (JSON_stringify_credentials P saved) = Ok saved ->
  matchURL (data_url data) (data_url data) = true ->
  let r1 := snd (in_script (handleSaveCredential P data) r) in
  fst (getDecryptedCredentials P (script r1)) = Ok saved
  /\ exists tail,
       journal (snd (handleFormSubmitted P matchURL data tab r1)) = journal r ++ tail
       /\ filter is_prompt tail = [].
Proof.
  intros Haes Hk Hk' Hkey Hurl Hex saved Hfits Hwf Hbom Hjson Hmatch r1.
  destruct (getDecryptedCredentials_returns P (script r))
    as (l0 & s1 & Hread & Hs1 & _ & Ha1).
  rewrite Hread in Hex. cbn [fst] in Hex. injection Hex as ->.
  destruct (handleSaveCredential_stores P (script r) s1 data k hostname key existing
              Hk Hk' Hurl Hkey Hread) as [Hstored _].
  fold saved in Hstored. specialize (Hstored Hfits).
  assert (E1 : r1 = with_script (snd (handleSaveCredential P data (script r))) r).
  { unfold r1. now rewrite in_script_run. }
  rewrite Hstored in E1. cbn [snd] in E1.
  assert (Hread1 : getDecryptedCredentials P (script r1) = (Ok saved, script r1)).
  { rewrite (getDecryptedCredentials_of_envelope P (script r1) k
               (JSON_stringify_credentials P saved) key
               (Crypto.next_nonce (ambient (script r)))); try assumption.
    - now rewrite Hjson.
    - rewrite E1. cbn. rewrite Hs1. exact Hk.
    - rewrite importKey_run in Hkey |- *. exact Hkey.
    - apply next_nonce_length.
    - rewrite E1. reflexivity. }
  split; [now rewrite Hread1|].
  rewrite (handleFormSubmitted_run data tab r1 saved (script r1) Hread1).
  cbn [snd]. rewrite with_script_same.
  assert (Hj : journal r1 = journal r) by now rewrite E1.
  destruct (truthy_tab tab) as [t|]; [|exists []; rewrite app_nil_r; auto].
  destruct (truthy_string (sessionKey (script r1)));
    [|exists []; rewrite app_nil_r; auto].
  destruct (find (same_login matchURL data) saved) as [c|] eqn:Ef.
  - destruct (JsString_eqb (sc_password c) (data_password data)).
    + exists []. rewrite app_nil_r. auto.
    + exists [LogPasswordChanged]. cbn [journal noted]. rewrite Hj. auto.
  - exfalso.
    pose proof (find_none _ _ Ef (saved_credential P data hostname (ambient (script r)))) as Hn.
    unfold same_login, saved_credential in Hn. cbn [sc_url sc_username] in Hn.
    rewrite Hmatch in Hn.
    assert (He : JsString_eqb (data_username data) (data_username data) = true)
      by now apply JsString_eqb_eq.
    rewrite He in Hn. cbn in Hn.
    assert (H : false = true -> False) by discriminate.
    apply H. symmetry. apply Hn. unfold saved. apply in_or_app. right. now left.
Qed.

End ListenerFacts.

(** ** More of the vault store *)

Section StoreMore.
Import VaultStore.
Variable saveCredentials : list Credential -> JsString -> Result unit.
Variable syncChanges : list Credential -> Z -> Result SyncResult.

(** What the mutations share after their [set]: the list published is the
    list the store holds when they are done. *)
Lemma published_credentials (f : VaultState -> VaultState) (w : World) :
  credentials (state (snd
    ((set f ;;;
      s <- get ;;
      persistToStorage saveCredentials (credentials s) ;;;
      syncVault_begin ;;;
      ret tt) w)))
  = credentials (f (state w)).
Proof.
  unfold bind at 1. unfold set at 1, modify at 1.
  now rewrite persist_and_sync_keep_credentials.
Qed.

Lemma deleteCredential_credentials (target : JsString) (w : World) :
  credentials (state (snd (deleteCredential saveCredentials target w)))
  = filter (fun c => negb (JsString_eqb (id c) target)) (credentials (state w)).
Proof. unfold deleteCredential. now rewrite published_credentials. Qed.

Lemma absent_filter (target : JsString) (cs : list Credential) :
  absent target (filter (fun c => negb (JsString_eqb (id c) target)) cs).
Proof.
  intros c Hc. apply filter_In in Hc. destruct Hc as [_ Hc].
  apply negb_true_iff in Hc. intros E. apply JsString_eqb_eq in E. congruence.
Qed.

(** X19.  [deleteCredential] removes every credential with the given id,
    also when several share it, and keeps the others in their order; a
    second call with the same id changes no credential.  This holds
    whatever the storage call does. *)
Theorem deleteCredential_removes_every_match (target : JsString) (w : World) :
  let w' := snd (deleteCredential saveCredentials target w) in
  absent target (credentials (state w'))
  /\ credentials (state w')
     = filter (fun c => negb (JsString_eqb (id c) target)) (credentials (state w))
  /\ credentials (state (snd (deleteCredential saveCredentials target w')))
     = credentials (state w').
Proof.
  cbv zeta. rewrite !deleteCredential_credentials. split; [apply absent_filter|].
  split; [reflexivity|]. apply filter_absent, absent_filter.
Qed.

Lemma addCredential_credentials (credential : NewCredential) (w : World) :
  credentials (state (snd (addCredential saveCredentials credential w)))
  = credentials (state w) ++ [drawn_credential credential (ambient w)].
Proof.
  rewrite addCredential_run.
  destruct (encryptionKey w) as [[|c k]|]; try reflexivity.
  destruct (saveCredentials _ _); reflexivity.
Qed.

(** X20.  Deleting the credential that [addCredential] has just added
    gives back the list of before, provided the id drawn for it was not the
    id of a credential of the list; if it was, those credentials are
    removed with it. *)
Theorem add_then_delete_restores (credential : NewCredential) (w : World) :
  let newId := uuids (ambient w) (uuid_pos (ambient w)) in
  let w1 := snd (addCredential saveCredentials credential w) in
  let w2 := snd (deleteCredential saveCredentials newId w1) in
  credentials (state w2)
  = filter (fun c => negb (JsString_eqb (id c) newId)) (credentials (state w))
  /\ (absent newId (credentials (state w)) ->
      credentials (state w2) = credentials (state w)).
Proof.
  cbv zeta. rewrite deleteCredential_credentials, addCredential_credentials.
  rewrite filter_app. cbn [filter drawn_credential id].
  assert (E : JsString_eqb (uuids (ambient w) (uuid_pos (ambient w)))
                (uuids (ambient w) (uuid_pos (ambient w))) = true)
    by now apply JsString_eqb_eq.
  rewrite E. cbn [negb]. rewrite app_nil_r. split; [reflexivity|].
  apply filter_absent.
Qed.


Lemma mapM_update_spec (target : JsString) (updates : Updates) (cs : list Credential)
    (w : World) :
  exists cs' a',
    mapM (fun c =>
            if JsString_eqb (id c) target
            then now <- with_ambient Date_now ;; ret (merge c updates now)
            else ret c) cs w
    = (Ok cs', set_ambient a' w)
    /\ clock a' = clock (ambient w)
    /\ (clock_pos (ambient w) <= clock_pos a')%nat
    /\ Forall2 (updated target updates (ambient w)) cs cs'.
Proof.
  revert w. induction cs as [|c cs IH]; intros w; cbn [mapM].
  - exists [], (ambient w). repeat split; auto. now destruct w.
  - destruct (JsString_eqb (id c) target) eqn:Ec.
    + assert (E1 : (now <- with_ambient Date_now ;; ret (merge c updates now)) w
                   = (Ok (merge c updates (clock (ambient w) (clock_pos (ambient w)))),
                      set_ambient (snd (Date_now (ambient w))) w)) by reflexivity.
      rewrite (bind_ok _ _ _ _ _ E1).
      destruct (IH (set_ambient (snd (Date_now (ambient w))) w))
        as (cs' & a' & E & Hc & Hp & HF).
      rewrite (bind_ok _ _ _ _ _ E). eexists _, a'. split; [reflexivity|].
      cbn in Hc, Hp. repeat split; [exact Hc|lia|].
      constructor.
      * unfold updated. rewrite Ec. exists (clock_pos (ambient w)). split; [lia|reflexivity].
      * eapply Forall2_impl; [|exact HF]. intros x y. unfold updated. cbn.
        destruct (JsString_eqb (id x) target); [|auto].
        intros (n & Hn & ->). exists n. split; [lia|reflexivity].
    + unfold bind at 1. unfold ret at 1. cbn beta iota.
      destruct (IH w) as (cs' & a' & E & Hc & Hp & HF).
      rewrite (bind_ok _ _ _ _ _ E). eexists _, a'. split; [reflexivity|].
      repeat split; [exact Hc|exact Hp|].
      constructor; [|exact HF]. unfold updated. now rewrite Ec.
Qed.

Lemma updated_keeps_ids (target : JsString) (updates : Updates) (a : Ambient)
    (cs cs' : list Credential) :
  upd_id updates = None ->
  Forall2 (updated target updates a) cs cs' ->
  map id cs' = map id cs.
Proof.
  intros Hu. induction 1 as [|c c' cs cs' Hc _ IH]; [reflexivity|].
  cbn [map]. rewrite IH. f_equal. unfold updated in Hc.
  destruct (JsString_eqb (id c) target); [|now subst].
  destruct Hc as (n & _ & ->). cbn. now rewrite Hu.
Qed.

(** X21.  [updateCredential] keeps the number and the order of the
    credentials: each one with the given id becomes its merge with the
    updates, stamped with a reading of the clock taken during the call, and
    every other one is kept as it is.  Unless the updates carry an [id], the
    ids stay as they were.  This holds whatever the storage call does. *)
Theorem updateCredential_rewrites_matches (target : JsString) (updates : Updates)
    (w : World) :
  let w' := snd (updateCredential saveCredentials target updates w) in
  Forall2 (updated target updates (ambient w))
    (credentials (state w)) (credentials (state w'))
  /\ length (credentials (state w')) = length (credentials (state w))
  /\ (upd_id updates = None ->
      map id (credentials (state w')) = map id (credentials (state w))).
Proof.
  cbv zeta.
  destruct (mapM_update_spec target updates (credentials (state w)) w)
    as (cs' & a' & E & _ & _ & HF).
  assert (Hc : credentials (state (snd (updateCredential saveCredentials target updates w)))
               = cs').
  { unfold updateCredential. unfold bind at 1. unfold get at 1, gets at 1.
    rewrite (bind_ok _ _ _ _ _ E). now rewrite published_credentials. }
  rewrite Hc. split; [exact HF|]. split.
  - symmetry. eapply Forall2_length, HF.
  - intros Hu. eapply updated_keeps_ids; eassumption.
Qed.

(** X22.  [syncVault] never changes the credentials, and the next sync asks
    for the changes since the timestamp of the last successful one: a reply
    that reports success with a timestamp other than zero moves that point
    to its timestamp, every other outcome (an error, a call that throws, a
    success without timestamp) leaves it where it was. *)
Theorem sync_resumes_from_last_success (w : World) :
  let since := number_or (lastSynced (state w)) 0 in
  let w' := snd (syncVault syncChanges w) in
  credentials (state w') = credentials (state w)
  /\ fst (syncVault_begin w')
     = Ok (credentials (state w),
           match syncChanges (credentials (state w)) since with
           | Ok {| status := remote_synced; timestamp := Some t |} =>
               if t =? 0 then since else t
           | _ => since
           end).
Proof.
  cbv zeta. unfold syncVault. rewrite (bind_ok _ _ _ _ _ (syncVault_begin_run w)).
  cbn [fst snd]. unfold syncVault_settle.
  destruct (syncChanges _ _) as [[[|] [t|]]|e];
    cbn [status timestamp is_synced is_error andb truthy_number]; try (split; reflexivity).
  destruct (Z.eqb_spec t 0) as [->|Hne]; cbn [negb]; [split; reflexivity|].
  split; [reflexivity|]. rewrite syncVault_begin_run. cbn.
  destruct (Z.eqb_spec t 0); [contradiction|reflexivity].
Qed.

End StoreMore.

(** ** The search of the vault page *)

Section HomeFacts.
Import VaultStore VaultHome.
Variable toLowerCase : JsString -> JsString.

Lemma starts_with_prefix (t s : JsString) :
  starts_with t s = true <-> exists b, s = t ++ b.
Proof.
  revert s. induction t as [|p t IH]; intros s; cbn [starts_with app].
  - split; [intros _; now exists s|reflexivity].
  - destruct s as [|c s].
    + split; [discriminate|intros (b & H); discriminate].
    + rewrite andb_true_iff, Z.eqb_eq, IH. split.
      * intros (-> & b & ->). now exists b.
      * intros (b & H). injection H as -> ->. split; [reflexivity|now exists b].
Qed.

Lemma includes_occurs (s t : JsString) :
  includes s t = true <-> occurs_in t s.
Proof.
  unfold occurs_in. induction s as [|c s IH]; cbn [includes].
  - rewrite orb_false_r, starts_with_prefix. split.
    + intros (b & H). now exists [], b.
    + intros (a & b & H). destruct a; [now exists b|discriminate].
  - rewrite orb_true_iff, starts_with_prefix, IH. split.
    + intros [(b & H)|(a & b & H)].
      * now exists [], b.
      * exists (c :: a), b. cbn [app]. now rewrite H.
    + intros (a & b & H). destruct a as [|c' a].
      * left. now exists b.
      * right. injection H as -> ->. now exists a, b.
Qed.

(** X23.  The search of the vault page lists exactly the credentials whose
    name, user name or URL contains the search text, all compared in lower
    case; passwords and notes are not searched.
    A search text whose lower case is empty lists every credential. *)
Theorem search_lists_substring_matches (cs : list Credential) (search : JsString) :
  (forall c,
     In c (filteredCredentials toLowerCase cs search)
     <-> In c cs
         /\ (occurs_in (toLowerCase search) (toLowerCase (name c))
             \/ occurs_in (toLowerCase search) (toLowerCase (username c))
             \/ occurs_in (toLowerCase search) (toLowerCase (url c))))
  /\ (toLowerCase search = [] -> filteredCredentials toLowerCase cs search = cs).
Proof.
  split.
  - intros c. unfold filteredCredentials. rewrite filter_In, !orb_true_iff.
    rewrite !includes_occurs. tauto.
  - intros H. unfold filteredCredentials. rewrite H.
    induction cs as [|c cs IH]; [reflexivity|]. cbn [filter].
    assert (E : forall s, includes s [] = true) by (intros [|? ?]; reflexivity).
    rewrite E. cbn [orb]. now rewrite IH.
Qed.

End HomeFacts.

(** ** Instances on the executable platform *)

Lemma z2b_mod (z : Z) : z2b (z mod 256) = z2b z.
Proof. unfold z2b. now rewrite Z.mod_mod. Qed.

Lemma b2z_z2b_mod (z : Z) : b2z (z2b z) = z mod 256.
Proof.
  rewrite <- z2b_mod. apply b2z_z2b.
  pose proof (Z.mod_pos_bound z 256). lia.
Qed.

Lemma bytes_eqb_refl (l : bytes) : Demo.bytes_eqb l l = true.
Proof.
  induction l as [|b l IH]; cbn [Demo.bytes_eqb]; [reflexivity|].
  rewrite IH, andb_true_r. now apply Byte.byte_dec_lb.
Qed.

Lemma demo_aes_gcm_correct : aes_gcm_correct Demo.platform.
Proof.
  intros key iv data. cbn [subtle_decrypt_aes_gcm subtle_encrypt_aes_gcm Demo.platform].
  unfold Demo.decrypt, Demo.encrypt.
  set (m := Demo.checksum (key ++ iv)).
  assert (Hplain : map (fun b => z2b (b2z b - m)) (map (fun b => z2b (b2z b + m)) data) = data).
  { rewrite map_map. rewrite <- (map_id data) at 2. apply map_ext. intros b.
    rewrite b2z_z2b_mod, <- z2b_mod.
    pose proof (b2z_range b).
    replace (((b2z b + m) mod 256 - m) mod 256) with (b2z b) by lia.
    apply z2b_b2z. }
  assert (Hlen : length (map (fun b => z2b (b2z b + m)) data ++ Demo.tag key iv data)
                 = (length data + 16)%nat).
  { rewrite length_app, length_map. unfold Demo.tag. now rewrite repeat_length. }
  rewrite Hlen.
  destruct (Nat.ltb_spec (length data + 16) 16) as [Hlt|_]; [lia|].
  replace (length data + 16 - 16)%nat with (length data) by lia.
  rewrite firstn_app, skipn_app, length_map, Nat.sub_diag.
  rewrite firstn_all2, skipn_all2 by (rewrite length_map; apply Nat.le_refl).
  cbn [firstn skipn app]. rewrite app_nil_r, Hplain, bytes_eqb_refl. reflexivity.
Qed.

Lemma decrypt_encrypt_roundtrip_witness :
  Crypto.roundtrip Demo.platform (js "[{}]") (js "key") Demo.counting
  = (Ok (js "[{}]"), Crypto.after_nonce Demo.counting).
Proof.
  apply (decrypt_encrypt_roundtrip Demo.platform (js "[{}]") (js "key")
           (map z2b (js "key")) Demo.counting).
  - exact demo_aes_gcm_correct.
  - reflexivity.
  - vm_compute. discriminate.
  - reflexivity.
  - reflexivity.
Defined.

(** C1 fails as stated: a plaintext that holds an unpaired surrogate comes
    back with U+FFFD in its place, and one that begins with U+FEFF comes back
    without it; this is what [TextDecoder] makes of the bytes of
    [TextEncoder], whatever the cipher.  And a plaintext of 65536 letters
    does not come back at all where a call takes 65536 arguments: the spread
    of the bytes of its envelope throws a [RangeError]. *)
Lemma roundtrip_changes_some_strings :
  fst (Crypto.roundtrip Demo.platform [0xD800] (js "key") Demo.counting)
    = Ok [0xFFFD]
  /\ fst (Crypto.roundtrip Demo.platform (0xFEFF :: js "[]") (js "key") Demo.counting)
    = Ok (js "[]")
  /\ Utf8.TextDecoder_decode (Utf8.TextEncoder_encode [0xD800]) = [0xFFFD]
  /\ Utf8.TextDecoder_decode (Utf8.TextEncoder_encode (0xFEFF :: js "[]")) = js "[]"
  /\ fst (Crypto.roundtrip Demo.platform Sample.long_text (js "key") Demo.counting)
    = Throw RangeError
  /\ Utf8.well_formed Sample.long_text = true
  /\ Utf8.no_bom Sample.long_text = true.
Proof. repeat split; vm_compute; reflexivity. Qed.



Lemma demo_collision_free :
  Crypto.collision_free Demo.platform (fun salt => length salt = 3%nat).
Proof.
  intros password salt1 salt2 _ _ H. unfold Crypto.key_material in H.
  cbn [JSON_stringify_jwk subtle_exportKey_jwk subtle_deriveKey_pbkdf2 Demo.platform] in H.
  apply (f_equal (map z2b)) in H. rewrite !map_z2b_b2z in H.
  injection H as H. exact (app_inv_head _ _ _ H).
Qed.

Lemma deriveMasterKey_deterministic_witness :
  let d salt a := fst (Crypto.deriveMasterKey Demo.platform (js "P@ss1") salt a) in
  d (js "QUJD") Demo.counting = d (js "QUJD") (Crypto.after_nonce Demo.counting)
  /\ snd (Crypto.deriveMasterKey Demo.platform (js "P@ss1") (js "QUJD") Demo.counting)
       = Demo.counting
  /\ (js "ABC" = js "ABD" ->
      d (js "QUJD") Demo.counting = d (js "QUJE") (Crypto.after_nonce Demo.counting))
  /\ (js "ABC" <> js "ABD" ->
      d (js "QUJD") Demo.counting <> d (js "QUJE") (Crypto.after_nonce Demo.counting)).
Proof.
  apply (deriveMasterKey_deterministic Demo.platform (fun salt => length salt = 3%nat)
           (js "P@ss1") (js "QUJD") (js "QUJE") (js "ABC") (js "ABD")
           Demo.counting (Crypto.after_nonce Demo.counting)).
  - exact demo_collision_free.
  - reflexivity.
  - reflexivity.
  - reflexivity.
  - reflexivity.
Defined.

(** C7 fails as stated: salts that differ only in how the base64 text is
    written (with or without padding, with other unused trailing bits)
    decode to the same bytes and give the same key material. *)
Lemma different_salts_same_key :
  js "QQ==" <> js "QQ" /\ js "QQ==" <> js "QR=="
  /\ fst (Crypto.deriveMasterKey Demo.platform (js "P@ss1") (js "QQ==") Demo.counting)
     = fst (Crypto.deriveMasterKey Demo.platform (js "P@ss1") (js "QQ") Demo.counting)
  /\ fst (Crypto.deriveMasterKey Demo.platform (js "P@ss1") (js "QQ==") Demo.counting)
     = fst (Crypto.deriveMasterKey Demo.platform (js "P@ss1") (js "QR==") Demo.counting)
  /\ exists k,
       fst (Crypto.deriveMasterKey Demo.platform (js "P@ss1") (js "QQ==") Demo.counting)
       = Ok k.
Proof.
  repeat split; try discriminate; try (vm_compute; reflexivity).
  eexists. vm_compute. reflexivity.
Qed.

Lemma locked_read_returns_empty_witness :
  Background.getDecryptedCredentials Demo.platform
      (Demo.background None (Background.PlainArray []))
    = (Ok [], Background.logged Background.LogLocked
                (Demo.background None (Background.PlainArray [])))
  /\ fst (Background.handleRequestCredentials Demo.platform (fun _ _ => true)
            (js "https://github.com") (Demo.background None (Background.PlainArray [])))
     = Ok [].
Proof.
  apply (locked_read_returns_empty Demo.platform (fun _ _ => true)
           (Demo.background None (Background.PlainArray [])) (js "https://github.com")).
  reflexivity.
Defined.

Lemma plain_array_is_ignored_witness :
  let s := Demo.background (Some (js "key")) (Background.PlainArray [Sample.legacy]) in
  fst (Background.getDecryptedCredentials Demo.platform s) = Ok []
  /\ Background.vault_credentials (snd (Background.getDecryptedCredentials Demo.platform s))
     = Background.PlainArray [Sample.legacy]
  /\ Background.ambient (snd (Background.getDecryptedCredentials Demo.platform s))
     = Background.ambient s
  /\ (truthy_string (Background.sessionKey s) = true ->
      snd (Background.getDecryptedCredentials Demo.platform s)
      = Background.logged Background.WarnUnencryptedArray s).
Proof.
  apply (plain_array_is_ignored Demo.platform
           (Demo.background (Some (js "key")) (Background.PlainArray [Sample.legacy]))
           [Sample.legacy]).
  reflexivity.
Defined.

Lemma failed_decryption_returns_empty_witness :
  Background.getDecryptedCredentials Demo.platform
      (Demo.background (Some (js "kez")) (Background.Envelope Demo.sealed_empty))
  = (Ok [], Background.logged (Background.ErrorDecryptionFailed OperationError)
              (Demo.background (Some (js "kez")) (Background.Envelope Demo.sealed_empty))).
Proof.
  apply (failed_decryption_returns_empty Demo.platform
           (Demo.background (Some (js "kez")) (Background.Envelope Demo.sealed_empty))
           (js "kez") Demo.sealed_empty OperationError).
  - reflexivity.
  - discriminate.
  - reflexivity.
  - vm_compute. discriminate.
  - vm_compute. reflexivity.
Defined.

(** C2 fails as stated: with the wrong session key the decryption of the
    stored envelope throws, and the read returns the empty list, as it does
    for a vault that holds nothing and for the right key and an empty
    vault. *)
Lemma wrong_key_read_returns_empty :
  fst (Crypto.decryptVaultData Demo.platform Demo.sealed_empty (js "kez") Demo.counting)
    = Throw OperationError
  /\ fst (Background.getDecryptedCredentials Demo.platform
            (Demo.background (Some (js "kez")) (Background.Envelope Demo.sealed_empty)))
     = Ok []
  /\ fst (Background.getDecryptedCredentials Demo.platform
            (Demo.background (Some (js "key")) (Background.Envelope Demo.sealed_empty)))
     = Ok []
  /\ fst (Background.getDecryptedCredentials Demo.platform
            (Demo.background (Some (js "kez")) Background.NoValue))
     = Ok [].
Proof. repeat split; vm_compute; reflexivity. Qed.

Lemma absent_id_keeps_credentials_witness :
  let w := Demo.store (Some (js "key")) Demo.counting in
  VaultStore.credentials (VaultStore.state (snd
      (VaultStore.updateCredential Demo.save_ok (js "uuid-9")
         {| VaultStore.upd_id := None; VaultStore.upd_name := Some (js "renamed");
            VaultStore.upd_url := None; VaultStore.upd_username := None;
            VaultStore.upd_password := None; VaultStore.upd_notes := None;
            VaultStore.upd_lastUpdated := None |} w)))
    = VaultStore.credentials (VaultStore.state w)
  /\ VaultStore.credentials (VaultStore.state (snd
       (VaultStore.deleteCredential Demo.save_ok (js "uuid-9") w)))
    = VaultStore.credentials (VaultStore.state w).
Proof.
  apply (absent_id_keeps_credentials Demo.save_ok (js "uuid-9")).
  intros c [<-|[]]. discriminate.
Defined.

Lemma demo_never_repeats : never_repeats Demo.counting.
Proof.
  intros i j H. cbn [uuids Demo.counting] in H. apply app_inv_head in H.
  apply (f_equal (@length Z)) in H. rewrite !repeat_length in H. lia.
Qed.

Lemma addCredential_appends_persists_syncs_witness :
  let P := Sample.platform in
  let w := Sample.store in
  let s := Sample.after_first_save in
  let data := Sample.second_login in
  let existing :=
    [Background.saved_credential P Demo.login (js "www.github.com") Demo.counting] in
  let new := VaultStore.drawn_credential Demo.gitlab (VaultStore.ambient w) in
  let full := VaultStore.credentials (VaultStore.state w) ++ [new] in
  let saved := Background.saved_credential P data (js "gitlab.com") (Background.ambient s) in
  let json := JSON_stringify_credentials P (existing ++ [saved]) in
  let after :=
    Crypto.after_nonce (snd (Date_now (snd (randomUUID (Background.ambient s))))) in
  (exists w' key,
     VaultStore.addCredential (Storage.settles P Sample.stringify_store Sample.disk)
       Demo.gitlab w = (Ok tt, w')
     /\ VaultStore.credentials (VaultStore.state w')
        = VaultStore.credentials (VaultStore.state w) ++ [new]
     /\ VaultStore.id new = uuids (VaultStore.ambient w) (uuid_pos (VaultStore.ambient w))
     /\ VaultStore.lastUpdated new
        = clock (VaultStore.ambient w) (clock_pos (VaultStore.ambient w))
     /\ VaultStore.absent (VaultStore.id new) (VaultStore.credentials (VaultStore.state w))
     /\ (NoDup (map VaultStore.id (VaultStore.credentials (VaultStore.state w))) ->
         NoDup (map VaultStore.id (VaultStore.credentials (VaultStore.state w'))))
     /\ drawn_before (VaultStore.ambient w')
          (map VaultStore.id (VaultStore.credentials (VaultStore.state w')))
     /\ VaultStore.trace w' =
          VaultStore.trace w ++
          [VaultStore.SetState
             (VaultStore.with_syncStatus VaultStore.pending
                (VaultStore.with_credentials full (VaultStore.state w)));
           VaultStore.CallSaveCredentials full (js "key");
           VaultStore.LogPersisted;
           VaultStore.SetState
             (VaultStore.with_syncStatus VaultStore.syncing
                (VaultStore.with_credentials full (VaultStore.state w)));
           VaultStore.CallSyncChanges full
             (number_or (VaultStore.lastSynced (VaultStore.state w)) 0)]
     /\ fst (Crypto.importKey P (js "key") (Storage.disk_ambient Sample.disk)) = Ok key
     /\ Storage.stored
          (snd (Storage.saveCredentials P Sample.stringify_store full (js "key")
                  Sample.disk))
        = Some (Crypto.envelope P key
                  (Crypto.next_nonce (Storage.disk_ambient Sample.disk))
                  (Sample.stringify_store full)))
  /\ (exists s1,
        Background.getDecryptedCredentials P s = (Ok existing, s1)
        /\ Background.handleSaveCredential P data s
           = (Ok tt,
              Background.logged Background.LogCredentialSaved
                (Background.set_vault_credentials
                   (Background.Envelope
                      (Crypto.envelope P (map z2b (js "key"))
                         (Crypto.next_nonce (Background.ambient s)) json))
                   (Background.set_ambient after s1)))
        /\ sc_id saved = uuids (Background.ambient s) (uuid_pos (Background.ambient s))
        /\ Forall (fun c => sc_id c <> sc_id saved) existing
        /\ drawn_before after (map sc_id (existing ++ [saved]))).
Proof.
  apply (addCredential_appends_persists_syncs Sample.platform Sample.stringify_store
           Demo.gitlab Sample.store (js "key") Sample.disk
           Sample.after_first_save Sample.second_login (js "key") (js "gitlab.com")
           (map z2b (js "key"))
           [Background.saved_credential Sample.platform Demo.login (js "www.github.com")
              Demo.counting]).
  - reflexivity.
  - discriminate.
  - vm_compute. reflexivity.
  - intros i j H. apply demo_never_repeats. exact H.
  - intros x Hin. vm_compute in Hin. destruct Hin as [<-|[]].
    exists 0%nat. split; vm_compute; [lia|reflexivity].
  - reflexivity.
  - discriminate.
  - reflexivity.
  - reflexivity.
  - vm_compute. reflexivity.
  - vm_compute. discriminate.
  - intros i j H. apply demo_never_repeats. exact H.
  - intros x Hin. vm_compute in Hin. destruct Hin as [<-|[]].
    exists 0%nat. split; vm_compute; [lia|reflexivity].
Defined.

(** C4 fails as stated: without an encryption key [addCredential] hands
    nothing to the storage service, and [handleSaveCredential] stores the
    envelope of the whole list and writes one line to the console, nothing
    more: no [lastUpdated], no status, no sync. *)
Lemma add_without_key_and_background_add :
  VaultStore.trace (snd (VaultStore.addCredential Demo.save_ok Demo.gitlab
                           (Demo.store None Demo.counting)))
  = (let full := [Demo.github;
                  VaultStore.drawn_credential Demo.gitlab Demo.counting] in
     [VaultStore.SetState
        {| VaultStore.isLocked := false; VaultStore.credentials := full;
           VaultStore.syncStatus := VaultStore.pending;
           VaultStore.lastSynced := Some 1690000000000 |};
      VaultStore.WarnNoKey;
      VaultStore.SetState
        {| VaultStore.isLocked := false; VaultStore.credentials := full;
           VaultStore.syncStatus := VaultStore.syncing;
           VaultStore.lastSynced := Some 1690000000000 |};
      VaultStore.CallSyncChanges full 1690000000000])
  /\ (let s' := snd (Background.handleSaveCredential Sample.platform Demo.login
                        Sample.unlocked) in
      fst (Background.handleSaveCredential Sample.platform Demo.login Sample.unlocked)
        = Ok tt
      /\ Background.sessionKey s' = Some (js "key")
      /\ Background.vault_credentials s'
         = Background.Envelope
             (Crypto.envelope Sample.platform (map z2b (js "key"))
                (Crypto.next_nonce Demo.counting)
                (JSON_stringify_credentials Sample.platform
                   [Background.saved_credential Sample.platform Demo.login
                      (js "www.github.com") Demo.counting]))
      /\ Background.console s' = [Background.LogCredentialSaved]).
Proof. repeat split; vm_compute; reflexivity. Qed.

Lemma sync_state_machine_witness :
  let w := Demo.store (Some (js "key")) Demo.counting in
  let upd := {| VaultStore.upd_id := None; VaultStore.upd_name := Some (js "renamed");
                VaultStore.upd_url := None; VaultStore.upd_username := None;
                VaultStore.upd_password := None; VaultStore.upd_notes := None;
                VaultStore.upd_lastUpdated := None |} in
  let reply := {| VaultStore.status := VaultStore.remote_synced;
                  VaultStore.timestamp := Some 1700000000500 |} in
  VaultStore.publishes_pending_first w
    (snd (VaultStore.addCredential Demo.save_ok Demo.gitlab w))
  /\ VaultStore.publishes_pending_first w
       (snd (VaultStore.updateCredential Demo.save_ok (js "uuid-g") upd w))
  /\ VaultStore.publishes_pending_first w
       (snd (VaultStore.deleteCredential Demo.save_ok (js "uuid-g") w))
  /\ VaultStore.state (snd (VaultStore.clearVault w))
     = {| VaultStore.isLocked := VaultStore.isLocked (VaultStore.state w);
          VaultStore.credentials := [];
          VaultStore.syncStatus := VaultStore.synced;
          VaultStore.lastSynced := None |}
  /\ VaultStore.syncStatus (VaultStore.state (snd (VaultStore.setCredentials [] w)))
     = VaultStore.syncStatus (VaultStore.state w)
  /\ VaultStore.syncStatus (VaultStore.state (snd (VaultStore.syncVault_begin w)))
     = VaultStore.syncing
  /\ VaultStore.syncVault (Demo.remote reply) w
     = VaultStore.syncVault_settle
         (Demo.remote reply (VaultStore.credentials (VaultStore.state w))
            (number_or (VaultStore.lastSynced (VaultStore.state w)) 0))
         (VaultStore.sync_started w)
  /\ VaultStore.state (snd (VaultStore.syncVault_settle
         (Ok {| VaultStore.status := VaultStore.remote_synced;
                VaultStore.timestamp := Some 1700000000500 |}) w))
     = VaultStore.with_syncStatus VaultStore.synced
         (VaultStore.with_lastSynced (Some 1700000000500) (VaultStore.state w))
  /\ VaultStore.state (snd (VaultStore.syncVault_settle
         (Ok {| VaultStore.status := VaultStore.remote_error;
                VaultStore.timestamp := None |}) w))
     = VaultStore.with_syncStatus VaultStore.error (VaultStore.state w)
  /\ VaultStore.state (snd (VaultStore.syncVault_settle (Throw TypeError) w))
     = VaultStore.with_syncStatus VaultStore.error (VaultStore.state w).
Proof.
  intros w upd reply.
  apply (sync_state_machine Demo.save_ok (Demo.remote reply) w Demo.gitlab (js "uuid-g")
           upd [] 1700000000500 None TypeError).
  discriminate.
Defined.

(** C5 fails as stated: a reply that reports success with the timestamp 0
    leaves the status at [syncing], and [setCredentials] changes the
    credentials of a synced store without making it [pending]. *)
Lemma zero_timestamp_is_not_synced :
  VaultStore.syncStatus (VaultStore.state (snd
     (VaultStore.syncVault
        (Demo.remote {| VaultStore.status := VaultStore.remote_synced;
                        VaultStore.timestamp := Some 0 |})
        (Demo.store (Some (js "key")) Demo.counting))))
  = VaultStore.syncing
  /\ VaultStore.state (snd (VaultStore.setCredentials []
                             (Demo.store (Some (js "key")) Demo.counting)))
     = {| VaultStore.isLocked := false; VaultStore.credentials := [];
          VaultStore.syncStatus := VaultStore.synced;
          VaultStore.lastSynced := Some 1690000000000 |}.
Proof. split; vm_compute; reflexivity. Qed.

(** C10: the code leaves the status at [syncing] when the remote reports
    success without a timestamp. *)
Lemma sync_without_timestamp_stays_syncing :
  VaultStore.syncStatus (VaultStore.state (snd
     (VaultStore.syncVault
        (Demo.remote {| VaultStore.status := VaultStore.remote_synced;
                        VaultStore.timestamp := None |})
        (Demo.store (Some (js "key")) Demo.counting))))
  = VaultStore.syncing.
Proof. vm_compute. reflexivity. Qed.

(** Saving a credential for a page of github.com. *)
Lemma handleSaveCredential_persists_full_set_witness :
  let P := Sample.platform in
  let s := Sample.after_first_save in
  let existing :=
    [Background.saved_credential P Demo.login (js "www.github.com") Demo.counting] in
  fst (Background.getDecryptedCredentials P s) = Ok existing
  /\ Background.vault_credentials
       (snd (Background.handleSaveCredential P Sample.second_login s))
     = Background.Envelope
         (Crypto.envelope P (map z2b (js "key"))
            (Crypto.next_nonce (Background.ambient s))
            (JSON_stringify_credentials P
               (existing ++ [Background.saved_credential P Sample.second_login
                               (js "gitlab.com") (Background.ambient s)]))).
Proof.
  split; [vm_compute; reflexivity|].
  refine (proj1 (handleSaveCredential_persists_full_set Sample.platform
                   Sample.after_first_save Sample.second_login (js "key")
                   (js "gitlab.com") (map z2b (js "key"))
                   [Background.saved_credential Sample.platform Demo.login
                      (js "www.github.com") Demo.counting]
                   _ _ _ _ _) _).
  - reflexivity.
  - discriminate.
  - reflexivity.
  - reflexivity.
  - vm_compute. reflexivity.
  - vm_compute. discriminate.
Defined.


Lemma addCredential_without_key_witness :
  let w := Demo.store None Demo.counting in
  let new := VaultStore.drawn_credential Demo.gitlab (VaultStore.ambient w) in
  let full := VaultStore.credentials (VaultStore.state w) ++ [new] in
  exists w',
    VaultStore.addCredential Demo.save_ok Demo.gitlab w = (Ok tt, w')
    /\ VaultStore.credentials (VaultStore.state w') = full
    /\ VaultStore.trace w' =
         VaultStore.trace w ++
         [VaultStore.SetState
            (VaultStore.with_syncStatus VaultStore.pending
               (VaultStore.with_credentials full (VaultStore.state w)));
          VaultStore.WarnNoKey;
          VaultStore.SetState
            (VaultStore.with_syncStatus VaultStore.syncing
               (VaultStore.with_credentials full (VaultStore.state w)));
          VaultStore.CallSyncChanges full
            (number_or (VaultStore.lastSynced (VaultStore.state w)) 0)].
Proof.
  apply (addCredential_without_key Demo.save_ok Demo.gitlab (Demo.store None Demo.counting)).
  reflexivity.
Defined.

(** ** Instances of the further properties *)

Lemma sample_aes_gcm_correct : aes_gcm_correct Sample.platform.
Proof. exact demo_aes_gcm_correct. Qed.

Lemma generated_password_shape_witness :
  let o := {| Generator.uppercase := true; Generator.lowercase := true;
              Generator.numbers := true; Generator.symbols := false |} in
  exists p,
    Generator.generateRandomPassword 8 o Demo.counting
      = (Generator.Password p, Generator.after_u32 (Z.to_nat 8) Demo.counting)
    /\ Z.of_nat (length p) = 8
    /\ Forall (Generator.allowed o) p.
Proof.
  apply (generated_password_shape 8
           {| Generator.uppercase := true; Generator.lowercase := true;
              Generator.numbers := true; Generator.symbols := false |} Demo.counting);
    [reflexivity|lia].
Defined.

Lemma generated_password_limits_witness :
  let o := {| Generator.uppercase := true; Generator.lowercase := false;
              Generator.numbers := false; Generator.symbols := false |} in
  Generator.generateRandomPassword 16385 o Demo.counting
    = (Generator.Failed QuotaExceededError, Demo.counting)
  /\ Generator.generateRandomPassword 4294967296 o Demo.counting
     = (Generator.Failed RangeError, Demo.counting)
  /\ Generator.generateRandomPassword (-1) o Demo.counting
     = (Generator.Failed RangeError, Demo.counting).
Proof.
  pose (o := {| Generator.uppercase := true; Generator.lowercase := false;
                Generator.numbers := false; Generator.symbols := false |}).
  split; [|split].
  - exact (proj2 (proj2 (generated_password_limits 16385 o Demo.counting))
             eq_refl eq_refl).
  - exact (proj2 (proj2 (generated_password_limits 4294967296 o Demo.counting))
             eq_refl eq_refl).
  - exact (proj1 (proj2 (generated_password_limits (-1) o Demo.counting))
             eq_refl eq_refl).
Defined.

Lemma first_character_is_favoured_witness :
  let o := {| Generator.uppercase := true; Generator.lowercase := true;
              Generator.numbers := true; Generator.symbols := true |} in
  let n := Z.of_nat (length (Generator.characters o)) in
  let first := Generator.charAt (Generator.characters o) 0 in
  let last := Generator.charAt (Generator.characters o) (n - 1) in
  (forall a, Generator.generateRandomPassword 1 o a
             = (Generator.Password (Generator.drawn_char o (Generator.random_u32 a 0)),
                Generator.after_u32 1 a))
  /\ first <> last
  /\ (forall v, Generator.is_u32 v -> Generator.drawn_char o v = last ->
      Generator.is_u32 (v - (n - 1)) /\ Generator.drawn_char o (v - (n - 1)) = first)
  /\ (exists v0, Generator.is_u32 v0 /\ Generator.drawn_char o v0 = first
      /\ forall v, Generator.is_u32 v -> Generator.drawn_char o v = last ->
                   v - (n - 1) <> v0).
Proof.
  apply (first_character_is_favoured
           {| Generator.uppercase := true; Generator.lowercase := true;
              Generator.numbers := true; Generator.symbols := true |}).
  reflexivity.
Defined.

Lemma rejected_key_rejects_first_witness :
  Crypto.encryptVaultData Demo.platform (js "[]") [] Demo.counting
    = (Throw SyntaxError, Demo.counting)
  /\ Crypto.decryptVaultData Demo.platform Demo.sealed_empty [] Demo.counting
    = (Throw SyntaxError, Demo.counting).
Proof.
  apply (rejected_key_rejects_first Demo.platform (js "[]") Demo.sealed_empty []
           SyntaxError Demo.counting).
  reflexivity.
Defined.

Lemma decryptVaultData_malformed_or_short_witness :
  Crypto.decryptVaultData Demo.platform (js "not base64!") (js "key") Demo.counting
    = (Throw InvalidCharacterError, Demo.counting)
  /\ Crypto.decryptVaultData Demo.platform (js "QUJD") (js "key") Demo.counting
     = (match subtle_decrypt_aes_gcm Demo.platform (map z2b (js "key"))
                (Uint8Array_from_charCodes (js "ABC")) [] with
        | Ok plain => Ok (Utf8.TextDecoder_decode plain)
        | Throw e => Throw e
        end, Demo.counting).
Proof.
  split.
  - exact (decryptVaultData_malformed_or_short Demo.platform (js "not base64!") (js "key")
             (map z2b (js "key")) Demo.counting eq_refl).
  - refine (decryptVaultData_malformed_or_short Demo.platform (js "QUJD") (js "key")
              (map z2b (js "key")) Demo.counting eq_refl _).
    cbn. lia.
Defined.

Lemma envelope_layout_witness :
  Crypto.encryptVaultData Demo.platform Sample.long_text (js "key") Demo.counting
  = (Throw RangeError, Crypto.after_nonce Demo.counting)
  /\ exists envelope,
       Crypto.encryptVaultData Demo.platform (js "[]") (js "key") Demo.counting
         = (Ok envelope, Crypto.after_nonce Demo.counting)
       /\ Nat.modulo (length envelope) 4 = 0%nat
       /\ option_map Uint8Array_from_charCodes
            (match Base64.atob envelope with Ok b => Some b | Throw _ => None end)
          = Some (Crypto.next_nonce Demo.counting
                  ++ subtle_encrypt_aes_gcm Demo.platform (map z2b (js "key"))
                       (Crypto.next_nonce Demo.counting)
                       (Utf8.TextEncoder_encode (js "[]"))).
Proof.
  split.
  - refine (proj1 (envelope_layout Demo.platform Sample.long_text (js "key")
                     (map z2b (js "key")) Demo.counting _) _).
    + reflexivity.
    + intros H. vm_compute in H. apply H. reflexivity.
  - refine (proj2 (envelope_layout Demo.platform (js "[]") (js "key")
                     (map z2b (js "key")) Demo.counting _) _).
    + reflexivity.
    + vm_compute. discriminate.
Defined.

Lemma saved_credentials_are_read_back_witness :
  let s := Sample.unlocked in
  let credentials :=
    [Background.saved_credential Sample.platform Demo.login (js "www.github.com")
       Demo.counting] in
  exists s',
    (Background.saveEncryptedCredentials Sample.platform credentials ;;;
     Background.getDecryptedCredentials Sample.platform) s
      = (Ok credentials, s')
    /\ Background.console s' = Background.console s
    /\ Background.vault_credentials s'
       = Background.Envelope
           (Crypto.envelope Sample.platform (map z2b (js "key"))
              (Crypto.next_nonce (Background.ambient s))
              (JSON_stringify_credentials Sample.platform credentials)).
Proof.
  apply (saved_credentials_are_read_back Sample.platform Sample.unlocked (js "key")
           (map z2b (js "key"))
           [Background.saved_credential Sample.platform Demo.login (js "www.github.com")
              Demo.counting]).
  - exact sample_aes_gcm_correct.
  - reflexivity.
  - discriminate.
  - reflexivity.
  - vm_compute. discriminate.
  - vm_compute. reflexivity.
  - vm_compute. reflexivity.
  - vm_compute. reflexivity.
Defined.

Lemma locked_script_discloses_nothing_witness :
  let r := Listener.started (Background.Envelope Demo.sealed_empty) None Demo.counting in
  let events :=
    [Listener.Deliver 0 (Listener.REQUEST_CREDENTIALS (js "https://www.github.com/")) Sample.tab;
     Listener.Deliver 1 (Listener.SAVE_CREDENTIAL Demo.login) Sample.tab;
     Listener.Deliver 2 (Listener.FORM_SUBMITTED Demo.login) Sample.tab;
     Listener.Restore;
     Listener.Deliver 3 (Listener.SET_SESSION_KEY (Some [])) Sample.tab;
     Listener.Fire 4] in
  Listener.locked (Listener.run Sample.platform Sample.matchURL events r) = true
  /\ Background.vault_credentials
       (Listener.script (Listener.run Sample.platform Sample.matchURL events r))
     = Background.vault_credentials (Listener.script r)
  /\ exists added,
       Listener.journal (Listener.run Sample.platform Sample.matchURL events r)
         = Listener.journal r ++ added
       /\ forallb Listener.discloses_nothing added = true
       /\ filter Listener.is_response added = flat_map Listener.locked_answer events.
Proof.
  apply (locked_script_discloses_nothing Sample.platform Sample.matchURL
           (Listener.started (Background.Envelope Demo.sealed_empty) None Demo.counting));
    reflexivity.
Defined.

Lemma fired_timer_locks_witness :
  let r := Listener.step Sample.platform Sample.matchURL
             (Listener.Deliver 0 (Listener.SET_SESSION_KEY (Some (js "key"))) Sample.tab)
             (Listener.started (Background.Envelope Demo.sealed_empty) None Demo.counting) in
  let r1 := Listener.step Sample.platform Sample.matchURL (Listener.Fire 1) r in
  let r2 := Listener.step Sample.platform Sample.matchURL
              (Listener.Deliver 900000
                 (Listener.REQUEST_CREDENTIALS (js "https://www.github.com/")) Sample.tab)
              r1 in
  Background.sessionKey (Listener.script r1) = None
  /\ Listener.stored_sessionKey r1 = None
  /\ Listener.is_pending 1 r1 = false
  /\ Listener.journal r2
     = Listener.journal r
       ++ [Listener.LogAutoLocking; Listener.LogReceived;
           Listener.Responded (Listener.Credentials [])]
  /\ Background.vault_credentials (Listener.script r2)
     = Background.vault_credentials (Listener.script r).
Proof.
  apply (fired_timer_locks Sample.platform Sample.matchURL
           (Listener.step Sample.platform Sample.matchURL
              (Listener.Deliver 0 (Listener.SET_SESSION_KEY (Some (js "key"))) Sample.tab)
              (Listener.started (Background.Envelope Demo.sealed_empty) None Demo.counting))
           1%nat 900000 (js "https://www.github.com/") Sample.tab).
  reflexivity.
Defined.

Lemma saved_login_is_not_prompted_witness :
  let P := Sample.platform in
  let r := snd (Listener.in_script (Background.handleSaveCredential P Demo.login)
                  (Listener.step P Sample.matchURL
                     (Listener.Deliver 0 (Listener.SET_SESSION_KEY (Some (js "key")))
                        Sample.tab)
                     Sample.fresh)) in
  let saved :=
    [Background.saved_credential P Demo.login (js "www.github.com") Demo.counting;
     Background.saved_credential P Sample.second_login (js "gitlab.com")
       (Background.ambient (Listener.script r))] in
  let r1 :=
    snd (Listener.in_script (Background.handleSaveCredential P Sample.second_login) r) in
  fst (Background.getDecryptedCredentials P (Listener.script r1)) = Ok saved
  /\ exists tail,
       Listener.journal
         (snd (Listener.handleFormSubmitted P Sample.matchURL Sample.second_login
                 Sample.tab r1))
       = Listener.journal r ++ tail
       /\ filter Listener.is_prompt tail = [].
Proof.
  apply (saved_login_is_not_prompted Sample.platform Sample.matchURL
           (snd (Listener.in_script
                   (Background.handleSaveCredential Sample.platform Demo.login)
                   (Listener.step Sample.platform Sample.matchURL
                      (Listener.Deliver 0 (Listener.SET_SESSION_KEY (Some (js "key")))
                         Sample.tab)
                      Sample.fresh)))
           Sample.second_login (js "key") (js "gitlab.com") (map z2b (js "key"))
           [Background.saved_credential Sample.platform Demo.login (js "www.github.com")
              Demo.counting]
           Sample.tab).
  - exact sample_aes_gcm_correct.
  - reflexivity.
  - discriminate.
  - reflexivity.
  - reflexivity.
  - vm_compute. reflexivity.
  - vm_compute. discriminate.
  - vm_compute. reflexivity.
  - vm_compute. reflexivity.
  - vm_compute. reflexivity.
  - vm_compute. reflexivity.
Defined.

Lemma late_restore_overrides_key_witness :
  let r := Listener.run Sample.platform Sample.matchURL
             [Listener.Deliver 0 (Listener.SET_SESSION_KEY (Some (js "new"))) Sample.tab;
              Listener.Restore]
             (Listener.started Background.NoValue (Some (js "old")) Demo.counting) in
  Background.sessionKey (Listener.script r) = Some (js "old")
  /\ Listener.stored_sessionKey r = Some (js "new").
Proof.
  apply (late_restore_overrides_key Sample.platform Sample.matchURL Background.NoValue
           (Some (js "old")) (Some (js "new")) Demo.counting 0 Sample.tab);
    reflexivity.
Defined.
